(** * Redis-Go: a shallow embedding of the server core

    The development follows the Go sources package by package:
    - [strconv], [strings], [time]: the pieces of the Go standard library the
      server calls ([ParseInt], [Atoi], [FormatInt], [TrimSpace], [ToUpper],
      [Duration.Seconds]);
    - [database]: internal/database/database.go;
    - [protocol]: the RESP value type of internal/protocol;
    - [persistence]: internal/persistence/persistence.go;
    - [server]: command dispatch (executeCommand and the handlers) and the
      connection loop (handleConnection, readRESPArray, readBulkString).

    Conventions.  Go strings are byte strings: [string] with 8-bit [ascii].
    [int], [int64] and [time.Duration] are [Z] with the 64-bit wrap-around
    written out where the code can overflow.  Instants ([time.Time]) are [Z]
    nanoseconds on one time line; the clock is an explicit argument [now],
    one reading for all the calls of [time.Now()] within one method call or
    one snapshot.  Go maps are stdpp [gmap]s.  The locks are not modelled:
    the embedding is the sequential behaviour of one call at a time. *)

From Stdlib Require Import ZArith String Ascii List Lia.
From Stdlib Require Import Floats.SpecFloat.
From stdpp Require Import gmap strings list fin_maps pretty.

Open Scope Z_scope.

(** ** Results of fallible calls: Go's [(value, err)] pairs *)

Inductive result (E A : Type) : Type :=
| Ok (a : A)
| Err (e : E).
Arguments Ok {E A} a.
Arguments Err {E A} e.

(** ** Machine integers *)

Definition minInt64 : Z := - 2 ^ 63.
Definition maxInt64 : Z := 2 ^ 63 - 1.
Definition maxUint64 : Z := 2 ^ 64 - 1.

(** Two's complement wrap-around of an [int64] computation. *)
Definition wrap64 (z : Z) : Z := (z + 2 ^ 63) mod 2 ^ 64 - 2 ^ 63.

Definition in_int64 (z : Z) : Prop := minInt64 <= z <= maxInt64.

(** ** Bytes *)

Definition byte (n : nat) : ascii := ascii_of_nat n.
Definition code (c : ascii) : Z := Z.of_N (N_of_ascii c).

Definition LF : ascii := byte 10.
Definition CR : ascii := byte 13.

(** * Package strconv *)

Module strconv.

Inductive NumError : Type := ErrSyntax | ErrRange.

Global Instance NumError_eq_dec : EqDecision NumError.
Proof. solve_decision. Defined.

Definition is_digit (c : ascii) : bool :=
  (48 <=? code c) && (code c <=? 57).

(** The loop of [ParseUint(s, 10, 64)]: in base 10 every byte that is not a
    decimal digit is a syntax error; [cutoff] and the [n1] test are the two
    overflow exits. *)
Fixpoint ParseUint_loop (s : string) (n : Z) : result NumError Z :=
  match s with
  | EmptyString => Ok n
  | String c s' =>
      if is_digit c then
        if (maxUint64 / 10 + 1 <=? n) then Err ErrRange
        else
          let n1 := n * 10 + (code c - 48) in
          if maxUint64 <? n1 then Err ErrRange
          else ParseUint_loop s' n1
      else Err ErrSyntax
  end.

Definition ParseUint (s : string) : result NumError Z :=
  match s with
  | EmptyString => Err ErrSyntax
  | _ => ParseUint_loop s 0
  end.

(** [ParseInt(s, 10, 64)]. *)
Definition ParseInt (s : string) : result NumError Z :=
  match s with
  | EmptyString => Err ErrSyntax
  | String c s' =>
      let neg := Ascii.eqb c "-" in
      let digits := if Ascii.eqb c "+" || neg then s' else s in
      match ParseUint digits with
      | Err ErrSyntax => Err ErrSyntax
      | Err ErrRange => Err ErrRange
      | Ok un =>
          let cutoff := 2 ^ 63 in
          if negb neg && (cutoff <=? un) then Err ErrRange
          else if neg && (cutoff <? un) then Err ErrRange
          else Ok (if neg then - un else un)
      end
  end.

(** [Atoi]: on a 64-bit platform [int] is [int64]; the fast path of [Atoi]
    for short inputs computes the same result as [ParseInt(s, 10, 0)]. *)
Definition Atoi (s : string) : result NumError Z := ParseInt s.

(** [FormatInt(i, 10)]: the decimal digits, with a leading minus sign for a
    negative number. *)
Definition FormatInt (i : Z) : string := pretty i.

End strconv.

(** * Package strings *)

Module strings.

(** [ToUpper] on a string of ASCII bytes: the letters a..z are moved to
    A..Z and every other byte is kept.  On a string that holds a byte above
    127 Go's function decodes runes, maps them through the Unicode case
    tables and writes U+FFFD for a byte that is no valid UTF-8; these tables
    are not part of this model, which keeps such bytes.  What is stated
    about verbs with such bytes is stated for every case mapping, over
    [executeCommand_with] below. *)
Definition upper_byte (c : ascii) : ascii :=
  if (97 <=? code c) && (code c <=? 122)
  then ascii_of_N (N_of_ascii c - 32) else c.

Fixpoint ToUpper (s : string) : string :=
  match s with
  | EmptyString => EmptyString
  | String c s' => String (upper_byte c) (ToUpper s')
  end.

(** [TrimSpace] cuts the white space of [unicode.IsSpace] from both ends:
    the six ASCII bytes and the UTF-8 encodings of U+0085, U+00A0, U+1680,
    U+2000..U+200A, U+2028, U+2029, U+202F, U+205F and U+3000.

    [space_len]: number of bytes of the white-space rune that starts the
    byte list (0 when it starts with none). *)
Definition space_len (l : list Z) : nat :=
  match l with
  | 194 :: b :: _ => if (b =? 133) || (b =? 160) then 2 else 0
  | 225 :: 154 :: 128 :: _ => 3
  | 226 :: 128 :: b :: _ =>
      if ((128 <=? b) && (b <=? 138)) || (b =? 168) || (b =? 169) || (b =? 175)
      then 3 else 0
  | 226 :: 129 :: 159 :: _ => 3
  | 227 :: 128 :: 128 :: _ => 3
  | b :: _ => if ((9 <=? b) && (b <=? 13)) || (b =? 32) then 1 else 0
  | [] => 0
  end.

(** The same for the rune that ends the list, given the list reversed. *)
Definition space_len_rev (l : list Z) : nat :=
  match l with
  | b :: 194 :: _ =>
      if (b =? 133) || (b =? 160) then 2
      else if ((9 <=? b) && (b <=? 13)) || (b =? 32) then 1 else 0
  | 128 :: 154 :: 225 :: _ => 3
  | 159 :: 129 :: 226 :: _ => 3
  | 128 :: 128 :: 227 :: _ => 3
  | b :: 128 :: 226 :: _ =>
      if ((128 <=? b) && (b <=? 138)) || (b =? 168) || (b =? 169) || (b =? 175)
      then 3
      else if ((9 <=? b) && (b <=? 13)) || (b =? 32) then 1 else 0
  | b :: _ => if ((9 <=? b) && (b <=? 13)) || (b =? 32) then 1 else 0
  | [] => 0
  end.

Fixpoint trim_go (len : list Z -> nat) (fuel : nat) (l : list ascii)
  : list ascii :=
  match fuel with
  | O => l
  | S fuel' =>
      match len (map code l) with
      | O => l
      | n => trim_go len fuel' (drop n l)
      end
  end.

Definition TrimSpace (s : string) : string :=
  let l := list_ascii_of_string s in
  let l1 := trim_go space_len (length l) l in
  let l2 := rev (trim_go space_len_rev (length l1) (rev l1)) in
  string_of_list_ascii l2.

End strings.


(** * Package time *)

Module time.

(** [time.Second] as a [Duration]: nanoseconds. *)
Definition Second : Z := 1000000000.

(** [time.Duration(seconds) * time.Second]: an [int64] product. *)
Definition seconds_to_Duration (seconds : Z) : Z := wrap64 (seconds * Second).

(** [t.Add(d)]. *)
Definition Add (t d : Z) : Z := t + d.

(** [t.After(u)]. *)
Definition After (t u : Z) : bool := u <? t.

(** [t.Sub(u)]: the difference as a [Duration], saturated at the ends of
    [int64]. *)
Definition Sub (t u : Z) : Z :=
  let d := t - u in
  if d <? minInt64 then minInt64
  else if maxInt64 <? d then maxInt64
  else d.

(** *** float64

    IEEE 754 binary64 as [spec_float] with precision 53 and [emax] 1024;
    every operation rounds to nearest, ties to even. *)
Definition prec : Z := 53.
Definition emax : Z := 1024.

(** [float64(i)] for an integer [i]. *)
Definition float64_of_int (i : Z) : spec_float :=
  binary_normalize prec emax i 0 false.

Definition fadd : spec_float -> spec_float -> spec_float := SFadd prec emax.
Definition fdiv : spec_float -> spec_float -> spec_float := SFdiv prec emax.

(** [x <= 0] on float64 (false for NaN). *)
Definition fle0 (x : spec_float) : bool := SFleb x (S754_zero false).

(** [int64(x)]: truncation toward zero.  Go leaves the result open when the
    value does not fit; the amd64 result is used for that case, which
    [Seconds] of a [Duration] never reaches. *)
Definition int64_of_float64 (x : spec_float) : Z :=
  match x with
  | S754_zero _ => 0
  | S754_finite s m e =>
      let a := if 0 <=? e then Z.pos m * 2 ^ e else Z.pos m / 2 ^ (- e) in
      let v := if s then - a else a in
      if (minInt64 <=? v) && (v <=? maxInt64) then v else minInt64
  | _ => minInt64
  end.

(** [d.Seconds()]:
    [sec := d / Second; nsec := d % Second;
     return float64(sec) + float64(nsec)/1e9]
    with Go's truncated division and remainder. *)
Definition Seconds (d : Z) : spec_float :=
  let sec := Z.quot d Second in
  let nsec := Z.rem d Second in
  fadd (float64_of_int sec) (fdiv (float64_of_int nsec) (float64_of_int 1000000000)).

End time.

(** * Package database *)

Module database.

Inductive ValueType : Type := StringType | HashType | ListType | SetType.

Global Instance ValueType_eq_dec : EqDecision ValueType.
Proof. solve_decision. Defined.

(** [type Value struct]; a nil map or slice is the empty one. *)
Record Value : Type := mkValue {
  Type_ : ValueType;
  StrVal : string;
  HashVal : gmap string string;
  ListVal : list string;
  SetVal : gset string;
  ExpireAt : option Z
}.

(** [&Value{Type: StringType, StrVal: value}] *)
Definition string_value (value : string) : Value :=
  mkValue StringType value ∅ [] ∅ None.

(** [&Value{Type: HashType, HashVal: make(map[string]string)}] *)
Definition hash_value : Value :=
  mkValue HashType EmptyString ∅ [] ∅ None.

(** [type Database struct]: the two maps (the mutex and the shutdown
    channel carry no data). *)
Record Database : Type := mkDatabase {
  data : gmap string Value;
  expiry : gmap string Z
}.

Definition NewDatabase : Database := mkDatabase ∅ ∅.

(** [delete(db.data, key); delete(db.expiry, key)] *)
Definition purge (db : Database) (key : string) : Database :=
  mkDatabase (delete key (data db)) (delete key (expiry db)).

Definition isExpired (db : Database) (now : Z) (key : string) : bool :=
  match expiry db !! key with
  | None => false
  | Some e => time.After now e
  end.

Definition Set_ (db : Database) (key value : string) : Database :=
  mkDatabase (<[key := string_value value]> (data db))
             (delete key (expiry db)).

(** [(string, bool)] is an [option string]. *)
Definition Get (db : Database) (now : Z) (key : string)
  : Database * option string :=
  if isExpired db now key then (purge db key, None)
  else
    match data db !! key with
    | Some val =>
        if decide (Type_ val = StringType) then (db, Some (StrVal val))
        else (db, None)
    | None => (db, None)
    end.

Definition Del (db : Database) (key : string) : Database * bool :=
  match data db !! key with
  | Some _ => (purge db key, true)
  | None => (db, false)
  end.

Definition Exists (db : Database) (now : Z) (key : string)
  : Database * bool :=
  if isExpired db now key then (purge db key, false)
  else (db, bool_decide (is_Some (data db !! key))).

Definition Expire (db : Database) (now : Z) (key : string) (seconds : Z)
  : Database * bool :=
  match data db !! key with
  | None => (db, false)
  | Some _ =>
      (mkDatabase (data db)
         (<[key := time.Add now (time.seconds_to_Duration seconds)]> (expiry db)),
       true)
  end.

Definition TTL (db : Database) (now : Z) (key : string) : Database * Z :=
  match data db !! key with
  | None => (db, -2)
  | Some _ =>
      match expiry db !! key with
      | None => (db, -1)
      | Some e =>
          let remaining := time.Seconds (time.Sub e now) in
          if time.fle0 remaining then (purge db key, -2)
          else (db, time.int64_of_float64 remaining)
      end
  end.

(** [Keys]: Go ranges over [db.data] in an unspecified order; [order] is
    that order, a listing of the keys of [db.data]. *)
Definition Keys_in (order : list string) (db : Database) (now : Z)
  : list string :=
  filter (fun key => isExpired db now key = false) order.

(** One admissible order. *)
Definition Keys (db : Database) (now : Z) : list string :=
  Keys_in (map fst (map_to_list (data db))) db now.

(** The orders Go may use: the keys of [db.data], each once. *)
Definition key_order (db : Database) (order : list string) : Prop :=
  order ≡ₚ map fst (map_to_list (data db)).

Definition cleanupExpired (db : Database) (now : Z) : Database :=
  let expiredKeys :=
    map fst (filter (fun kv => time.After now (snd kv) = true)
                    (map_to_list (expiry db))) in
  foldl purge db expiredKeys.

Definition HSet (db : Database) (key field value : string) : Database :=
  let val :=
    match data db !! key with
    | None => hash_value
    | Some val =>
        if decide (Type_ val = HashType) then val
        else mkValue HashType (StrVal val) ∅ (ListVal val) (SetVal val)
                     (ExpireAt val)
    end in
  mkDatabase
    (<[key := mkValue (Type_ val) (StrVal val) (<[field := value]> (HashVal val))
                      (ListVal val) (SetVal val) (ExpireAt val)]> (data db))
    (expiry db).

Definition HGet (db : Database) (now : Z) (key field : string)
  : option string :=
  if isExpired db now key then None
  else
    match data db !! key with
    | Some val =>
        if decide (Type_ val = HashType) then HashVal val !! field else None
    | None => None
    end.

Definition HDel (db : Database) (key field : string) : Database * bool :=
  match data db !! key with
  | Some val =>
      if decide (Type_ val = HashType) then
        match HashVal val !! field with
        | Some _ =>
            (mkDatabase
               (<[key := mkValue (Type_ val) (StrVal val)
                                 (delete field (HashVal val))
                                 (ListVal val) (SetVal val) (ExpireAt val)]>
                  (data db))
               (expiry db),
             true)
        | None => (db, false)
        end
      else (db, false)
  | None => (db, false)
  end.

End database.


(** * Package protocol *)

Module protocol.

Inductive RESPType : Type := SimpleString | Error | Integer | BulkString | Array.

Global Instance RESPType_eq_dec : EqDecision RESPType.
Proof. solve_decision. Defined.

(** [type RESPValue struct { Type; Str; Num; Array; Null }] *)
#[warnings="-register-all"] Inductive RESPValue : Type :=
  mkRESP (Type_ : RESPType) (Str : string) (Num : Z)
         (Array_ : list RESPValue) (Null : bool).

Definition Type_ (v : RESPValue) : RESPType :=
  let '(mkRESP t _ _ _ _) := v in t.
Definition Str (v : RESPValue) : string :=
  let '(mkRESP _ s _ _ _) := v in s.
Definition Num (v : RESPValue) : Z :=
  let '(mkRESP _ _ n _ _) := v in n.
Definition Array_ (v : RESPValue) : list RESPValue :=
  let '(mkRESP _ _ _ a _) := v in a.
Definition Null (v : RESPValue) : bool :=
  let '(mkRESP _ _ _ _ b) := v in b.

(** The struct literals of the handlers; the fields left out are zero. *)
Definition simple (s : string) : RESPValue := mkRESP SimpleString s 0 [] false.
Definition error (s : string) : RESPValue := mkRESP Error s 0 [] false.
Definition integer (n : Z) : RESPValue := mkRESP Integer EmptyString n [] false.
Definition bulk (s : string) : RESPValue := mkRESP BulkString s 0 [] false.
Definition null_bulk : RESPValue := mkRESP BulkString EmptyString 0 [] true.
Definition array (l : list RESPValue) : RESPValue := mkRESP Array EmptyString 0 l false.

End protocol.

(** * Package persistence *)

Module persistence.

(** A value stored in a [map[string]interface{}] of the snapshot: the code
    stores strings and [int64]s. *)
Inductive gob_value : Type :=
| GobString (s : string)
| GobInt64 (i : Z).

(** The two values [SaveRDB] encodes into dump.rdb, in order.  The gob
    byte format is not modelled: decoding returns what was encoded. *)
Record Snapshot : Type := mkSnapshot {
  metadata : gmap string gob_value;
  snapshot_data : gmap string gob_value
}.

(** The two files of the working directory; [None] is a missing file. *)
Record Disk : Type := mkDisk {
  dump_rdb : option Snapshot;
  appendonly_aof : option string
}.

Definition empty_disk : Disk := mkDisk None None.

(** [type Manager struct]: the flags.  The database pointer is passed to
    each call; the file handle and its writer are the [Disk]. *)
Record Manager : Type := mkManager {
  aofEnabled : bool;
  rdbEnabled : bool
}.

Inductive file_error : Type := ErrNotExist | ErrTooLong.

Definition ttl_suffix : string := "__ttl__".

(** The body of the loop of [SaveRDB] for one key. *)
Definition save_key (now : Z) (acc : database.Database * gmap string gob_value)
           (key : string) : database.Database * gmap string gob_value :=
  let '(db, data) := acc in
  let '(db1, got) := database.Get db now key in
  let data1 :=
    match got with
    | Some val => <[key := GobString val]> data
    | None => data
    end in
  let '(db2, ttl) := database.TTL db1 now key in
  let data2 :=
    if 0 <? ttl then <[key +:+ ttl_suffix := GobInt64 ttl]> data1 else data1 in
  (db2, data2).

(** [SaveRDB], with the order in which [Keys] listed the keys.  Creating
    and writing the file are taken to succeed. *)
Definition SaveRDB_in (order : list string) (m : Manager)
           (db : database.Database) (disk : Disk) (now : Z)
  : database.Database * Disk :=
  if negb (rdbEnabled m) then (db, disk)
  else
    let meta : gmap string gob_value :=
      <["version" := GobString "1.0"]>
        (<["timestamp" := GobInt64 (now / time.Second)]> ∅) in
    let keys := database.Keys_in order db now in
    let '(db', data) := foldl (save_key now) (db, ∅) keys in
    (db', mkDisk (Some (mkSnapshot meta data)) (appendonly_aof disk)).

Definition SaveRDB (m : Manager) (db : database.Database) (disk : Disk)
           (now : Z) : database.Database * Disk :=
  SaveRDB_in (map fst (map_to_list (database.data db))) m db disk now.

(** The body of the loop of [LoadRDB] for one entry of the decoded map,
    which Go ranges over in an unspecified order ([map_fold]). *)
Definition load_entry (db : database.Database) (kv : string * gob_value)
  : database.Database :=
  match snd kv with
  | GobString strVal => database.Set_ db (fst kv) strVal
  | GobInt64 _ => db
  end.

Definition LoadRDB (m : Manager) (disk : Disk) (db : database.Database)
  : database.Database * option file_error :=
  if negb (rdbEnabled m) then (db, None)
  else
    match dump_rdb disk with
    | None => (db, Some ErrNotExist)
    | Some snap =>
        (map_fold (fun key value acc => load_entry acc (key, value)) db
                  (snapshot_data snap),
         None)
    end.

(** [WriteAOF]: the file is created on the first write and appended to;
    opening and writing are taken to succeed. *)
Definition WriteAOF (m : Manager) (disk : Disk) (command : string) : Disk :=
  if negb (aofEnabled m) then disk
  else
    let old := default EmptyString (appendonly_aof disk) in
    mkDisk (dump_rdb disk) (Some (old +:+ command +:+ String LF EmptyString)).

(** [bufio.Scanner] with [ScanLines]: lines end at a line feed, one
    trailing carriage return is dropped, a last line without line feed
    counts when it is not empty, and a line of [MaxScanTokenSize] bytes or
    more stops the scan with [ErrTooLong]. *)
Definition MaxScanTokenSize : Z := 65536.

Definition dropCR (rev_line : list ascii) : string :=
  match rev_line with
  | c :: rest =>
      if Ascii.eqb c CR then string_of_list_ascii (rev rest)
      else string_of_list_ascii (rev rev_line)
  | [] => EmptyString
  end.

Fixpoint scan_lines (s : string) (rev_line : list ascii)
  : list string * option file_error :=
  match s with
  | EmptyString =>
      match rev_line with
      | [] => ([], None)
      | _ => ([dropCR rev_line], None)
      end
  | String c s' =>
      if Ascii.eqb c LF then
        let '(ls, e) := scan_lines s' [] in (dropCR rev_line :: ls, e)
      else if MaxScanTokenSize <=? Z.of_nat (S (length rev_line))
           then ([], Some ErrTooLong)
           else scan_lines s' (c :: rev_line)
  end.

(** [LoadAOF]: every line of the log is printed; the database is not
    touched.  The result is the database, what was printed and the error. *)
Definition LoadAOF (m : Manager) (disk : Disk) (db : database.Database)
  : database.Database * list string * option file_error :=
  if negb (aofEnabled m) then (db, [], None)
  else
    match appendonly_aof disk with
    | None => (db, [], Some ErrNotExist)
    | Some content =>
        let '(lines, e) := scan_lines content [] in
        (db,
         map (fun command => "Replaying command: " +:+ command +:+ String LF EmptyString)
             lines,
         e)
    end.

End persistence.

(** * Package server *)

Module server.

Import protocol.

(** [type Server struct]: the database, the persistence manager and, as the
    state behind the manager's file handles, the files. *)
Record Server : Type := mkServer {
  db : database.Database;
  persistence : persistence.Manager;
  disk : persistence.Disk
}.

(** [NewServer]: [AOFEnabled] and [RDBEnabled] are both true; [files] is
    what the working directory holds when the process starts. *)
Definition NewServer (files : persistence.Disk) : Server :=
  mkServer database.NewDatabase (persistence.mkManager true true) files.

Definition isWriteCommand (command : string) : bool :=
  existsb (String.eqb command)
          ["SET"; "DEL"; "EXPIRE"; "HSET"; "HDEL"; "INCR"; "DECR"]%string.

Definition wrong_args (name : string) : RESPValue :=
  error ("ERR wrong number of arguments for '" +:+ name +:+ "' command").

Definition not_an_integer : RESPValue :=
  error "ERR value is not an integer or out of range".

Definition handlePing (args : list string) : RESPValue :=
  match args with
  | [] => simple "PONG"
  | msg :: _ => bulk msg
  end.

Definition handleSet (d : database.Database) (args : list string)
  : database.Database * RESPValue :=
  match args with
  | key :: value :: _ => (database.Set_ d key value, simple "OK")
  | _ => (d, wrong_args "set")
  end.

Definition handleGet (d : database.Database) (now : Z) (args : list string)
  : database.Database * RESPValue :=
  match args with
  | [key] =>
      match database.Get d now key with
      | (d', Some value) => (d', bulk value)
      | (d', None) => (d', null_bulk)
      end
  | _ => (d, wrong_args "get")
  end.

(** The counting loops of DEL, EXISTS and HDEL. *)
Definition count_loop (step : database.Database -> string -> database.Database * bool)
           (d : database.Database) (keys : list string)
  : database.Database * Z :=
  foldl (fun acc key =>
           let '(d', hit) := step (fst acc) key in
           (d', if hit then snd acc + 1 else snd acc))
        (d, 0) keys.

Definition handleDel (d : database.Database) (args : list string)
  : database.Database * RESPValue :=
  match args with
  | [] => (d, wrong_args "del")
  | _ =>
      let '(d', deleted) := count_loop database.Del d args in
      (d', integer deleted)
  end.

Definition handleExists (d : database.Database) (now : Z) (args : list string)
  : database.Database * RESPValue :=
  match args with
  | [] => (d, wrong_args "exists")
  | _ =>
      let '(d', count) :=
        count_loop (fun d key => database.Exists d now key) d args in
      (d', integer count)
  end.

Definition handleExpire (d : database.Database) (now : Z) (args : list string)
  : database.Database * RESPValue :=
  match args with
  | [key; secs] =>
      match strconv.Atoi secs with
      | Err _ => (d, not_an_integer)
      | Ok seconds =>
          match database.Expire d now key seconds with
          | (d', true) => (d', integer 1)
          | (d', false) => (d', integer 0)
          end
      end
  | _ => (d, wrong_args "expire")
  end.

Definition handleTTL (d : database.Database) (now : Z) (args : list string)
  : database.Database * RESPValue :=
  match args with
  | [key] =>
      let '(d', ttl) := database.TTL d now key in (d', integer ttl)
  | _ => (d, wrong_args "ttl")
  end.

Definition handleKeys (d : database.Database) (now : Z) (args : list string)
  : RESPValue :=
  array (map bulk (database.Keys d now)).

Definition handleHSet (d : database.Database) (args : list string)
  : database.Database * RESPValue :=
  match args with
  | [key; field; value] => (database.HSet d key field value, integer 1)
  | _ => (d, wrong_args "hset")
  end.

Definition handleHGet (d : database.Database) (now : Z) (args : list string)
  : RESPValue :=
  match args with
  | [key; field] =>
      match database.HGet d now key field with
      | Some value => bulk value
      | None => null_bulk
      end
  | _ => wrong_args "hget"
  end.

Definition handleHDel (d : database.Database) (args : list string)
  : database.Database * RESPValue :=
  match args with
  | key :: field :: fields =>
      let '(d', deleted) :=
        count_loop (fun d field => database.HDel d key field) d
                   (field :: fields) in
      (d', integer deleted)
  | _ => (d, wrong_args "hdel")
  end.

(** The common part of INCR and DECR: [delta] is 1 or -1, the sum is an
    [int64] sum. *)
Definition add_and_store (d : database.Database) (key : string)
           (intValue delta : Z) : database.Database * RESPValue :=
  let intValue' := wrap64 (intValue + delta) in
  (database.Set_ d key (strconv.FormatInt intValue'), integer intValue').

Definition handleIncr (d : database.Database) (now : Z) (args : list string)
  : database.Database * RESPValue :=
  match args with
  | [key] =>
      match database.Get d now key with
      | (d', Some value) =>
          match strconv.ParseInt value with
          | Err _ => (d', not_an_integer)
          | Ok num => add_and_store d' key num 1
          end
      | (d', None) => add_and_store d' key 0 1
      end
  | _ => (d, wrong_args "incr")
  end.

Definition handleDecr (d : database.Database) (now : Z) (args : list string)
  : database.Database * RESPValue :=
  match args with
  | [key] =>
      match database.Get d now key with
      | (d', Some value) =>
          match strconv.ParseInt value with
          | Err _ => (d', not_an_integer)
          | Ok num => add_and_store d' key num (-1)
          end
      | (d', None) => add_and_store d' key 0 (-1)
      end
  | _ => (d, wrong_args "decr")
  end.

(** The [switch] of [executeCommand]. *)
Definition dispatch (command : string) (d : database.Database) (now : Z)
           (args : list string) : database.Database * RESPValue :=
  if String.eqb command "PING" then (d, handlePing args)
  else if String.eqb command "SET" then handleSet d args
  else if String.eqb command "GET" then handleGet d now args
  else if String.eqb command "DEL" then handleDel d args
  else if String.eqb command "EXISTS" then handleExists d now args
  else if String.eqb command "EXPIRE" then handleExpire d now args
  else if String.eqb command "TTL" then handleTTL d now args
  else if String.eqb command "KEYS" then (d, handleKeys d now args)
  else if String.eqb command "HSET" then handleHSet d args
  else if String.eqb command "HGET" then (d, handleHGet d now args)
  else if String.eqb command "HDEL" then handleHDel d args
  else if String.eqb command "INCR" then handleIncr d now args
  else if String.eqb command "DECR" then handleDecr d now args
  else (d, error ("ERR unknown command '" +:+ command +:+ "'")).

(** The text logged for a write command: the verb, then every argument after
    one space. *)
Definition cmdStr (command : string) (args : list string) : string :=
  foldl (fun acc arg => acc +:+ " " +:+ arg) command args.

Definition executeCommand (s : Server) (now : Z) (cmd : RESPValue)
  : Server * RESPValue :=
  match Type_ cmd, Array_ cmd with
  | Array, verb :: rest =>
      let command := strings.ToUpper (Str verb) in
      let args := map Str rest in
      let disk1 :=
        if isWriteCommand command
        then persistence.WriteAOF (persistence s) (disk s) (cmdStr command args)
        else disk s in
      let '(d', response) := dispatch command (db s) now args in
      (mkServer d' (persistence s) disk1, response)
  | _, _ => (s, error "ERR invalid command format")
  end.


(** The request [handleConnection] builds from the strings it read. *)
Definition request (cmd : list string) : RESPValue := array (map bulk cmd).

(** ** The connection loop

    A connection is the bytes the client sends before it closes its side:
    the [Reader] holds the bytes not read yet, and reading at the end fails
    with [EOF].  The read deadline is not modelled. *)

Definition Reader : Type := string.

(** The errors of the readers; [w] is the error wrapped by [%w]. *)
Inductive read_error : Type :=
| EOF
| ErrUnexpectedEOF
| NumError (e : strconv.NumError)
| ExpectedArrayType (got : ascii)
| ExpectedBulkType (got : ascii)
| FailedArrayLength (w : read_error)
| InvalidArrayLength (lengthStr : string) (w : read_error)
| FailedBulkString (i : Z) (w : read_error)
| FailedBulkLength (w : read_error)
| InvalidBulkLength (lengthStr : string) (w : read_error)
| FailedEmptyTerminator (w : read_error)
| FailedBulkData (w : read_error)
| FailedBulkTerminator (w : read_error).

Global Instance read_error_eq_dec : EqDecision read_error.
Proof. solve_decision. Defined.

(** What a read leaves: a value and the unread bytes, an error and the
    unread bytes, or a run-time panic ([make] with a length out of range),
    which ends the process. *)
Inductive read (A : Type) : Type :=
| Read (a : A) (rest : Reader)
| Fail (e : read_error) (rest : Reader)
| Panic.
Arguments Read {A} a rest.
Arguments Fail {A} e rest.
Arguments Panic {A}.

Definition ReadByte (r : Reader) : read ascii :=
  match r with
  | EmptyString => Fail EOF EmptyString
  | String c r' => Read c r'
  end.

(** [reader.ReadString('\n')]: the bytes up to and with the first line feed,
    or [None] (all bytes consumed, [EOF]) when there is none. *)
Fixpoint ReadString (r : Reader) : option (string * Reader) :=
  match r with
  | EmptyString => None
  | String c r' =>
      if Ascii.eqb c LF then Some (String c EmptyString, r')
      else
        match ReadString r' with
        | Some (line, rest) => Some (String c line, rest)
        | None => None
        end
  end.

(** [io.ReadFull] into a buffer of [n] bytes: [None] when fewer are left
    (all bytes consumed). *)
Fixpoint ReadFull (n : Z) (r : Reader) : option (string * Reader) :=
  if n <=? 0 then Some (EmptyString, r)
  else
    match r with
    | EmptyString => None
    | String c r' =>
        match ReadFull (n - 1) r' with
        | Some (data, rest) => Some (String c data, rest)
        | None => None
        end
    end.

(** [makeslice] panics when the length is negative or the size exceeds
    [maxAlloc] (2^48 bytes on linux/amd64). *)
Definition maxAlloc : Z := 2 ^ 48.

Definition readBulkString (r : Reader) : read string :=
  match ReadByte r with
  | Fail e rest => Fail e rest
  | Panic => Panic
  | Read typeByte r1 =>
      if negb (Ascii.eqb typeByte "$")
      then Fail (ExpectedBulkType typeByte) r1
      else
        match ReadString r1 with
        | None => Fail (FailedBulkLength EOF) EmptyString
        | Some (lengthLine, r2) =>
            let lengthStr := strings.TrimSpace lengthLine in
            match strconv.Atoi lengthStr with
            | Err e => Fail (InvalidBulkLength lengthStr (NumError e)) r2
            | Ok length =>
                if length =? -1 then Read EmptyString r2
                else if length =? 0 then
                  match ReadString r2 with
                  | None => Fail (FailedEmptyTerminator EOF) EmptyString
                  | Some (_, r3) => Read EmptyString r3
                  end
                else if (length <? 0) || (maxAlloc <? length) then Panic
                else
                  match ReadFull length r2 with
                  | None =>
                      Fail (FailedBulkData
                              (match r2 with
                               | EmptyString => EOF
                               | _ => ErrUnexpectedEOF
                               end))
                           EmptyString
                  | Some (data, r3) =>
                      match ReadString r3 with
                      | None => Fail (FailedBulkTerminator EOF) EmptyString
                      | Some (_, r4) => Read data r4
                      end
                  end
            end
        end
  end.

(** The loop [for i := 0; i < length; i++] of [readRESPArray].  Every bulk
    string read takes at least one byte, so [fuel] above the number of
    unread bytes is never used up. *)
Fixpoint read_bulks (fuel : nat) (i length : Z) (r : Reader)
  : read (list string) :=
  if length <=? i then Read [] r
  else
    match fuel with
    | O => Fail (FailedBulkString i EOF) r
    | S fuel' =>
        match readBulkString r with
        | Fail e rest => Fail (FailedBulkString i e) rest
        | Panic => Panic
        | Read bulkString r' =>
            match read_bulks fuel' (i + 1) length r' with
            | Read result rest => Read (bulkString :: result) rest
            | other => other
            end
        end
    end.

Definition readRESPArray (r : Reader) : read (list string) :=
  match ReadByte r with
  | Fail e rest => Fail e rest
  | Panic => Panic
  | Read typeByte r1 =>
      if negb (Ascii.eqb typeByte "*")
      then Fail (ExpectedArrayType typeByte) r1
      else
        match ReadString r1 with
        | None => Fail (FailedArrayLength EOF) EmptyString
        | Some (lengthLine, r2) =>
            let lengthStr := strings.TrimSpace lengthLine in
            match strconv.Atoi lengthStr with
            | Err e => Fail (InvalidArrayLength lengthStr (NumError e)) r2
            | Ok length =>
                if length <=? 0 then Read [] r2
                else if maxAlloc <? 16 * length then Panic
                else read_bulks (S (String.length r2)) 0 length r2
            end
        end
  end.

(** What the loop writes to the client: a response, or the error reply
    [client.WriteError("ERR " + err.Error())] for a read error, whose text is
    kept as the error itself. *)
Inductive written : Type :=
| Response (v : RESPValue)
| ReadErrorReply (e : read_error).

(** How [handleConnection] ends: it returns, which runs the deferred
    [conn.Close()], or the process dies in a panic. *)
Inductive ending : Type := Closed | Crashed.

(** The loop of [handleConnection]; the [n]-th iteration runs at time
    [clock n].  An iteration that does not return takes at least one byte. *)
Fixpoint serve (fuel : nat) (s : Server) (clock : nat -> Z) (n : nat)
         (r : Reader) : Server * list written * ending :=
  match fuel with
  | O => (s, [], Closed)
  | S fuel' =>
      match readRESPArray r with
      | Fail EOF _ => (s, [], Closed)
      | Fail e rest =>
          let '(s', out, fin) := serve fuel' s clock (S n) rest in
          (s', ReadErrorReply e :: out, fin)
      | Panic => (s, [], Crashed)
      | Read [] rest =>
          let '(s', out, fin) := serve fuel' s clock (S n) rest in
          (s', Response (error "ERR empty command") :: out, fin)
      | Read cmd rest =>
          let '(s1, response) := executeCommand s (clock n) (request cmd) in
          let '(s', out, fin) := serve fuel' s1 clock (S n) rest in
          (s', Response response :: out, fin)
      end
  end.

Definition handleConnection (s : Server) (clock : nat -> Z) (r : Reader)
  : Server * list written * ending :=
  serve (S (String.length r)) s clock 0 r.

(** [Start], up to the accept loop: the snapshot is loaded, then the log. *)
Definition recover (s : Server) : Server :=
  let '(d1, _) := persistence.LoadRDB (persistence s) (disk s) (db s) in
  let '(d2, _, _) := persistence.LoadAOF (persistence s) (disk s) d1 in
  mkServer d2 (persistence s) (disk s).

End server.



(** * Scenarios

    The concrete states and inputs the statements below are evaluated at. *)

Import database protocol persistence server.

Definition crlf : string := String CR (String LF EmptyString).
Definition lf : string := String LF EmptyString.

Definition db_text : Database :=
  mkDatabase {["k"%string := string_value "abc"]} ∅.

(** A counter with a TTL: the key [n] holds 41 and expires at second 60. *)
Definition db_counter : Database :=
  mkDatabase {["n"%string := string_value "41"]}
             {["n"%string := 60 * time.Second]}.

Definition db_max : Database :=
  mkDatabase {["n"%string := string_value "9223372036854775807"]} ∅.
Definition db_min : Database :=
  mkDatabase {["n"%string := string_value "-9223372036854775808"]} ∅.

(** The key [k] holds [v] and expired at instant 5; the clock reads 7. *)
Definition db_stale : Database :=
  mkDatabase {["k"%string := string_value "v"]} {["k"%string := 5]}.

(** *** Sequences of requests

    [executeCommand_with ToUpper] is [executeCommand] with the library
    function that upper-cases the verb taken as a parameter: Go's
    [strings.ToUpper], Unicode tables included, is one such function, and
    [strings.ToUpper] of this file is another, equal to it on ASCII verbs.
    [run_with] executes the requests one after the other, each at its own
    time; [logged_with] is what a request adds to the log. *)
Definition executeCommand_with (ToUpper : string -> string)
           (s : Server) (now : Z) (cmd : RESPValue) : Server * RESPValue :=
  match protocol.Type_ cmd, Array_ cmd with
  | Array, verb :: rest =>
      let command := ToUpper (Str verb) in
      let args := map Str rest in
      let disk1 :=
        if isWriteCommand command
        then persistence.WriteAOF (persistence s) (disk s) (cmdStr command args)
        else disk s in
      let '(d', response) := dispatch command (db s) now args in
      (mkServer d' (persistence s) disk1, response)
  | _, _ => (s, error "ERR invalid command format")
  end.

Definition run_with (ToUpper : string -> string)
           (s : Server) (reqs : list (Z * RESPValue)) : Server :=
  foldl (fun s r => fst (executeCommand_with ToUpper s (fst r) (snd r))) s reqs.

Definition log_of (s : Server) : string :=
  default EmptyString (appendonly_aof (disk s)).

Definition logged_with (ToUpper : string -> string) (cmd : RESPValue)
  : string :=
  match protocol.Type_ cmd, Array_ cmd with
  | Array, verb :: rest =>
      let command := ToUpper (Str verb) in
      if isWriteCommand command
      then cmdStr command (map Str rest) +:+ lf
      else EmptyString
  | _, _ => EmptyString
  end.

Fixpoint concat_strings (l : list string) : string :=
  match l with
  | [] => EmptyString
  | x :: l' => x +:+ concat_strings l'
  end.

(** The state a live server reaches from nothing with SET a 1. *)
Definition live_after_set : Server :=
  fst (executeCommand (NewServer empty_disk) 0 (request ["SET"; "a"; "1"]%string)).

(** *** Reading a record back

    A decoder for log records: the fields between the spaces. *)
Fixpoint split_spaces (s : string) : list string :=
  match s with
  | EmptyString => [EmptyString]
  | String c s' =>
      if Ascii.eqb c " " then EmptyString :: split_spaces s'
      else
        match split_spaces s' with
        | w :: ws => String c w :: ws
        | [] => [String c EmptyString]
        end
  end.

Fixpoint no_space (s : string) : bool :=
  match s with
  | EmptyString => true
  | String c s' => negb (Ascii.eqb c " ") && no_space s'
  end.

(** *** A byte stream with a bad type byte before a PING *)
Definition ping_frame : string :=
  "*1" +:+ crlf +:+ "$4" +:+ crlf +:+ "PING" +:+ crlf.

Definition bad_byte_then_ping : string := "X" +:+ ping_frame.

(** A read that does not stop at the end of the stream takes a byte. *)
Definition took_byte {A : Type} (r : Reader) (res : read A) : Prop :=
  match res with
  | Read _ rest => (String.length rest < String.length r)%nat
  | Fail e rest =>
      (e = EOF /\ rest = EmptyString) \/
      (String.length rest < String.length r)%nat
  | Panic => True
  end.

(** *** Snapshot and restart

    [snapshot_then_restart]: the server writes a snapshot, listing its keys in
    [order]; a new process starts on the files and recovers. *)
Definition snapshot_then_restart (order : list string) (s : Server) (now : Z)
  : Server :=
  let '(_, files) :=
    SaveRDB_in order (persistence s) (db s) (disk s) now in
  recover (NewServer files).

(** The string of a snapshot entry, when it is one. *)
Definition gob_string (o : option gob_value) : option string :=
  match o with
  | Some (GobString s) => Some s
  | _ => None
  end.

(** No key is another key followed by the TTL suffix. *)
Definition no_ttl_name_clash (d : Database) : Prop :=
  forall k, is_Some (data d !! k) -> data d !! (k +:+ ttl_suffix) = None.

(** A hash [h] and a string [s] that expires at second 100. *)
Definition db_mixed : Database :=
  mkDatabase
    (<["h"%string := mkValue HashType EmptyString {["f"%string := "v"%string]} [] ∅ None]>
       {["s"%string := string_value "v"]})
    {["s"%string := 100 * time.Second]}.

Definition server_mixed : Server :=
  mkServer db_mixed (mkManager true true) empty_disk.

Definition order_mixed : list string := ["h"; "s"]%string.

(** *** Finite floats on the grid 2^-83

    [repr f s v]: [f] is the finite float of sign [s] and magnitude
    [v * 2^-83], with a mantissa of 53 digits. *)
Definition repr (f : spec_float) (s : bool) (v : Z) : Prop :=
  exists m e, f = S754_finite s m e /\ Z.pos (digits2_pos m) = 53 /\
              -83 <= e /\ Z.pos m * 2 ^ (e + 83) = v.

(** The mantissa of 1e9 as a float64: 1e9 = [m1e9] * 2^-23. *)
Definition m1e9 : positive := 8388608000000000.

(** *** TTL scenarios: the key [k] holds [v]; 9.9 seconds are left. *)
Definition db_plain : Database :=
  mkDatabase {["k"%string := string_value "v"]} ∅.

Definition db_9_9 : Database :=
  mkDatabase {["k"%string := string_value "v"]} {["k"%string := 9900000000]}.

(** 2^24 seconds and 999999999 nanoseconds are left. *)
Definition db_far : Database :=
  mkDatabase {["k"%string := string_value "v"]}
             {["k"%string := 16777216999999999]}.


(** *** The two tables

    Every key of the expiry index has a value. *)
Definition expiry_within_data (d : Database) : Prop :=
  forall k, is_Some (expiry d !! k) -> is_Some (data d !! k).

(** *** Package protocol: the bytes of a value

    [Serialize]; [%d] prints an integer as [FormatInt] does, and [len] is the
    number of bytes.  The [default] branch of the source answers for a type
    byte that is none of the five constants, which [RESPType] here excludes. *)
Fixpoint Serialize (value : RESPValue) : string :=
  match value with
  | mkRESP SimpleString str _ _ _ => "+" +:+ str +:+ crlf
  | mkRESP Error str _ _ _ => "-" +:+ str +:+ crlf
  | mkRESP Integer _ num _ _ => ":" +:+ strconv.FormatInt num +:+ crlf
  | mkRESP BulkString str _ _ null =>
      if null then "$-1" +:+ crlf
      else "$" +:+ strconv.FormatInt (Z.of_nat (String.length str)) +:+ crlf
               +:+ str +:+ crlf
  | mkRESP Array _ _ items _ =>
      foldl (fun result item => result +:+ Serialize item)
            ("*" +:+ strconv.FormatInt (Z.of_nat (length items)) +:+ crlf)
            items
  end.

(** *** A client that sends whole requests

    [frames]: the bytes of the requests, one after the other.  [replies]: the
    requests executed in order, the [n]-th at time [clock n], with what is
    written back for each. *)
Definition frames (cmds : list (list string)) : string :=
  concat_strings (map (fun cmd => Serialize (request cmd)) cmds).

Fixpoint replies (s : Server) (clock : nat -> Z) (n : nat)
         (cmds : list (list string)) : Server * list written :=
  match cmds with
  | [] => (s, [])
  | cmd :: cmds' =>
      let '(s1, response) := executeCommand s (clock n) (request cmd) in
      let '(s', out) := replies s1 clock (S n) cmds' in
      (s', Response response :: out)
  end.

(** The sizes [make] accepts: a slice of [n] strings takes 16 [n] bytes. *)
Definition sendable (cmd : list string) : Prop :=
  16 * Z.of_nat (length cmd) <= maxAlloc /\
  Forall (fun a => Z.of_nat (String.length a) <= maxAlloc) cmd.

(** Bytes that are printable ASCII: no white space, no byte of a multi-byte
    rune. *)
Definition printable (s : string) : Prop :=
  Forall (fun c => 33 <= code c <= 127) (list_ascii_of_string s).

(** A string whose first and last bytes are printable ASCII. *)
Definition printable_ends (s : string) : Prop :=
  (exists c, head (list_ascii_of_string s) = Some c /\ 33 <= code c <= 127) /\
  (exists c, last (list_ascii_of_string s) = Some c /\ 33 <= code c <= 127).

(** The start of a request that announces one bulk string of [n] bytes, and
    of one that announces [n] bulk strings. *)
Definition bulk_of_length (n : Z) : string :=
  "*1" +:+ crlf +:+ "$" +:+ strconv.FormatInt n +:+ crlf.

Definition array_of_length (n : Z) : string :=
  "*" +:+ strconv.FormatInt n +:+ crlf.

(** *** Records of the log that are one line

    A record that [bufio.Scanner] gives back as it was written: no line
    feed in it, no carriage return at its end, and shorter than the
    scanner's buffer. *)
Definition one_line (command : string) : Prop :=
  Forall (fun c => c <> LF) (list_ascii_of_string command) /\
  last (list_ascii_of_string command) <> Some CR /\
  Z.of_nat (String.length command) < MaxScanTokenSize.

(** * Package unicode/utf8

    The runes of a string as [for _, char := range input] yields them, and
    the bytes [strings.Builder.WriteRune] writes for a rune. *)

Module utf8.

Definition RuneError : Z := 65533.
Definition MaxRune : Z := 1114111.
Definition surrogateMin : Z := 55296.
Definition surrogateMax : Z := 57343.
Definition rune1Max : Z := 127.
Definition rune2Max : Z := 2047.
Definition rune3Max : Z := 65535.

Definition between (lo hi b : Z) : bool := (lo <=? b) && (b <=? hi).

(** [locb] and [hicb]: the bytes that continue a rune. *)
Definition continues (b : Z) : bool := between 128 191 b.

(** The table [first] with [acceptRanges]: the number of bytes of the rune
    that starts with [s0] (0 when no rune starts with it) and the range its
    second byte must be in. *)
Definition first (s0 : Z) : nat * (Z * Z) :=
  if between 194 223 s0 then (2%nat, (128, 191))
  else if s0 =? 224 then (3%nat, (160, 191))
  else if between 225 236 s0 then (3%nat, (128, 191))
  else if s0 =? 237 then (3%nat, (128, 159))
  else if between 238 239 s0 then (3%nat, (128, 191))
  else if s0 =? 240 then (4%nat, (144, 191))
  else if between 241 243 s0 then (4%nat, (128, 191))
  else if s0 =? 244 then (4%nat, (128, 143))
  else (0%nat, (0, 0)).

(** [DecodeRuneInString] on a string that is not empty, [s0] being its
    first byte and [s] the bytes after it: the rune and its width.  A byte
    below 128 is its own rune; bytes that are no valid encoding give
    [RuneError] with width 1. *)
Definition DecodeRune (s0 : Z) (s : list Z) : Z * nat :=
  if s0 <? 128 then (s0, 1%nat)
  else
    let '(sz, (lo, hi)) := first s0 in
    match sz, s with
    | 2%nat, s1 :: _ =>
        if between lo hi s1
        then (Z.lor (Z.shiftl (Z.land s0 31) 6) (Z.land s1 63), 2%nat)
        else (RuneError, 1%nat)
    | 3%nat, s1 :: s2 :: _ =>
        if between lo hi s1 && continues s2
        then (Z.lor (Z.lor (Z.shiftl (Z.land s0 15) 12)
                           (Z.shiftl (Z.land s1 63) 6))
                    (Z.land s2 63), 3%nat)
        else (RuneError, 1%nat)
    | 4%nat, s1 :: s2 :: s3 :: _ =>
        if between lo hi s1 && continues s2 && continues s3
        then (Z.lor (Z.lor (Z.lor (Z.shiftl (Z.land s0 7) 18)
                                  (Z.shiftl (Z.land s1 63) 12))
                           (Z.shiftl (Z.land s2 63) 6))
                    (Z.land s3 63), 4%nat)
        else (RuneError, 1%nat)
    | _, _ => (RuneError, 1%nat)
    end.

(** The runes of the bytes [l], the first [skip] of which belong to the
    rune before. *)
Fixpoint runes_from (skip : nat) (l : list Z) : list Z :=
  match l with
  | [] => []
  | s0 :: s =>
      match skip with
      | S skip' => runes_from skip' s
      | O => let '(r, size) := DecodeRune s0 s in r :: runes_from (size - 1) s
      end
  end.

(** What [range] over the string yields. *)
Definition runes (s : string) : list Z :=
  runes_from 0 (map code (list_ascii_of_string s)).

(** The conversion [byte(x)]. *)
Definition byte_of (x : Z) : ascii := ascii_of_N (Z.to_N (x mod 256)).

(** [AppendRune], which [WriteRune] calls, for a rune [r] of type int32:
    a rune that is negative, above [MaxRune] or a surrogate is written as
    [RuneError]. *)
Definition EncodeRune (r : Z) : string :=
  if between 0 rune1Max r then String (byte_of r) EmptyString
  else if between 0 rune2Max r then
    String (byte_of (Z.lor 192 (Z.shiftr r 6 mod 256)))
      (String (byte_of (Z.lor 128 (Z.land (r mod 256) 63))) EmptyString)
  else
    let r := if (r <? 0) || (MaxRune <? r) || between surrogateMin surrogateMax r
             then RuneError else r in
    if r <=? rune3Max then
      String (byte_of (Z.lor 224 (Z.shiftr r 12 mod 256)))
        (String (byte_of (Z.lor 128 (Z.land (Z.shiftr r 6 mod 256) 63)))
           (String (byte_of (Z.lor 128 (Z.land (r mod 256) 63))) EmptyString))
    else
      String (byte_of (Z.lor 240 (Z.shiftr r 18 mod 256)))
        (String (byte_of (Z.lor 128 (Z.land (Z.shiftr r 12 mod 256) 63)))
           (String (byte_of (Z.lor 128 (Z.land (Z.shiftr r 6 mod 256) 63)))
              (String (byte_of (Z.lor 128 (Z.land (r mod 256) 63)))
                 EmptyString))).

End utf8.

(** The string rewritten rune by rune, as a [strings.Builder] holds it
    after [WriteRune] of every rune of the string: valid UTF-8 is written
    as it is read, and every byte that is no valid UTF-8 becomes the three
    bytes of U+FFFD. *)
Definition rewritten (input : string) : string :=
  concat_strings (map utf8.EncodeRune (utf8.runes input)).

(** * The command-line client (cmd/cli) *)

Module cli.

Definition backslash : ascii := byte 92.
Definition quote : ascii := byte 34.

(** The variables of the loop of [parseCommandLine]; [current] is the
    [strings.Builder]. *)
Record state : Type := mkState {
  parts : list string;
  current : string;
  inQuotes : bool;
  escaped : bool
}.

(** One iteration of [for i, char := range input], [char] being a rune.
    The loop that skips spaces assigns to [i], which [range] sets again
    before the next iteration, so it has no effect. *)
Definition step (st : state) (char : Z) : state :=
  if escaped st then
    mkState (parts st) (current st +:+ utf8.EncodeRune char)
            (inQuotes st) false
  else if char =? code backslash then
    mkState (parts st) (current st) (inQuotes st) true
  else if char =? code quote then
    mkState (parts st) (current st) (negb (inQuotes st)) false
  else if (char =? code " ") && negb (inQuotes st) then
    match current st with
    | EmptyString => st
    | _ => mkState (parts st ++ [current st]) EmptyString (inQuotes st) false
    end
  else
    mkState (parts st) (current st +:+ utf8.EncodeRune char)
            (inQuotes st) false.

Fixpoint loop (input : list Z) (st : state) : state :=
  match input with
  | [] => st
  | char :: input' => loop input' (step st char)
  end.

Definition parseCommandLine (input : string) : list string :=
  let st := loop (utf8.runes input) (mkState [] EmptyString false false) in
  match current st with
  | EmptyString => parts st
  | _ => parts st ++ [current st]
  end.

Definition formatCommand (input : string) : string :=
  match parseCommandLine input with
  | [] => EmptyString
  | parts =>
      foldl (fun result part =>
               result +:+ "$"
                 +:+ strconv.FormatInt (Z.of_nat (String.length part))
                 +:+ crlf +:+ part +:+ crlf)
            ("*" +:+ strconv.FormatInt (Z.of_nat (length parts)) +:+ crlf)
            parts
  end.

(** [strings.TrimSuffix]. *)
Fixpoint TrimSuffix (s suffix : string) : string :=
  if String.eqb s suffix then EmptyString
  else
    match s with
    | EmptyString => EmptyString
    | String c s' => String c (TrimSuffix s' suffix)
    end.

(** The errors of [readAndPrintResponse]; [w] is the error wrapped by
    [%w]. *)
Inductive print_error : Type :=
| FailedTypeByte
| FailedSimpleString
| FailedError
| FailedInteger
| FailedBulkLength
| InvalidBulkLength (lengthStr : string) (e : strconv.NumError)
| FailedBulkData
| FailedBulkTerminator
| FailedArrayCount
| InvalidArrayCount (countStr : string) (e : strconv.NumError)
| FailedArrayElement (i : Z) (w : print_error)
| UnknownType (typeByte : ascii).

(** How a call ends: it returns [nil] with the unread bytes, returns an
    error, or panics in [make]. *)
Inductive outcome : Type :=
| Done (rest : Reader)
| Failed (e : print_error)
| Panicked.

Definition line_out (label text : string) : string :=
  label +:+ text +:+ lf.

(** The loop [for i := 0; i < count; i++] over the elements of an array,
    [call] being [readAndPrintResponse] itself.  An element that is read
    takes at least its type byte, so [n] iterations are enough for the [n]
    unread bytes; with none left the next element fails at its type byte. *)
Fixpoint readElements (call : Reader -> string * outcome) (n : nat)
         (i count : Z) (reader : Reader) : string * outcome :=
  if count <=? i then (EmptyString, Done reader)
  else
    let index := "  [" +:+ strconv.FormatInt i +:+ "] " in
    match n with
    | O => (index, Failed (FailedArrayElement i FailedTypeByte))
    | S n' =>
        match call reader with
        | (out, Done reader') =>
            let '(out', res) := readElements call n' (i + 1) count reader' in
            (index +:+ out +:+ out', res)
        | (out, Failed e) => (index +:+ out, Failed (FailedArrayElement i e))
        | (out, Panicked) => (index +:+ out, Panicked)
        end
    end.

(** [readAndPrintResponse]: what is printed, and the outcome.  Each call
    reads the type byte first, so [fuel] above the number of unread bytes
    is never used up. *)
Fixpoint readAndPrintResponse (fuel : nat) (reader : Reader)
  : string * outcome :=
  match fuel with
  | O => (EmptyString, Failed FailedTypeByte)
  | S fuel' =>
      match reader with
      | EmptyString => (EmptyString, Failed FailedTypeByte)
      | String typeByte r1 =>
          if Ascii.eqb typeByte "+" then
            match ReadString r1 with
            | None => (EmptyString, Failed FailedSimpleString)
            | Some (line, r2) =>
                (line_out "OK: " (TrimSuffix line crlf), Done r2)
            end
          else if Ascii.eqb typeByte "-" then
            match ReadString r1 with
            | None => (EmptyString, Failed FailedError)
            | Some (line, r2) =>
                (line_out "(error) " (TrimSuffix line crlf), Done r2)
            end
          else if Ascii.eqb typeByte ":" then
            match ReadString r1 with
            | None => (EmptyString, Failed FailedInteger)
            | Some (line, r2) =>
                (line_out "(integer) " (TrimSuffix line crlf), Done r2)
            end
          else if Ascii.eqb typeByte "$" then
            match ReadString r1 with
            | None => (EmptyString, Failed FailedBulkLength)
            | Some (lengthLine, r2) =>
                let lengthStr := TrimSuffix lengthLine crlf in
                match strconv.Atoi lengthStr with
                | Err e => (EmptyString, Failed (InvalidBulkLength lengthStr e))
                | Ok length =>
                    if length =? -1 then (line_out "(nil)" EmptyString, Done r2)
                    else if (length <? 0) || (maxAlloc <? length)
                    then (EmptyString, Panicked)
                    else
                      match ReadFull length r2 with
                      | None => (EmptyString, Failed FailedBulkData)
                      | Some (data, r3) =>
                          match ReadString r3 with
                          | None => (EmptyString, Failed FailedBulkTerminator)
                          | Some (_, r4) =>
                              (String quote data +:+ String quote lf, Done r4)
                          end
                      end
                end
            end
          else if Ascii.eqb typeByte "*" then
            match ReadString r1 with
            | None => (EmptyString, Failed FailedArrayCount)
            | Some (countLine, r2) =>
                let countStr := TrimSuffix countLine crlf in
                match strconv.Atoi countStr with
                | Err e => (EmptyString, Failed (InvalidArrayCount countStr e))
                | Ok count =>
                    if count =? 0
                    then (line_out "(empty array)" EmptyString, Done r2)
                    else if count =? -1
                    then (line_out "(nil)" EmptyString, Done r2)
                    else
                      let '(out, res) :=
                        readElements (readAndPrintResponse fuel')
                                     (String.length r2) 0 count r2 in
                      ("Array with " +:+ strconv.FormatInt count
                         +:+ " elements:" +:+ lf +:+ out,
                       res)
                end
            end
          else (EmptyString, Failed (UnknownType typeByte))
      end
  end.

End cli.

(** What the client prints for the elements of an array of bulk strings,
    the first of them numbered [i]. *)
Fixpoint shown_elements (i : Z) (l : list string) : string :=
  match l with
  | [] => EmptyString
  | a :: l' =>
      "  [" +:+ strconv.FormatInt i +:+ "] "
        +:+ String cli.quote a +:+ String cli.quote lf
        +:+ shown_elements (i + 1) l'
  end.

(** The client reads the reply [v], followed by [rest], to its end and
    prints [out]. *)
Definition prints_as (fuel : nat) (rest : string) (v : RESPValue)
           (out : string) : Prop :=
  (String.length (Serialize v +:+ rest) < fuel)%nat ->
  cli.readAndPrintResponse fuel (Serialize v +:+ rest) = (out, cli.Done rest).

(** * Package protocol: the parser *)

Module parser.

(** [strings.Split(s, "\r\n")]: the pieces between the separators, one more
    than there are separators. *)
Definition cons_head (c : ascii) (l : list string) : list string :=
  match l with
  | w :: ws => String c w :: ws
  | [] => [String c EmptyString]
  end.

Fixpoint Split (s : string) : list string :=
  match s with
  | EmptyString => [EmptyString]
  | String c s' =>
      match s' with
      | String d s'' =>
          if Ascii.eqb c CR && Ascii.eqb d LF then EmptyString :: Split s''
          else cons_head c (Split s')
      | EmptyString => [String c EmptyString]
      end
  end.

(** What a parsing method returns: the value ([None] is [nil]) and the next
    index, unless [make] panics. *)
Inductive parsed : Type :=
| Parsed (value : option RESPValue) (index : nat)
| Panics.

(** [parseBulkString]; the length is read and, unless it is -1, not used. *)
Definition parseBulkString (lines : list string) (index : nat) (body : string)
  : parsed :=
  match strconv.Atoi body with
  | Err _ => Parsed None index
  | Ok length =>
      if length =? -1
      then Parsed (Some (mkRESP BulkString EmptyString 0 [] true)) (index + 1)
      else
        match lines !! (index + 1)%nat with
        | None => Parsed None index
        | Some str =>
            Parsed (Some (mkRESP BulkString str 0 [] false)) (index + 2)
        end
  end.

(** The loop of [parseArray], [call] being [parseValue] on the same lines.
    A value that is parsed takes at least one line, so [n] iterations are
    enough for [n] lines; with none left the next value is [nil]. *)
Fixpoint parseElements (call : nat -> parsed) (n : nat) (i count : Z)
         (currentIndex : nat) (array : list RESPValue) : parsed :=
  if count <=? i
  then Parsed (Some (mkRESP Array EmptyString 0 array false)) currentIndex
  else
    match n with
    | O => Parsed None currentIndex
    | S n' =>
        match call currentIndex with
        | Panics => Panics
        | Parsed None _ => Parsed None currentIndex
        | Parsed (Some value) nextIndex =>
            parseElements call n' (i + 1) count nextIndex (array ++ [value])
        end
    end.

(** [parseArray]; [make] panics on a negative count and on one whose
    pointers take more than [maxAlloc] bytes. *)
Definition parseArray (call : nat -> parsed) (lines : list string)
           (index : nat) (body : string) : parsed :=
  match strconv.Atoi body with
  | Err _ => Parsed None index
  | Ok count =>
      if (count <? 0) || (maxAlloc <? 8 * count) then Panics
      else parseElements call (length lines) 0 count (index + 1) []
  end.

(** [parseValue]; [body] is [line[1:]].  Nested arrays take one line each,
    so [fuel] above the number of lines is never used up. *)
Fixpoint parseValue (fuel : nat) (lines : list string) (index : nat)
  : parsed :=
  match fuel with
  | O => Parsed None index
  | S fuel' =>
      match lines !! index with
      | None => Parsed None index
      | Some EmptyString => Parsed None index
      | Some (String t body) =>
          if Ascii.eqb t "*"
          then parseArray (parseValue fuel' lines) lines index body
          else if Ascii.eqb t "$" then parseBulkString lines index body
          else if Ascii.eqb t "+"
          then Parsed (Some (mkRESP SimpleString body 0 [] false)) (index + 1)
          else if Ascii.eqb t "-"
          then Parsed (Some (mkRESP Error body 0 [] false)) (index + 1)
          else if Ascii.eqb t ":" then
            match strconv.ParseInt body with
            | Err _ => Parsed None index
            | Ok num =>
                Parsed (Some (mkRESP Integer EmptyString num [] false))
                       (index + 1)
            end
          else Parsed None index
      end
  end.

(** What [Parse] returns: the value and the error, unless it panics. *)
Inductive returned : Type :=
| Returns (value : option RESPValue) (err : option string)
| Panicked.

Definition Parse (input : string) : returned :=
  let lines := Split (strings.TrimSpace input) in
  match lines with
  | [] => Returns None (Some "empty input"%string)
  | _ =>
      match parseValue (S (length lines)) lines 0 with
      | Parsed value _ => Returns value None
      | Panics => Panicked
      end
  end.

End parser.

(** The lines of a request on the wire, and lines joined by line ends. *)
Definition request_lines (cmd : list string) : list string :=
  ("*" +:+ strconv.FormatInt (Z.of_nat (length cmd)))
    :: flat_map (fun a =>
                   ["$" +:+ strconv.FormatInt (Z.of_nat (String.length a)); a])
                cmd.

Fixpoint join_lines (lines : list string) : string :=
  match lines with
  | [] => EmptyString
  | line :: lines' =>
      match lines' with
      | [] => line
      | _ => line +:+ crlf +:+ join_lines lines'
      end
  end.

(** A string without line feed, and one that ends in printable ASCII. *)
Definition no_LF (s : string) : Prop :=
  Forall (fun c => c <> LF) (list_ascii_of_string s).

Definition ends_printable (s : string) : Prop :=
  exists c, last (list_ascii_of_string s) = Some c /\ 33 <= code c <= 127.

(** * The first server (main.go)

    The store maps keys to strings; the lock is not modelled.  A reply is
    the string [executeCommand] returns. *)

Module first.

Definition RedisStore : Type := gmap string string.

Definition NewRedisStore : RedisStore := ∅.

(** The loop of DEL: a key that is present is deleted and counted. *)
Definition del_loop (store : RedisStore) (args : list string)
  : RedisStore * Z :=
  foldl (fun acc key =>
           match fst acc !! key with
           | Some _ => (delete key (fst acc), snd acc + 1)
           | None => acc
           end)
        (store, 0) args.

(** The loop of EXISTS. *)
Definition exists_loop (store : RedisStore) (args : list string) : Z :=
  foldl (fun count key =>
           match store !! key with
           | Some _ => count + 1
           | None => count
           end)
        0 args.

Definition executeCommand (cmd : string) (args : list string)
           (store : RedisStore) : RedisStore * string :=
  if String.eqb cmd "PING" then (store, "PONG"%string)
  else if String.eqb cmd "SET" then
    match args with
    | key :: value :: _ => (<[key := value]> store, "OK"%string)
    | _ => (store, "ERR wrong number of arguments for SET command"%string)
    end
  else if String.eqb cmd "GET" then
    match args with
    | [key] =>
        match store !! key with
        | Some value => (store, value)
        | None => (store, "(nil)"%string)
        end
    | _ => (store, "ERR wrong number of arguments for GET command"%string)
    end
  else if String.eqb cmd "DEL" then
    match args with
    | [] => (store, "ERR wrong number of arguments for DEL command"%string)
    | _ =>
        let '(store', count) := del_loop store args in
        (store', strconv.FormatInt count)
    end
  else if String.eqb cmd "EXISTS" then
    match args with
    | [] => (store, "ERR wrong number of arguments for EXISTS command"%string)
    | _ => (store, strconv.FormatInt (exists_loop store args))
    end
  else (store, "ERR unknown command '" +:+ cmd +:+ "'").

End first.

(** *** What a client can see of a key

    [view d now k]: the entries of [k] in the two maps, or nothing when the
    key is expired at [now]; [same_view]: two databases that differ only in
    expired keys that are still stored. *)
Definition view (d : Database) (now : Z) (k : string)
  : option Value * option Z :=
  if isExpired d now k then (None, None) else (data d !! k, expiry d !! k).

Definition same_view (now : Z) (d1 d2 : Database) : Prop :=
  forall k, view d1 now k = view d2 now k.

(** The commands that do not tell an expired key from an absent one. *)
Definition lazy_commands : list string :=
  ["PING"; "SET"; "GET"; "EXISTS"; "TTL"; "HGET"; "INCR"; "DECR"]%string.

(** A record of 65536 bytes. *)
Definition long_record : string :=
  string_of_list_ascii (repeat "a"%char (Z.to_nat MaxScanTokenSize)).

(** *** Records written to the log and read back

    [record] is the text [executeCommand] hands to [WriteAOF] for a verb
    and its arguments; [write_records] appends the records of a list of
    commands; [decode_log] reads the file with the scanner of [LoadAOF] and
    splits every line at its spaces.  A command is [plain] when its verb is
    a write verb, none of its arguments holds a space, and its record is
    one line. *)
Definition record (command : string * list string) : string :=
  cmdStr (fst command) (snd command).

Definition write_records (m : Manager) (files : Disk)
           (commands : list (string * list string)) : Disk :=
  foldl (fun files command => WriteAOF m files (record command))
        files commands.

Definition decode_log (files : Disk)
  : list (list string) * option file_error :=
  let '(lines, e) :=
    scan_lines (default EmptyString (appendonly_aof files)) [] in
  (map split_spaces lines, e).

Definition plain (command : string * list string) : Prop :=
  isWriteCommand (fst command) = true /\
  Forall (fun a => no_space a = true) (snd command) /\
  one_line (record command).

(** *** Verbs of ASCII bytes

    The test [strings.ToUpper] makes before it takes its byte-wise path:
    no byte of the string is above 127. *)
Fixpoint isASCII (s : string) : bool :=
  match s with
  | EmptyString => true
  | String c s' => (code c <? 128) && isASCII s'
  end.

(** * Properties *)

(** Powers of two are positive. *)
Ltac pow2_pos := apply Z.pow_pos_nonneg; lia.

(** ** Strings *)

Lemma append_cons (c : ascii) (s1 s2 : string) :
  String c s1 +:+ s2 = String c (s1 +:+ s2).
Proof. reflexivity. Qed.

Lemma append_nil_r (s : string) : s +:+ EmptyString = s.
Proof.
  induction s as [|c s IH]; [done|]. by rewrite append_cons, IH.
Qed.

Lemma append_assoc (s1 s2 s3 : string) : (s1 +:+ s2) +:+ s3 = s1 +:+ s2 +:+ s3.
Proof.
  induction s1 as [|c s1 IH]; [done|]. by rewrite !append_cons, IH.
Qed.

(** ** int64 arithmetic *)

Lemma wrap64_id (z : Z) : in_int64 z -> wrap64 z = z.
Proof.
  unfold in_int64, wrap64, minInt64, maxInt64. intros H.
  rewrite Z.mod_small; lia.
Qed.

Lemma wrap64_max_succ : wrap64 (maxInt64 + 1) = minInt64.
Proof. reflexivity. Qed.

Lemma wrap64_min_pred : wrap64 (minInt64 - 1) = maxInt64.
Proof. reflexivity. Qed.

(** ** strconv *)

Lemma ParseUint_loop_range (s : string) :
  forall n r, 0 <= n <= maxUint64 ->
    strconv.ParseUint_loop s n = Ok r -> 0 <= r <= maxUint64.
Proof.
  induction s as [|c s IH]; intros n r Hn H; simpl in H.
  - by injection H as <-.
  - destruct (strconv.is_digit c) eqn:Hd; [|discriminate].
    destruct (maxUint64 / 10 + 1 <=? n); [discriminate|].
    destruct (maxUint64 <? n * 10 + (code c - 48)) eqn:Hlt; [discriminate|].
    apply (IH _ _) in H; [done|].
    unfold strconv.is_digit in Hd. lia.
Qed.

Lemma ParseInt_range (s : string) (n : Z) :
  strconv.ParseInt s = Ok n -> in_int64 n.
Proof.
  unfold strconv.ParseInt. destruct s as [|c s]; [discriminate|].
  generalize (if Ascii.eqb c "+" || Ascii.eqb c "-" then s else String c s).
  intros digits.
  destruct (strconv.ParseUint digits) as [un|[]] eqn:Hu; try discriminate.
  assert (0 <= un <= maxUint64) as Hun.
  { unfold strconv.ParseUint in Hu. destruct digits; [discriminate|].
    eapply ParseUint_loop_range; [|exact Hu]. unfold maxUint64. lia. }
  unfold in_int64, minInt64, maxInt64.
  destruct (Ascii.eqb c "-"); simpl.
  - destruct (2 ^ 63 <? un) eqn:E; [discriminate|]. injection 1 as <-. lia.
  - destruct (2 ^ 63 <=? un) eqn:E; [discriminate|]. injection 1 as <-. lia.
Qed.

(** ** The database *)

Lemma Get_live (d : Database) (now : Z) (key : string) (val : Value) :
  data d !! key = Some val -> database.Type_ val = StringType ->
  isExpired d now key = false ->
  Get d now key = (d, Some (StrVal val)).
Proof.
  intros Hk Ht He. unfold Get. rewrite He, Hk.
  by destruct (decide (database.Type_ val = StringType)).
Qed.

Lemma Get_Set (d : Database) (now : Z) (key value : string) :
  Get (Set_ d key value) now key = (Set_ d key value, Some value).
Proof.
  unfold Get, isExpired, Set_; simpl.
  by rewrite lookup_delete_eq, lookup_insert_eq.
Qed.

Lemma TTL_Set (d : Database) (now : Z) (key value : string) :
  TTL (Set_ d key value) now key = (Set_ d key value, -1).
Proof.
  unfold TTL, Set_; simpl.
  by rewrite lookup_insert_eq, lookup_delete_eq.
Qed.

(** ** INCR and DECR *)

(** C7.  INCR of an absent key answers the integer 1 and leaves the key
    holding the string 1; INCR of a key whose live string value does not
    parse as a signed 64-bit integer answers the command error and leaves the
    database as it was. *)
Theorem incr_absent_or_not_integer (d : Database) (now : Z) (key : string) :
  (data d !! key = None ->
     snd (handleIncr d now [key]) = integer 1 /\
     forall now', snd (Get (fst (handleIncr d now [key])) now' key) = Some "1"%string)
  /\
  (forall val e, data d !! key = Some val -> database.Type_ val = StringType ->
     isExpired d now key = false ->
     strconv.ParseInt (StrVal val) = Err e ->
     handleIncr d now [key] = (d, not_an_integer)).
Proof.
  split.
  - intros Hk. unfold handleIncr.
    assert (exists d', Get d now key = (d', None)) as [d' ->].
    { unfold Get. destruct (isExpired d now key); [by eexists|].
      rewrite Hk. by eexists. }
    unfold add_and_store; simpl. split; [done|].
    intros now'. change (strconv.FormatInt (wrap64 1)) with "1"%string.
    by rewrite Get_Set.
  - intros val e Hk Ht He Hp. unfold handleIncr.
    by rewrite (Get_live _ _ _ _ Hk Ht He), Hp.
Qed.

Lemma incr_absent_or_not_integer_witness :
  (snd (handleIncr NewDatabase 0 ["k"%string]) = integer 1 /\
   forall now', snd (Get (fst (handleIncr NewDatabase 0 ["k"%string])) now' "k") = Some "1"%string)
  /\ handleIncr db_text 0 ["k"%string] = (db_text, not_an_integer).
Proof.
  split.
  - apply (proj1 (incr_absent_or_not_integer NewDatabase 0 "k")). reflexivity.
  - apply (proj2 (incr_absent_or_not_integer db_text 0 "k")
             (string_value "abc") strconv.ErrSyntax); reflexivity.
Defined.

(** INCR and DECR answer an integer only after they stored it with [Set_]. *)
Lemma add_and_store_clears (d : Database) (key : string) (n delta : Z) (now' : Z) :
  expiry (fst (add_and_store d key n delta)) !! key = None /\
  snd (TTL (fst (add_and_store d key n delta)) now' key) = -1.
Proof.
  unfold add_and_store; simpl. rewrite TTL_Set. split; [|done].
  apply lookup_delete_eq.
Qed.

Lemma counter_success_clears
      (h : Database -> Z -> list string -> Database * RESPValue) (delta : Z)
      (d : Database) (now : Z) (key : string) :
  (h d now [key] =
     match Get d now key with
     | (d', Some value) =>
         match strconv.ParseInt value with
         | Err _ => (d', not_an_integer)
         | Ok num => add_and_store d' key num delta
         end
     | (d', None) => add_and_store d' key 0 delta
     end) ->
  protocol.Type_ (snd (h d now [key])) = Integer ->
  (exists d' n,
     h d now [key] = (Set_ d' key (strconv.FormatInt n), integer n)) /\
  forall now',
    expiry (fst (h d now [key])) !! key = None /\
    snd (TTL (fst (h d now [key])) now' key) = -1.
Proof.
  intros -> Hok.
  destruct (Get d now key) as [d' [value|]].
  - destruct (strconv.ParseInt value) as [num|e]; [|discriminate].
    split; [by eexists _, _|]. intros now'. apply add_and_store_clears.
  - split; [by eexists _, _|]. intros now'. apply add_and_store_clears.
Qed.

(** C9.  When INCR or DECR succeeds (answers an integer), it has stored the
    result with the [Set_] of SET: the key has no entry in the expiry index
    any more, whatever TTL it had before, and TTL on the key answers -1 at
    any later time. *)
Theorem incr_decr_clear_ttl (d : Database) (now : Z) (key : string) :
  (protocol.Type_ (snd (handleIncr d now [key])) = Integer ->
   (exists d' n,
      handleIncr d now [key] = (Set_ d' key (strconv.FormatInt n), integer n)) /\
   forall now',
     expiry (fst (handleIncr d now [key])) !! key = None /\
     snd (handleTTL (fst (handleIncr d now [key])) now' [key]) = integer (-1))
  /\
  (protocol.Type_ (snd (handleDecr d now [key])) = Integer ->
   (exists d' n,
      handleDecr d now [key] = (Set_ d' key (strconv.FormatInt n), integer n)) /\
   forall now',
     expiry (fst (handleDecr d now [key])) !! key = None /\
     snd (handleTTL (fst (handleDecr d now [key])) now' [key]) = integer (-1)).
Proof.
  split; intros Hok.
  - destruct (counter_success_clears handleIncr 1 d now key eq_refl Hok)
      as [Hset Hclear].
    split; [exact Hset|]. intros now'. destruct (Hclear now') as [He Ht].
    split; [done|]. unfold handleTTL.
    destruct (TTL _ now' key) as [d2 ttl]; simpl in *. by subst.
  - destruct (counter_success_clears handleDecr (-1) d now key eq_refl Hok)
      as [Hset Hclear].
    split; [exact Hset|]. intros now'. destruct (Hclear now') as [He Ht].
    split; [done|]. unfold handleTTL.
    destruct (TTL _ now' key) as [d2 ttl]; simpl in *. by subst.
Qed.

Lemma incr_decr_clear_ttl_witness :
  (expiry (fst (handleIncr db_counter 0 ["n"%string])) !! "n"%string = None /\
   snd (handleTTL (fst (handleIncr db_counter 0 ["n"%string])) 5 ["n"%string])
   = integer (-1))
  /\
  (expiry (fst (handleDecr db_counter 0 ["n"%string])) !! "n"%string = None /\
   snd (handleTTL (fst (handleDecr db_counter 0 ["n"%string])) 5 ["n"%string])
   = integer (-1)).
Proof.
  split.
  - apply (proj2 (proj1 (incr_decr_clear_ttl db_counter 0 "n") eq_refl)).
  - apply (proj2 (proj2 (incr_decr_clear_ttl db_counter 0 "n") eq_refl)).
Defined.

(** C3, as stated, fails: INCR of the largest [int64] answers the smallest
    one, not an error, and stores it; DECR of the smallest answers the
    largest. *)
Lemma incr_at_max_wraps :
  handleIncr db_max 0 ["n"%string]
  = (Set_ db_max "n" "-9223372036854775808", integer (-9223372036854775808))
  /\ protocol.Type_ (snd (handleIncr db_max 0 ["n"%string])) <> Error
  /\ data (fst (handleIncr db_max 0 ["n"%string])) !! "n"%string
     <> data db_max !! "n"%string
  /\ handleDecr db_min 0 ["n"%string]
     = (Set_ db_min "n" "9223372036854775807", integer 9223372036854775807).
Proof.
  split; [reflexivity|]. split; [discriminate|]. split; [|reflexivity].
  vm_compute. discriminate.
Qed.

(** C3, amended.  For a key whose live string value parses as the signed
    64-bit integer [n], INCR never answers an error: it stores and answers
    [n + 1], and at the largest [int64] it wraps to the smallest; DECR stores
    and answers [n - 1], and at the smallest it wraps to the largest. *)
Theorem incr_decr_wrap (d : Database) (now : Z) (key : string) (val : Value)
        (n : Z) :
  data d !! key = Some val -> database.Type_ val = StringType ->
  isExpired d now key = false ->
  strconv.ParseInt (StrVal val) = Ok n ->
  let up := if decide (n = maxInt64) then minInt64 else n + 1 in
  let down := if decide (n = minInt64) then maxInt64 else n - 1 in
  handleIncr d now [key] = (Set_ d key (strconv.FormatInt up), integer up) /\
  handleDecr d now [key] = (Set_ d key (strconv.FormatInt down), integer down).
Proof.
  intros Hk Ht He Hp up down.
  pose proof (ParseInt_range _ _ Hp) as Hr.
  unfold handleIncr, handleDecr.
  rewrite (Get_live _ _ _ _ Hk Ht He), Hp. unfold add_and_store.
  assert (wrap64 (n + 1) = up) as ->.
  { unfold up. destruct (decide (n = maxInt64)) as [->|Hne]; [reflexivity|].
    apply wrap64_id. unfold in_int64, minInt64, maxInt64 in *. lia. }
  assert (wrap64 (n + -1) = down) as ->.
  { unfold down. destruct (decide (n = minInt64)) as [->|Hne]; [reflexivity|].
    apply wrap64_id. unfold in_int64, minInt64, maxInt64 in *. lia. }
  done.
Qed.

Lemma incr_decr_wrap_witness :
  handleIncr db_max 0 ["n"%string]
  = (Set_ db_max "n" (strconv.FormatInt minInt64), integer minInt64) /\
  handleDecr db_max 0 ["n"%string]
  = (Set_ db_max "n" (strconv.FormatInt (maxInt64 - 1)), integer (maxInt64 - 1)).
Proof.
  apply (incr_decr_wrap db_max 0 "n" (string_value "9223372036854775807")
                        maxInt64); reflexivity.
Defined.

(** ** EXPIRE *)

Lemma seconds_to_Duration_small (seconds : Z) :
  0 <= seconds <= 9223372036 ->
  time.seconds_to_Duration seconds = seconds * time.Second.
Proof.
  intros H. unfold time.seconds_to_Duration. apply wrap64_id.
  unfold in_int64, minInt64, maxInt64, time.Second. lia.
Qed.

(** C10, as stated, fails for a large number of seconds: on the stale key
    [k], EXPIRE k 9223372037 answers 1, but the product of the seconds and
    10^9 wraps in int64, the expiry installed lies in the past, and the GET
    that follows purges the key and answers the null bulk string. *)
Lemma expire_overflow_does_not_revive :
  let '(d', response) := handleExpire db_stale 7 ["k"; "9223372037"]%string in
  strconv.Atoi "9223372037" = Ok 9223372037 /\
  expiry db_stale !! "k"%string = Some 5 /\
  response = integer 1 /\
  expiry d' !! "k"%string = Some (7 - 9223372036709551616) /\
  handleGet d' 8 ["k"%string] = (purge d' "k", null_bulk).
Proof. vm_compute. done. Qed.

(** C10, amended.  A key that holds a string, whose expiry instant has
    passed but which is still in the tables (a read at that time would
    purge it and answer nothing) is revived by EXPIRE with a number of
    seconds from 1 to 9223372036: the command answers 1, the expiry index
    holds the new instant [now + seconds], which lies in the future, and
    until that instant GET answers the old value. *)
Theorem expire_revives_expired_key (d : Database) (now : Z) (key : string)
        (val : Value) (e : Z) (secs : string) (seconds : Z) :
  data d !! key = Some val -> database.Type_ val = StringType ->
  expiry d !! key = Some e -> e < now ->
  strconv.Atoi secs = Ok seconds -> 0 < seconds <= 9223372036 ->
  let d' := fst (handleExpire d now [key; secs]) in
  Get d now key = (purge d key, None) /\
  snd (handleExpire d now [key; secs]) = integer 1 /\
  expiry d' !! key = Some (now + seconds * time.Second) /\
  now < now + seconds * time.Second /\
  forall now', now' <= now + seconds * time.Second ->
    handleGet d' now' [key] = (d', bulk (StrVal val)).
Proof.
  intros Hk Ht He Hpast Hs Hpos d'.
  assert (handleExpire d now [key; secs]
          = (mkDatabase (data d)
               (<[key := now + seconds * time.Second]> (expiry d)),
             integer 1)) as Hx.
  { unfold handleExpire, Expire. rewrite Hs, Hk. unfold time.Add.
    rewrite seconds_to_Duration_small by lia. done. }
  subst d'. rewrite Hx; simpl.
  split.
  { unfold Get, isExpired, time.After. rewrite He.
    by destruct (Z.ltb_spec e now); [|lia]. }
  split; [done|]. split; [apply lookup_insert_eq|].
  split; [unfold time.Second; lia|].
  intros now' Hn. unfold handleGet.
  rewrite (Get_live _ now' key val); [done|done|done|].
  unfold isExpired, time.After; simpl. rewrite lookup_insert_eq.
  apply Z.ltb_ge. lia.
Qed.

Lemma expire_revives_expired_key_witness :
  let d' := fst (handleExpire db_stale 7 ["k"; "10"]%string) in
  Get db_stale 7 "k" = (purge db_stale "k", None) /\
  snd (handleExpire db_stale 7 ["k"; "10"]%string) = integer 1 /\
  expiry d' !! "k"%string = Some (7 + 10 * time.Second) /\
  7 < 7 + 10 * time.Second /\
  forall now', now' <= 7 + 10 * time.Second ->
    handleGet d' now' ["k"%string] = (d', bulk "v").
Proof.
  apply (expire_revives_expired_key db_stale 7 "k" (string_value "v") 5 "10" 10);
    try reflexivity; lia.
Defined.

(** ** The log *)

Lemma LoadAOF_db (m : Manager) (files : Disk) (d : Database) :
  fst (fst (LoadAOF m files d)) = d.
Proof.
  unfold LoadAOF.
  destruct (negb (aofEnabled m)); [done|].
  destruct (appendonly_aof files) as [content|]; [|done].
  by destruct (scan_lines content []).
Qed.

(** C1.  The code does not do what the claim says: [LoadAOF] prints every
    logged line and leaves the database as it found it.  After a live
    SET a 1 the log holds the record and the key holds 1; a restart on
    that log prints the record and ends with the empty database. *)
Theorem replay_leaves_database_untouched :
  (forall m files d, fst (fst (LoadAOF m files d)) = d) /\
  appendonly_aof (disk live_after_set) = Some ("SET a 1" +:+ lf) /\
  snd (Get (db live_after_set) 0 "a") = Some "1"%string /\
  snd (fst (LoadAOF (persistence.mkManager true true) (disk live_after_set)
                    NewDatabase))
  = ["Replaying command: SET a 1" +:+ lf] /\
  db (recover (NewServer (disk live_after_set))) = NewDatabase /\
  snd (Get (db (recover (NewServer (disk live_after_set)))) 0 "a") = None.
Proof.
  split; [apply LoadAOF_db|].
  repeat split; vm_compute; reflexivity.
Qed.

(** C2, as stated, fails: SET without arguments is rejected for its arity
    and changes nothing in the database, yet its record is in the log. *)
Lemma rejected_set_is_logged :
  let s := NewServer empty_disk in
  let '(s', response) := executeCommand s 0 (request ["SET"%string]) in
  response = wrong_args "set" /\ db s' = db s /\
  appendonly_aof (disk s') = Some ("SET" +:+ lf).
Proof. vm_compute. done. Qed.

Lemma executeCommand_with_log (ToUpper : string -> string)
      (s : Server) (now : Z) (cmd : RESPValue) :
  aofEnabled (persistence s) = true ->
  log_of (fst (executeCommand_with ToUpper s now cmd))
  = log_of s +:+ logged_with ToUpper cmd /\
  persistence (fst (executeCommand_with ToUpper s now cmd)) = persistence s.
Proof.
  intros Hon. unfold executeCommand_with, logged_with.
  destruct (protocol.Type_ cmd); simpl;
    try (split; [symmetry; apply append_nil_r|done]).
  destruct (Array_ cmd) as [|verb rest]; simpl;
    try (split; [symmetry; apply append_nil_r|done]).
  destruct (dispatch _ _ _ _) as [d' response]; simpl.
  destruct (isWriteCommand _); simpl.
  - unfold WriteAOF, log_of. rewrite Hon. simpl. done.
  - unfold log_of. split; [symmetry; apply append_nil_r|done].
Qed.

(** The dispatcher of this file is the instance at its own [ToUpper]. *)
Lemma executeCommand_with_ToUpper (s : Server) (now : Z) (cmd : RESPValue) :
  executeCommand_with strings.ToUpper s now cmd = executeCommand s now cmd.
Proof. reflexivity. Qed.

(** C2, amended.  With the log enabled, the records appended by a sequence of
    requests are, in arrival order, the records of exactly those requests
    whose upper-cased verb is one of the seven write verbs: the upper-cased
    verb, each argument after one space, and a line feed.  Whether a request
    adds a record, and which, is a function of its verb and arguments alone:
    it does not depend on the state, on whether the command is accepted or
    rejected, or on whether it changes the database.  This holds whatever
    function upper-cases the verb, so for Go's [strings.ToUpper] on verbs of
    any bytes. *)
Theorem log_is_write_verbs (ToUpper : string -> string)
        (s : Server) (reqs : list (Z * RESPValue)) :
  aofEnabled (persistence s) = true ->
  log_of (run_with ToUpper s reqs)
  = log_of s
    +:+ concat_strings (map (fun r => logged_with ToUpper (snd r)) reqs).
Proof.
  revert s. induction reqs as [|[now cmd] reqs IH]; intros s Hon; simpl.
  - symmetry. apply append_nil_r.
  - destruct (executeCommand_with_log ToUpper s now cmd Hon) as [Hlog Hp].
    unfold run_with in *. simpl. rewrite IH by (by rewrite Hp).
    rewrite Hlog. apply append_assoc.
Qed.

Lemma log_is_write_verbs_witness :
  log_of (run_with strings.ToUpper (NewServer empty_disk)
              [(0, request ["SET"%string]); (1, request ["get"; "a"]%string);
               (2, request ["incr"; "a"]%string)])
  = ("SET" +:+ lf) +:+ ("INCR a" +:+ lf).
Proof.
  apply (log_is_write_verbs strings.ToUpper (NewServer empty_disk)
           [(0, request ["SET"%string]); (1, request ["get"; "a"]%string);
            (2, request ["incr"; "a"]%string)]).
  reflexivity.
Defined.

(** ** Log records *)

(** C6, as stated, fails: two different argument lists of SET have the same
    record. *)
Lemma record_not_injective :
  cmdStr "SET" ["a b"; "c"]%string = cmdStr "SET" ["a"; "b c"]%string /\
  ["a b"; "c"]%string <> ["a"; "b c"]%string.
Proof. split; [reflexivity|discriminate]. Qed.

Lemma cmdStr_cons (command arg : string) (args : list string) :
  cmdStr command (arg :: args) = command +:+ " " +:+ cmdStr arg args.
Proof.
  unfold cmdStr. simpl. revert command arg.
  induction args as [|a args IH]; intros command arg; simpl.
  - done.
  - rewrite IH. rewrite (IH arg a). by rewrite !append_assoc.
Qed.

Lemma split_spaces_field (v rest : string) :
  no_space v = true ->
  split_spaces (v +:+ " " +:+ rest) = v :: split_spaces rest.
Proof.
  induction v as [|c v IH]; intros Hv; [done|].
  simpl in Hv. apply andb_prop in Hv as [Hc Hv].
  rewrite append_cons. simpl. apply negb_true_iff in Hc. rewrite Hc.
  by rewrite (IH Hv).
Qed.

Lemma split_spaces_last (v : string) :
  no_space v = true -> split_spaces v = [v].
Proof.
  induction v as [|c v IH]; intros Hv; [done|].
  simpl in Hv. apply andb_prop in Hv as [Hc Hv].
  simpl. apply negb_true_iff in Hc. rewrite Hc. by rewrite (IH Hv).
Qed.

Lemma split_spaces_cmdStr (args : list string) :
  forall command, no_space command = true ->
    Forall (fun a => no_space a = true) args ->
    split_spaces (cmdStr command args) = command :: args.
Proof.
  induction args as [|a args IH]; intros command Hc Ha.
  - by apply split_spaces_last.
  - rewrite cmdStr_cons, split_spaces_field by done.
    inversion Ha; subst. by rewrite IH.
Qed.

Lemma write_verb_no_space (command : string) :
  isWriteCommand command = true -> no_space command = true.
Proof.
  unfold isWriteCommand. simpl. intros H.
  repeat (apply orb_prop in H as [H|H];
          [apply String.eqb_eq in H; by subst|]).
  discriminate.
Qed.

(** ** The connection loop *)


Lemma ReadString_shorter (r : Reader) (line : string) (rest : Reader) :
  ReadString r = Some (line, rest) ->
  (String.length rest < String.length r)%nat.
Proof.
  revert line. induction r as [|c r IH]; intros line H; simpl in H.
  - discriminate.
  - destruct (Ascii.eqb c LF).
    + injection H as _ <-. simpl. lia.
    + destruct (ReadString r) as [[l' rest']|]; [|discriminate].
      injection H as _ <-. specialize (IH _ eq_refl). simpl. lia.
Qed.

Lemma ReadFull_shorter (r : Reader) :
  forall n data rest, ReadFull n r = Some (data, rest) ->
    (String.length rest <= String.length r)%nat.
Proof.
  induction r as [|c r IH]; intros n data rest H; simpl in H.
  - destruct (n <=? 0); [|discriminate]. by injection H as _ <-.
  - destruct (n <=? 0); [by injection H as _ <-|].
    destruct (ReadFull (n - 1) r) as [[d' rest']|] eqn:E; [|discriminate].
    injection H as _ <-. apply IH in E. simpl. lia.
Qed.

Lemma readBulkString_took_byte (r : Reader) : took_byte r (readBulkString r).
Proof.
  unfold readBulkString, ReadByte.
  destruct r as [|c r]; simpl; [by left|].
  destruct (Ascii.eqb c "$"); simpl; [|right; lia].
  destruct (ReadString r) as [[lengthLine r2]|] eqn:E1; [|right; simpl; lia].
  apply ReadString_shorter in E1.
  destruct (strconv.Atoi _) as [length|e]; [|right; simpl; lia].
  destruct (length =? -1); [simpl; lia|].
  destruct (length =? 0).
  { destruct (ReadString r2) as [[l3 r3]|] eqn:E2; [|right; simpl; lia].
    apply ReadString_shorter in E2. simpl. lia. }
  destruct ((length <? 0) || (maxAlloc <? length)); [done|].
  destruct (ReadFull length r2) as [[data r3]|] eqn:E3; [|right; simpl; lia].
  apply ReadFull_shorter in E3.
  destruct (ReadString r3) as [[l4 r4]|] eqn:E4; [|right; simpl; lia].
  apply ReadString_shorter in E4. simpl. lia.
Qed.

Lemma read_bulks_not_longer (fuel : nat) :
  forall i length r,
    match read_bulks fuel i length r with
    | Read _ rest | Fail _ rest => (String.length rest <= String.length r)%nat
    | Panic => True
    end.
Proof.
  induction fuel as [|fuel IH]; intros i length r; simpl.
  - by destruct (length <=? i).
  - destruct (length <=? i); [done|].
    pose proof (readBulkString_took_byte r) as Hb.
    destruct (readBulkString r) as [b r'|e rest|]; simpl in Hb; [| |done].
    + specialize (IH (i + 1) length r').
      destruct (read_bulks fuel (i + 1) length r') as [res rest|e rest|]; lia.
    + destruct Hb as [[_ ->]|Hb]; simpl; lia.
Qed.

Lemma readRESPArray_took_byte (r : Reader) : took_byte r (readRESPArray r).
Proof.
  unfold readRESPArray, ReadByte.
  pose proof read_bulks_not_longer as Hbulks.
  set (loop := read_bulks) in *. clearbody loop.
  destruct r as [|c r]; simpl; [by left|].
  destruct (Ascii.eqb c "*"); simpl; [|right; lia].
  destruct (ReadString r) as [[lengthLine r2]|] eqn:E1; [|right; simpl; lia].
  apply ReadString_shorter in E1.
  destruct (strconv.Atoi _) as [length|e]; [|right; simpl; lia].
  destruct (length <=? 0); [simpl; lia|].
  destruct (maxAlloc <? 16 * length); [done|].
  specialize (Hbulks (S (String.length r2)) 0 length r2).
  destruct (loop _ 0 length r2) as [res rest|e rest|]; simpl in *;
    [lia| |done].
  right. lia.
Qed.


(** Fuel above the number of unread bytes is as good as any more. *)
Lemma serve_fuel (fuel : nat) :
  forall fuel' s clock n r,
    (String.length r < fuel)%nat -> (String.length r < fuel')%nat ->
    serve fuel s clock n r = serve fuel' s clock n r.
Proof.
  induction fuel as [|fuel IH]; intros fuel' s clock n r H1 H2; [lia|].
  destruct fuel' as [|fuel']; [lia|]. simpl.
  pose proof (readRESPArray_took_byte r) as Ht.
  destruct (readRESPArray r) as [[|w ws] rest|e rest|]; simpl in Ht; try done.
  - by rewrite (IH fuel') by lia.
  - destruct (executeCommand s (clock n) (request (w :: ws))) as [s1 resp].
    by rewrite (IH fuel') by lia.
  - destruct Ht as [[-> _]|Ht]; [done|].
    destruct e; try done; by rewrite (IH fuel') by lia.
Qed.



(** ** Snapshots *)

(** C4, as stated, fails: after snapshot and restart the hash key is gone
    and the string key has lost its TTL. *)
Lemma snapshot_loses_hash_and_ttl :
  let restarted := db (snapshot_then_restart order_mixed server_mixed 0) in
  key_order db_mixed order_mixed /\
  is_Some (data db_mixed !! "h"%string) /\
  data restarted !! "h"%string = None /\
  snd (TTL db_mixed 0 "s") = 100 /\
  snd (TTL restarted 0 "s") = -1.
Proof.
  split.
  { unfold key_order. vm_compute map. apply Permutation_swap. }
  split; [by eexists|].
  repeat split; vm_compute; reflexivity.
Qed.

Lemma append_suffix_ne (k s : string) : s <> EmptyString -> k +:+ s <> k.
Proof.
  intros Hs H. apply Hs.
  induction k as [|c k IH]; [done|].
  rewrite append_cons in H. injection H as H. by apply IH.
Qed.

Lemma Get_not_expired (d : Database) (now : Z) (key : string) :
  isExpired d now key = false -> fst (Get d now key) = d.
Proof.
  intros He. unfold Get. rewrite He.
  destruct (data d !! key) as [val|]; [|done]. by destruct (decide _).
Qed.

Lemma Get_snd_agree (d1 d2 : Database) (now : Z) (key : string) :
  data d1 !! key = data d2 !! key -> expiry d1 !! key = expiry d2 !! key ->
  snd (Get d1 now key) = snd (Get d2 now key).
Proof.
  intros Hd He. unfold Get, isExpired. rewrite Hd, He.
  destruct (expiry d2 !! key) as [e|]; [destruct (time.After now e); [done|]|];
    (destruct (data d2 !! key) as [val|]; [|done]; by destruct (decide _)).
Qed.

Lemma Get_absent (d : Database) (now : Z) (key : string) :
  data d !! key = None -> snd (Get d now key) = None.
Proof.
  intros Hk. unfold Get. destruct (isExpired d now key); [done|].
  by rewrite Hk.
Qed.

Lemma Get_expired (d : Database) (now : Z) (key : string) :
  isExpired d now key = true -> snd (Get d now key) = None.
Proof. intros He. unfold Get. by rewrite He. Qed.

(** [TTL] touches the entries of its own key only. *)
Lemma TTL_frame (d : Database) (now : Z) (key x : string) :
  x <> key ->
  data (fst (TTL d now key)) !! x = data d !! x /\
  expiry (fst (TTL d now key)) !! x = expiry d !! x.
Proof.
  intros Hx. unfold TTL.
  destruct (data d !! key); [|done].
  destruct (expiry d !! key); [|done].
  destruct (time.fle0 _); [|done].
  simpl. by rewrite !lookup_delete_ne.
Qed.

Lemma LoadRDB_lookup (m : Manager) (files : Disk) (snap : Snapshot)
      (d0 : Database) (k : string) :
  rdbEnabled m = true -> dump_rdb files = Some snap ->
  data (fst (LoadRDB m files d0)) !! k =
    match gob_string (snapshot_data snap !! k) with
    | Some v => Some (string_value v)
    | None => data d0 !! k
    end.
Proof.
  intros Hon Hf. unfold LoadRDB. rewrite Hon, Hf. simpl. revert k.
  apply (map_fold_weak_ind
           (fun r (m' : gmap string gob_value) =>
              forall k, data r !! k =
                match gob_string (m' !! k) with
                | Some v => Some (string_value v)
                | None => data d0 !! k
                end)).
  - intros k. by rewrite lookup_empty.
  - intros i x m' r Hi IH k. unfold load_entry; simpl.
    destruct (decide (k = i)) as [->|Hne].
    + rewrite lookup_insert_eq. specialize (IH i). rewrite Hi in IH.
      destruct x as [sv|iv]; simpl; [|done].
      by rewrite lookup_insert_eq.
    + rewrite lookup_insert_ne by done. rewrite <- IH.
      destruct x as [sv|iv]; simpl; [|done].
      by rewrite lookup_insert_ne.
Qed.

(** The loop of [SaveRDB]: [ks] are the keys still to be saved, [acc] is
    the database and the map built so far. *)
Lemma save_loop (d : Database) (now : Z) :
  no_ttl_name_clash d ->
  forall ks acc,
    NoDup ks ->
    (forall k, k ∈ ks ->
       is_Some (data d !! k) /\ isExpired d now k = false /\
       data (fst acc) !! k = data d !! k /\
       expiry (fst acc) !! k = expiry d !! k) ->
    (forall x, gob_string (snd acc !! x) =
               if decide (x ∈ ks) then None else snd (Get d now x)) ->
    forall x, gob_string (snd (foldl (save_key now) acc ks) !! x)
              = snd (Get d now x).
Proof.
  intros Hclash ks. induction ks as [|k ks IH]; intros [db0 S] Hnd Hks HS x.
  { simpl in *. rewrite (HS x). destruct (decide (x ∈ [])) as [Hin|]; [|done].
    by apply elem_of_nil in Hin. }
  simpl in *. apply NoDup_cons in Hnd as [Hk Hnd].
  destruct (Hks k) as (Hdk & Hek & Hdat & Hexp); [by left|].
  assert (isExpired db0 now k = false) as Hek0.
  { unfold isExpired in *. by rewrite Hexp. }
  pose proof (Get_not_expired db0 now k Hek0) as Hg1.
  pose proof (Get_snd_agree db0 d now k Hdat Hexp) as Hg2.
  pose proof (TTL_frame db0 now k) as Hfr.
  pose proof (append_suffix_ne k ttl_suffix ltac:(discriminate)) as Hsuf.
  pose proof (Hclash k Hdk) as Hcl.
  apply IH; clear IH; [done| |]; unfold save_key;
    destruct (Get db0 now k) as [db1 got]; simpl in Hg1, Hg2; subst db1;
    destruct (TTL db0 now k) as [db2 ttl]; simpl in Hfr; simpl.
  - intros k' Hk'.
    assert (k' <> k) as Hne by (intros ->; done).
    destruct (Hks k') as (? & ? & Hd' & He'); [by right|].
    destruct (Hfr k' Hne) as [-> ->]. done.
  - intros y.
    set (S1 := match got with
               | Some val => <[k := GobString val]> S
               | None => S
               end).
    assert (gob_string (S1 !! k) = snd (Get d now k)) as HS1k.
    { subst S1. rewrite <- Hg2. destruct got as [v|].
      - by rewrite lookup_insert_eq.
      - rewrite (HS k). destruct (decide (k ∈ k :: ks)) as [|Hn]; [done|].
        destruct Hn. by left. }
    assert (forall z, z <> k -> S1 !! z = S !! z) as HS1o.
    { intros z Hz. subst S1. destruct got; [|done].
      by rewrite lookup_insert_ne. }
    assert (snd (Get d now (k +:+ ttl_suffix)) = None) as Hgs
        by (by apply Get_absent).
    assert (gob_string (S !! (k +:+ ttl_suffix)) = None) as HSs.
    { rewrite (HS _). by destruct (decide _). }
    destruct (decide (y = k +:+ ttl_suffix)) as [->|Hy1].
    + rewrite Hgs.
      assert (gob_string
                ((if 0 <? ttl
                  then <[k +:+ ttl_suffix := GobInt64 ttl]> S1 else S1)
                   !! (k +:+ ttl_suffix)) = None) as ->.
      { destruct (0 <? ttl); [by rewrite lookup_insert_eq|].
        by rewrite HS1o. }
      by destruct (decide _).
    + assert ((if 0 <? ttl
               then <[k +:+ ttl_suffix := GobInt64 ttl]> S1 else S1) !! y
              = S1 !! y) as ->.
      { destruct (0 <? ttl); [|done]. by rewrite lookup_insert_ne. }
      destruct (decide (y = k)) as [->|Hy2].
      * rewrite HS1k. destruct (decide (k ∈ ks)); [done|done].
      * rewrite HS1o by done. rewrite (HS y).
        destruct (decide (y ∈ k :: ks)) as [Hin|Hin];
          destruct (decide (y ∈ ks)) as [Hin'|Hin']; try done.
        -- apply elem_of_cons in Hin as [->|]; done.
        -- destruct Hin. by right.
Qed.

Lemma recover_db (s : Server) :
  db (recover s) = fst (LoadRDB (persistence s) (disk s) (db s)).
Proof.
  unfold recover. destruct (LoadRDB _ _ _) as [d1 e].
  pose proof (LoadAOF_db (persistence s) (disk s) d1) as H.
  destruct (LoadAOF _ _ d1) as [[d2 out] e2]. simpl in *. done.
Qed.

(** C4, amended.  A snapshot followed by a restart, with no write in
    between, gives a database that holds exactly the keys GET answered at
    the time of the snapshot, each as a string with the value GET gave:
    keys of another type and expired keys are not in it.  (Provided no key
    is another key followed by the suffix under which the TTL is stored.) *)
Theorem snapshot_restart_keeps_live_strings
        (order : list string) (s : Server) (now : Z) (k : string) :
  rdbEnabled (persistence s) = true ->
  key_order (db s) order ->
  no_ttl_name_clash (db s) ->
  data (db (snapshot_then_restart order s now)) !! k
  = string_value <$> snd (Get (db s) now k).
Proof.
  intros Hon Hord Hclash. unfold snapshot_then_restart, SaveRDB_in.
  rewrite Hon. cbn [negb].
  set (ks := Keys_in order (db s) now).
  pose proof (save_loop (db s) now Hclash ks (db s, ∅)) as Hloop.
  destruct (foldl (save_key now) (db s, ∅) ks) as [d1 S].
  cbn [fst snd] in Hloop.
  rewrite recover_db.
  cbn [persistence disk db NewServer].
  erewrite LoadRDB_lookup; [|reflexivity|reflexivity].
  cbn [snapshot_data data NewDatabase].
  rewrite lookup_empty.
  assert (NoDup order) as Hnd.
  { rewrite Hord. apply NoDup_fst_map_to_list. }
  assert (forall x, x ∈ ks <-> is_Some (data (db s) !! x) /\
                              isExpired (db s) now x = false) as Hin.
  { intros x. subst ks. unfold Keys_in. rewrite list_elem_of_filter.
    rewrite Hord. rewrite list_elem_of_fmap. split.
    - intros [He [[x' v] [-> Hm]]]. apply elem_of_map_to_list in Hm.
      split; [by eexists|done].
    - intros [[v Hv] He]. split; [done|]. exists (x, v). split; [done|].
      by apply elem_of_map_to_list. }
  rewrite Hloop.
  - by destruct (snd (Get (db s) now k)).
  - subst ks. by apply NoDup_filter.
  - intros x Hx. apply Hin in Hx as [? ?]. done.
  - intros x. rewrite lookup_empty. simpl.
    destruct (decide (x ∈ ks)) as [|Hn]; [done|].
    destruct (isExpired (db s) now x) eqn:He; [by rewrite Get_expired|].
    destruct (data (db s) !! x) as [v|] eqn:Hx; [|by rewrite Get_absent].
    destruct Hn. apply Hin. split; [by eexists|done].
Qed.

Lemma snapshot_restart_keeps_live_strings_witness :
  data (db (snapshot_then_restart order_mixed server_mixed 0)) !! "s"%string
  = string_value <$> snd (Get (db server_mixed) 0 "s").
Proof.
  apply (snapshot_restart_keeps_live_strings order_mixed server_mixed 0 "s").
  - reflexivity.
  - unfold key_order. vm_compute map. apply Permutation_swap.
  - intros k [v Hv]. unfold server_mixed, db_mixed in *. simpl in *.
    apply lookup_insert_Some in Hv as [[<- _]|[_ Hv]]; [vm_compute; reflexivity|].
    apply lookup_singleton_Some in Hv as [<- _]. vm_compute. reflexivity.
Defined.

(** ** float64 rounding

    What [binary_round_aux] does to a mantissa in the normal range, from the
    definitions of [SpecFloat]: the shift, the round bit, the second shift. *)

Lemma iter_pos_nat {A : Type} (f : A -> A) (p : positive) :
  forall x, SpecFloat.iter_pos f p x = Nat.iter (Pos.to_nat p) f x.
Proof.
  induction p as [p IH|p IH|]; intros x; cbn [SpecFloat.iter_pos].
  - rewrite !IH. rewrite Pos2Nat.inj_xI.
    replace (S (2 * Pos.to_nat p))%nat with (Pos.to_nat p + (Pos.to_nat p + 1))%nat by lia.
    rewrite !Nat.iter_add. reflexivity.
  - rewrite !IH. rewrite Pos2Nat.inj_xO.
    replace (2 * Pos.to_nat p)%nat with (Pos.to_nat p + Pos.to_nat p)%nat by lia.
    rewrite Nat.iter_add. reflexivity.
  - reflexivity.
Qed.

Lemma shr_1_m (mrs : shr_record) :
  0 <= shr_m mrs -> shr_m (shr_1 mrs) = shr_m mrs / 2.
Proof.
  destruct mrs as [m r s]; simpl. intros Hm.
  destruct m as [|[p|p|]|p]; simpl; try reflexivity; try lia.
  - rewrite Pos2Z.inj_xI. apply Z.div_unique with 1; lia.
  - rewrite Pos2Z.inj_xO. apply Z.div_unique with 0; lia.
Qed.

Lemma shr_1_r (mrs : shr_record) :
  0 <= shr_m mrs -> shr_r (shr_1 mrs) = Z.odd (shr_m mrs).
Proof.
  destruct mrs as [m r s]; simpl. intros Hm.
  destruct m as [|[p|p|]|p]; simpl; try reflexivity; lia.
Qed.

Lemma shr_iter_m (n : nat) (mrs : shr_record) :
  0 <= shr_m mrs ->
  shr_m (Nat.iter n shr_1 mrs) = shr_m mrs / 2 ^ Z.of_nat n.
Proof.
  intros Hm. induction n as [|n IH].
  - simpl. rewrite Z.div_1_r. reflexivity.
  - assert (0 < 2 ^ Z.of_nat n) as Hp by pow2_pos.
    rewrite Nat2Z.inj_succ, Z.pow_succ_r by lia.
    change (Nat.iter (S n) shr_1 mrs) with (shr_1 (Nat.iter n shr_1 mrs)).
    rewrite shr_1_m.
    + rewrite IH. rewrite Z.div_div by lia. f_equal. lia.
    + rewrite IH. apply Z.div_pos; lia.
Qed.

Lemma shr_iter_r (n : nat) (mrs : shr_record) :
  0 <= shr_m mrs ->
  shr_r (Nat.iter (S n) shr_1 mrs) = Z.odd (shr_m mrs / 2 ^ Z.of_nat n).
Proof.
  intros Hm.
  change (Nat.iter (S n) shr_1 mrs) with (shr_1 (Nat.iter n shr_1 mrs)).
  rewrite shr_1_r.
  - rewrite shr_iter_m by lia. reflexivity.
  - rewrite shr_iter_m by lia. apply Z.div_pos; [lia|].
    apply Z.pow_pos_nonneg; lia.
Qed.


Lemma digits2_size (p : positive) : digits2_pos p = Pos.size p.
Proof. induction p; simpl; congruence. Qed.

Lemma digits2_bounds (p : positive) :
  2 ^ (Z.pos (digits2_pos p) - 1) <= Z.pos p < 2 ^ Z.pos (digits2_pos p).
Proof.
  rewrite digits2_size.
  pose proof (Pos.size_gt p) as Hgt. pose proof (Pos.size_le p) as Hle.
  apply Pos2Z.pos_lt_pos in Hgt. apply Pos2Z.pos_le_pos in Hle.
  rewrite Pos2Z.inj_pow in Hgt, Hle.
  split; [|exact Hgt].
  replace (Z.pos (Pos.size p)) with (Z.succ (Z.pos (Pos.size p) - 1)) in Hle by lia.
  rewrite Z.pow_succ_r in Hle by lia. lia.
Qed.

Lemma digits2_unique (p : positive) (d : Z) :
  2 ^ (d - 1) <= Z.pos p < 2 ^ d -> Z.pos (digits2_pos p) = d.
Proof.
  intros [Hlo Hhi]. pose proof (digits2_bounds p) as [Hlo' Hhi'].
  assert (0 < d).
  { destruct (Z.ltb_spec 0 d) as [|Hd]; [done|].
    assert (2 ^ d <= 2 ^ 0) by (destruct (Z.eq_dec d 0) as [->|]; [lia|rewrite Z.pow_neg_r by lia; simpl; lia]).
    simpl in *. lia. }
  assert (d - 1 < Z.pos (digits2_pos p)).
  { apply (Z.pow_lt_mono_r_iff 2); lia. }
  assert (Z.pos (digits2_pos p) - 1 < d).
  { apply (Z.pow_lt_mono_r_iff 2); lia. }
  lia.
Qed.

Lemma shr_spec (mrs : shr_record) (e n : Z) :
  0 <= shr_m mrs -> 0 <= n ->
  snd (shr mrs e n) = e + n /\
  shr_m (fst (shr mrs e n)) = shr_m mrs / 2 ^ n /\
  (1 <= n -> shr_r (fst (shr mrs e n)) = Z.odd (shr_m mrs / 2 ^ (n - 1))) /\
  (n = 0 -> fst (shr mrs e n) = mrs).
Proof.
  intros Hm Hn. destruct n as [|pn|pn]; [| |lia].
  - simpl. rewrite Z.add_0_r, Z.div_1_r. repeat split; intros; (lia || reflexivity).
  - unfold shr. cbn [fst snd]. rewrite iter_pos_nat.
    split; [reflexivity|]. split; [|split; [|lia]].
    + rewrite shr_iter_m by assumption. rewrite positive_nat_Z. reflexivity.
    + intros _. pose proof (positive_nat_Z pn) as Hz.
      destruct (Pos.to_nat pn) as [|k] eqn:Ek; [lia|].
      rewrite shr_iter_r by assumption.
      replace (Z.pos pn - 1) with (Z.of_nat k) by lia. reflexivity.
Qed.

Lemma rne_cases (mrs : shr_record) :
  round_nearest_even (shr_m mrs) (loc_of_shr_record mrs) = shr_m mrs \/
  (round_nearest_even (shr_m mrs) (loc_of_shr_record mrs) = shr_m mrs + 1 /\
   shr_r mrs = true).
Proof.
  destruct mrs as [m [] []]; simpl; auto.
  destruct (Z.even m); auto.
Qed.

Lemma shr_record_of_loc_m (m : Z) (l : location) :
  shr_m (shr_record_of_loc m l) = m.
Proof. destruct l as [|[]]; reflexivity. Qed.

Lemma shr_record_of_loc_r (m : Z) (l : location) :
  shr_r (shr_record_of_loc m l) = true -> l <> loc_Exact.
Proof. destruct l as [|[]]; simpl; congruence. Qed.

Lemma odd_div_mod (a n : Z) :
  0 <= a -> 1 <= n -> Z.odd (a / 2 ^ (n - 1)) = true ->
  2 ^ (n - 1) <= a mod 2 ^ n.
Proof.
  intros Ha Hn Hodd.
  assert (0 < 2 ^ (n - 1)) as Hp by pow2_pos.
  assert (2 ^ n = 2 * 2 ^ (n - 1)) as Hn2.
  { replace n with (Z.succ (n - 1)) at 1 by lia. apply Z.pow_succ_r. lia. }
  rewrite Hn2.
  pose proof (Z.div_mod a (2 ^ (n - 1)) ltac:(lia)) as Hdm.
  pose proof (Z.mod_pos_bound a (2 ^ (n - 1)) Hp) as Hb.
  set (q := a / 2 ^ (n - 1)) in *. set (r := a mod 2 ^ (n - 1)) in *.
  apply Z.odd_spec in Hodd as [k Hk].
  assert (a = (2 ^ (n - 1) + r) + k * (2 * 2 ^ (n - 1))) as Ha2 by nia.
  clearbody q r. rewrite Ha2. rewrite Z.mod_add by lia.
  rewrite Z.mod_small by lia. lia.
Qed.

(** Rounding a positive mantissa of 53 digits or more in the normal range. *)
Lemma bra_normal (s : bool) (p : positive) (ex : Z) (lx : location) :
  let n := Z.pos (digits2_pos p) - 53 in
  0 <= n -> -1074 <= ex + n -> ex + n < 971 ->
  exists m e,
    binary_round_aux 53 1024 s (Z.pos p) ex lx = S754_finite s m e /\
    Z.pos (digits2_pos m) = 53 /\
    ex + n <= e /\
    (Z.pos m * 2 ^ (e - (ex + n)) = Z.pos p / 2 ^ n \/
     (Z.pos m * 2 ^ (e - (ex + n)) = Z.pos p / 2 ^ n + 1 /\
      ((1 <= n /\ 2 ^ (n - 1) <= Z.pos p mod 2 ^ n) \/
       (n = 0 /\ lx <> loc_Exact)))).
Proof.
  intros n Hn Hlo Hhi.
  pose proof (digits2_bounds p) as [Hd1 Hd2].
  assert (0 < 2 ^ n) as Hpn by pow2_pos.
  assert (2 ^ 52 <= Z.pos p / 2 ^ n < 2 ^ 53) as Hm'.
  { replace (Z.pos (digits2_pos p) - 1) with (52 + n) in Hd1 by lia.
    replace (Z.pos (digits2_pos p)) with (53 + n) in Hd2 by lia.
    rewrite Z.pow_add_r in Hd1, Hd2 by lia. split.
    - apply Z.div_le_lower_bound; lia.
    - apply Z.div_lt_upper_bound; lia. }
  unfold binary_round_aux, shr_fexp.
  assert (fexp 53 1024 (Zdigits2 (Z.pos p) + ex) - ex = n) as ->.
  { unfold fexp, emin. simpl Zdigits2. lia. }
  pose proof (shr_spec (shr_record_of_loc (Z.pos p) lx) ex n) as Hs.
  rewrite shr_record_of_loc_m in Hs.
  destruct Hs as (He' & Hm1 & Hr & H0); [lia|lia|].
  destruct (shr (shr_record_of_loc (Z.pos p) lx) ex n) as [mrs' e'].
  cbn [fst snd] in *. subst e'.
  set (m1 := round_nearest_even (shr_m mrs') (loc_of_shr_record mrs')).
  assert (m1 = Z.pos p / 2 ^ n \/
          (m1 = Z.pos p / 2 ^ n + 1 /\
           ((1 <= n /\ 2 ^ (n - 1) <= Z.pos p mod 2 ^ n) \/
            (n = 0 /\ lx <> loc_Exact)))) as Hm1c.
  { destruct (rne_cases mrs') as [E|[E Er]]; fold m1 in E; rewrite Hm1 in E.
    - left. exact E.
    - right. split; [exact E|].
      destruct (Z.eq_dec n 0) as [Hn0|Hn0].
      + right. split; [exact Hn0|]. rewrite (H0 Hn0) in Er.
        eapply shr_record_of_loc_r. exact Er.
      + left. split; [lia|]. apply odd_div_mod; [lia|lia|].
        rewrite <- Hr by lia. exact Er. }
  assert (2 ^ 52 <= m1 <= 2 ^ 53) as Hm1b by lia.
  clearbody m1. clear Hm1 Hr H0 mrs'.
  destruct m1 as [|q|q]; [lia| |lia].
  destruct (Z.eq_dec (Z.pos q) (2 ^ 53)) as [Heq|Hne].
  - (* the rounded mantissa is 2^53: one more shift *)
    assert (q = 9007199254740992%positive) as -> by lia.
    exists (4503599627370496%positive), (ex + n + 1).
    split.
    { replace (fexp 53 1024 (Zdigits2 (Z.pos 9007199254740992) + (ex + n))
               - (ex + n)) with 1 by (unfold fexp, emin; simpl Zdigits2; lia).
      cbn. change (1024 - 53) with 971.
      destruct (Z.leb_spec (ex + n + 1) 971) as [_|]; [reflexivity|lia]. }
    split; [reflexivity|]. split; [lia|].
    replace (ex + n + 1 - (ex + n)) with 1 by lia.
    change (Z.pos 4503599627370496 * 2 ^ 1) with (Z.pos 9007199254740992).
    exact Hm1c.
  - exists q, (ex + n).
    assert (Z.pos (digits2_pos q) = 53) as Hdq
        by (apply digits2_unique; simpl in *; lia).
    split.
    { replace (fexp 53 1024 (Zdigits2 (Z.pos q) + (ex + n)) - (ex + n))
        with 0 by (unfold fexp, emin; simpl Zdigits2; lia).
      cbn. change (1024 - 53) with 971.
      destruct (Z.leb_spec (ex + n) 971) as [_|]; [reflexivity|lia]. }
    split; [exact Hdq|]. split; [lia|].
    replace (ex + n - (ex + n)) with 0 by lia. rewrite Z.mul_1_r.
    exact Hm1c.
Qed.

Lemma iter_xO (mx d : positive) :
  Z.pos (Pos.iter xO mx d) = Z.pos mx * 2 ^ Z.pos d.
Proof.
  induction d as [|d IH] using Pos.peano_ind.
  - simpl. lia.
  - rewrite Pos.iter_succ, Pos2Z.inj_xO, IH, Pos2Z.inj_succ.
    rewrite Z.pow_succ_r by lia. lia.
Qed.

Lemma shl_align_le (mx : positive) (ex ex' : Z) :
  ex' <= ex ->
  Z.pos (fst (shl_align mx ex ex')) = Z.pos mx * 2 ^ (ex - ex') /\
  snd (shl_align mx ex ex') = ex'.
Proof.
  intros H. unfold shl_align.
  destruct (ex' - ex) as [|d|d] eqn:E; [|lia|].
  - replace (ex - ex') with 0 by lia. simpl. lia.
  - cbn [fst snd]. rewrite iter_xO. replace (ex - ex') with (Z.pos d) by lia.
    split; reflexivity.
Qed.

Lemma shl_align_gt (mx : positive) (ex ex' : Z) :
  ex < ex' -> shl_align mx ex ex' = (mx, ex).
Proof.
  intros H. unfold shl_align.
  destruct (ex' - ex) as [|d|d] eqn:E; [reflexivity|reflexivity|lia].
Qed.

(** [binary_round] in the normal range: exact for a mantissa of at most 53
    digits, to nearest above. *)
Lemma br_normal (s : bool) (p : positive) (ex : Z) :
  let d := Z.pos (digits2_pos p) in
  -1074 <= d + ex - 53 -> d + ex - 53 < 971 ->
  exists m e,
    binary_round 53 1024 s p ex = S754_finite s m e /\
    Z.pos (digits2_pos m) = 53 /\
    ((d <= 53 /\ d + ex - 53 <= e /\
      Z.pos m * 2 ^ (e - (d + ex - 53)) = Z.pos p * 2 ^ (53 - d)) \/
     (53 < d /\ ex + (d - 53) <= e /\
      (Z.pos m * 2 ^ (e - (ex + (d - 53))) = Z.pos p / 2 ^ (d - 53) \/
       (Z.pos m * 2 ^ (e - (ex + (d - 53))) = Z.pos p / 2 ^ (d - 53) + 1 /\
        2 ^ (d - 53 - 1) <= Z.pos p mod 2 ^ (d - 53))))).
Proof.
  intros d Hlo Hhi. unfold binary_round.
  assert (fexp 53 1024 (Z.pos (digits2_pos p) + ex) = d + ex - 53) as ->
      by (unfold fexp, emin; lia).
  pose proof (digits2_bounds p) as [Hd1 Hd2]. fold d in Hd1, Hd2.
  destruct (Z.le_gt_cases d 53) as [Hd|Hd].
  - pose proof (shl_align_le p ex (d + ex - 53) ltac:(lia)) as [Hf Hs].
    destruct (shl_align p ex (d + ex - 53)) as [mz ez]. cbn [fst snd] in *.
    subst ez. replace (ex - (d + ex - 53)) with (53 - d) in Hf by lia.
    assert (Z.pos (digits2_pos mz) = 53) as Hdz.
    { apply digits2_unique. rewrite Hf.
      assert (0 < 2 ^ (53 - d)) by pow2_pos.
      assert (2 ^ (d - 1) * 2 ^ (53 - d) = 2 ^ (53 - 1)) as E1
          by (rewrite <- Z.pow_add_r by lia; f_equal; lia).
      assert (2 ^ d * 2 ^ (53 - d) = 2 ^ 53) as E2
          by (rewrite <- Z.pow_add_r by lia; f_equal; lia).
      nia. }
    destruct (bra_normal s mz (d + ex - 53) loc_Exact)
      as (m & e & Hr & Hdm & He & Hv); rewrite ?Hdz; try lia.
    rewrite Hdz in *. replace (53 - 53) with 0 in * by lia.
    rewrite Z.add_0_r in *. rewrite Z.div_1_r in Hv.
    exists m, e. split; [exact Hr|]. split; [exact Hdm|].
    left. split; [lia|]. split; [lia|].
    destruct Hv as [Hv|[_ [[? _]|[_ Hv]]]]; [lia|lia|congruence].
  - rewrite shl_align_gt by lia.
    destruct (bra_normal s p ex loc_Exact) as (m & e & Hr & Hdm & He & Hv);
      fold d; try lia.
    fold d in He, Hv. exists m, e. split; [exact Hr|]. split; [exact Hdm|].
    right.
    split; [lia|]. split; [lia|].
    destruct Hv as [Hv|[Hv [[_ Hc]|[? _]]]]; [left; exact Hv| |lia].
    right. split; [exact Hv|exact Hc].
Qed.



Lemma pow2_split (a b : Z) : 0 <= a -> 0 <= b -> 2 ^ (a + b) = 2 ^ a * 2 ^ b.
Proof. intros. apply Z.pow_add_r; assumption. Qed.

Lemma repr_of_int (s : bool) (p : positive) :
  Z.pos p < 2 ^ 53 ->
  repr (binary_round 53 1024 s p 0) s (Z.pos p * 2 ^ 83).
Proof.
  intros Hp. pose proof (digits2_bounds p) as [Hd1 Hd2].
  set (d := Z.pos (digits2_pos p)) in *.
  assert (1 <= d <= 53) as Hd.
  { split; [unfold d; lia|].
    assert (d - 1 < 53); [|lia]. apply (Z.pow_lt_mono_r_iff 2); lia. }
  destruct (br_normal s p 0) as (m & e & Hr & Hdm & Hc); fold d; try lia.
  fold d in Hc. exists m, e. split; [exact Hr|]. split; [exact Hdm|].
  destruct Hc as [(_ & He & Hv)|(? & _)]; [|lia]. split; [lia|].
  replace (e + 83) with ((e - (d + 0 - 53)) + (d + 30)) by lia.
  rewrite pow2_split by lia. rewrite Z.mul_assoc, Hv.
  rewrite <- Z.mul_assoc, <- pow2_split by lia. do 2 f_equal. lia.
Qed.


Lemma mantissa_53 (m : positive) :
  Z.pos (digits2_pos m) = 53 -> 2 ^ 52 <= Z.pos m < 2 ^ 53.
Proof.
  intros H. pose proof (digits2_bounds m) as Hb. rewrite H in Hb. exact Hb.
Qed.

Lemma div_1e9 (s : bool) (mx : positive) (ex nsec : Z) :
  Z.pos (digits2_pos mx) = 53 -> -83 <= ex ->
  Z.pos mx * 2 ^ (ex + 83) = nsec * 2 ^ 83 ->
  0 < nsec < 1000000000 ->
  exists frs,
    repr (SFdiv 53 1024 (S754_finite s mx ex) (S754_finite false m1e9 (-23)))
         s frs /\
    0 < frs /\ frs + 2 ^ 53 < 2 ^ 83.
Proof.
  intros Hd Hex Hv Hn.
  pose proof (mantissa_53 mx Hd) as Hmx.
  assert (0 < 2 ^ (ex + 83)) as Hpos by pow2_pos.
  assert (-52 <= ex <= -23) as Hex2.
  { split.
    - assert (83 < 53 + (ex + 83)); [|lia].
      apply (Z.pow_lt_mono_r_iff 2); [lia|lia|].
      rewrite pow2_split by lia. nia.
    - assert (52 + (ex + 83) < 30 + 83); [|lia].
      apply (Z.pow_lt_mono_r_iff 2); [lia|lia|].
      rewrite !pow2_split by lia. change (2 ^ 30) with 1073741824. nia. }
  set (P := 2 ^ (ex + 53)).
  assert (0 < P) as HP by pow2_pos.
  assert (P <= 2 ^ 30) as HP30 by (apply Z.pow_le_mono_r; lia).
  assert (Z.pos mx * P = nsec * 2 ^ 53) as HmP.
  { replace (ex + 83) with ((ex + 53) + 30) in Hv by lia.
    rewrite pow2_split in Hv by lia. fold P in Hv.
    change (2 ^ 83) with (2 ^ 53 * 2 ^ 30) in Hv.
    assert (0 < 2 ^ 30) by reflexivity. nia. }
  unfold SFdiv, SFdiv_core_binary.
  replace (Zdigits2 (Z.pos mx)) with 53 by (simpl; lia).
  change (Zdigits2 (Z.pos m1e9)) with 53.
  replace (Z.min (fexp 53 1024 (53 + ex - (53 + -23))) (ex - -23))
    with (ex - 30) by (unfold fexp, emin; lia).
  replace (ex - -23 - (ex - 30)) with 53 by lia.
  rewrite Z.shiftl_mul_pow2 by lia.
  set (m' := Z.pos mx * 2 ^ 53).
  pose proof (Z.div_mod m' (Z.pos m1e9) ltac:(lia)) as Hdm.
  pose proof (Z.mod_pos_bound m' (Z.pos m1e9) ltac:(lia)) as Hmod.
  unfold Z.div, Z.modulo in Hdm, Hmod.
  destruct (Z.div_eucl m' (Z.pos m1e9)) as [q r]. 
  assert (2 ^ 52 <= q < 2 ^ 54) as Hq.
  { subst m'. unfold m1e9 in *. change (2 ^ 52) with 4503599627370496 in *.
    change (2 ^ 53) with 9007199254740992 in *.
    change (2 ^ 54) with 18014398509481984. nia. }
  destruct q as [|pq|pq]; [simpl in Hq; lia| |lia].
  set (n := Z.pos (digits2_pos pq) - 53).
  assert (n = 0 \/ n = 1) as Hn01.
  { pose proof (digits2_bounds pq) as [Hb1 Hb2].
    assert (52 < Z.pos (digits2_pos pq)).
    { apply (Z.pow_lt_mono_r_iff 2); lia. }
    assert (Z.pos (digits2_pos pq) - 1 < 54).
    { apply (Z.pow_lt_mono_r_iff 2); lia. }
    unfold n. lia. }
  destruct (bra_normal (xorb s false) pq (ex - 30)
              (new_location (Z.pos m1e9) r))
    as (m & e & Hr & Hdig & He & Hval); fold n; try lia.
  fold n in He, Hval. rewrite Hr. rewrite xorb_false_r.
  exists (Z.pos m * 2 ^ (e + 83)).
  split; [exists m, e; repeat split; [exact Hdig|lia]|].
  assert (0 < 2 ^ (e + 83)) by pow2_pos.
  split; [lia|].
  (* the magnitude: at most (q + 2) * 2^(ex + 53) on the grid *)
  set (k := Z.pos m * 2 ^ (e - (ex - 30 + n))) in *.
  assert (Z.pos m * 2 ^ (e + 83) = k * (2 ^ n * P)) as ->.
  { unfold k, P. replace (e + 83) with ((e - (ex - 30 + n)) + (n + (ex + 53))) by lia.
    rewrite (pow2_split (e - (ex - 30 + n))) by lia.
    rewrite (pow2_split n) by lia. ring. }
  assert (k * 2 ^ n <= Z.pos pq + 2) as Hk.
  { assert (0 < 2 ^ n) by pow2_pos.
    pose proof (Z.mul_div_le (Z.pos pq) (2 ^ n) ltac:(lia)) as Hle.
    assert (2 ^ n <= 2) by (destruct Hn01 as [-> | ->]; simpl; lia).
    destruct Hval as [->|[-> _]]; nia. }
  assert (Z.pos pq * P * 1000000000 <= nsec * 2 ^ 83) as Hq2.
  { subst m'. unfold m1e9 in *.
    change (2 ^ 83) with (2 ^ 53 * 2 ^ 7 * 8388608) in *.
    assert (Z.pos pq * P * 8388608000000000 <= nsec * 2 ^ 53 * 2 ^ 53) by nia.
    change (2 ^ 53) with 9007199254740992 in *. change (2 ^ 7) with 128. nia. }
  change (2 ^ 30) with 1073741824 in HP30.
  change (2 ^ 53) with 9007199254740992.
  change (2 ^ 83) with 9671406556917033397649408 in *.
  nia.
Qed.

Lemma SFadd_same_sign (s : bool) (m1 m2 : positive) (e1 e2 : Z) :
  SFadd 53 1024 (S754_finite s m1 e1) (S754_finite s m2 e2)
  = binary_round 53 1024 s
      (fst (shl_align m1 e1 (Z.min e1 e2)) + fst (shl_align m2 e2 (Z.min e1 e2)))
      (Z.min e1 e2).
Proof. destruct s; reflexivity. Qed.

Lemma add_same_sign (s : bool) (x y : spec_float) (sec Y : Z) :
  repr x s (sec * 2 ^ 83) -> repr y s Y ->
  1 <= sec < 2 ^ 34 -> 0 < Y < 2 ^ 83 ->
  exists v,
    repr (SFadd 53 1024 x y) s v /\
    (sec < 2 ^ 24 -> Y + 2 ^ 53 < 2 ^ 83 ->
     sec * 2 ^ 83 <= v < (sec + 1) * 2 ^ 83).
Proof.
  intros (m1 & e1 & -> & _ & He1 & Hv1) (m2 & e2 & -> & _ & He2 & Hv2) Hsec HY.
  rewrite SFadd_same_sign.
  set (ez := Z.min e1 e2).
  pose proof (shl_align_le m1 e1 ez ltac:(unfold ez; lia)) as [Ha _].
  pose proof (shl_align_le m2 e2 ez ltac:(unfold ez; lia)) as [Hb _].
  set (pM := (fst (shl_align m1 e1 ez) + fst (shl_align m2 e2 ez))%positive).
  assert (-83 <= ez) as Hez by (unfold ez; lia).
  set (T := 2 ^ (ez + 83)).
  assert (0 < T) as HT by pow2_pos.
  assert (Z.pos pM * T = sec * 2 ^ 83 + Y) as HM.
  { unfold pM. rewrite Pos2Z.inj_add, Ha, Hb, <- Hv1, <- Hv2. unfold T.
    replace (e1 + 83) with ((e1 - ez) + (ez + 83)) by lia.
    replace (e2 + 83) with ((e2 - ez) + (ez + 83)) by lia.
    rewrite (pow2_split (e1 - ez)), (pow2_split (e2 - ez))
      by (unfold ez; lia).
    ring. }
  clearbody pM. clear Ha Hb Hv1 Hv2.
  pose proof (digits2_bounds pM) as [Hd1 Hd2].
  set (d := Z.pos (digits2_pos pM)) in *.
  assert (1 <= d) as Hd by (unfold d; lia).
  assert (0 < 2 ^ (d - 1)) as Hpd by pow2_pos.
  assert (1 <= d + ez < 36) as Hdez.
  { split.
    - assert (83 < d + (ez + 83)); [|lia].
      apply (Z.pow_lt_mono_r_iff 2); [lia|lia|].
      rewrite pow2_split by lia. fold T.
      assert (2 ^ 83 <= Z.pos pM * T) by nia. nia.
    - assert ((d - 1) + (ez + 83) < 35 + 83); [|lia].
      apply (Z.pow_lt_mono_r_iff 2); [lia|lia|].
      rewrite !pow2_split by lia. fold T.
      change (2 ^ 34) with 17179869184 in Hsec.
      change (2 ^ 35) with 34359738368.
      assert (0 < 2 ^ 83) by reflexivity. nia. }
  destruct (br_normal s pM ez) as (m & e & Hr & Hdig & Hc); fold d; try lia.
  fold d in Hc. rewrite Hr. exists (Z.pos m * 2 ^ (e + 83)).
  destruct Hc as [(Hsmall & He & Hv)|(Hlarge & He & Hv)].
  - (* at most 53 digits: the sum is exact *)
    split; [exists m, e; repeat split; [exact Hdig|lia]|].
    intros _ _.
    assert (Z.pos m * 2 ^ (e + 83) = Z.pos pM * T) as ->; [|lia].
    unfold T.
    replace (e + 83) with ((e - (d + ez - 53)) + (d + ez + 30)) by lia.
    rewrite pow2_split by lia. rewrite Z.mul_assoc, Hv.
    rewrite <- Z.mul_assoc, <- pow2_split by lia. do 2 f_equal. lia.
  - split; [exists m, e; repeat split; [exact Hdig|lia]|].
    intros Hsec24 HY53.
    set (n := d - 53) in *.
    set (N := 2 ^ n).
    assert (0 < N) as HN by pow2_pos.
    assert (N = 2 * 2 ^ (n - 1)) as HN2.
    { unfold N. replace n with (Z.succ (n - 1)) at 1 by lia.
      apply Z.pow_succ_r. lia. }
    assert (0 < 2 ^ (n - 1)) as HN1 by pow2_pos.
    assert (d + ez <= 24) as Hdez24.
    { assert ((d - 1) + (ez + 83) < 24 + 83); [|lia].
      apply (Z.pow_lt_mono_r_iff 2); [lia|lia|].
      rewrite !pow2_split by lia. fold T.
      assert (0 < 2 ^ 83) by reflexivity. nia. }
    set (G := 2 ^ (- (ez + n))).
    assert (0 < G) as HG by pow2_pos.
    assert (N * T * G = 2 ^ 83) as HNTG.
    { unfold N, T, G. rewrite <- !pow2_split by lia. f_equal. lia. }
    assert (2 ^ (n - 1) * T <= 2 ^ 53) as Hhalf.
    { unfold T. rewrite <- pow2_split by lia. apply Z.pow_le_mono_r; lia. }
    set (k := Z.pos m * 2 ^ (e - (ez + n))) in *.
    assert (Z.pos m * 2 ^ (e + 83) = k * (N * T)) as ->.
    { unfold k, N, T.
      replace (e + 83) with ((e - (ez + n)) + (n + (ez + 83))) by lia.
      rewrite (pow2_split (e - (ez + n))) by lia.
      rewrite (pow2_split n) by lia. ring. }
    pose proof (Z.div_mod (Z.pos pM) N ltac:(lia)) as Hdm.
    pose proof (Z.mod_pos_bound (Z.pos pM) N HN) as Hmod.
    fold N in Hv.
    set (q := Z.pos pM / N) in *. set (r := Z.pos pM mod N) in *.
    clearbody q r k.
    assert (sec * G <= q) as Hlow.
    { assert (sec * G * N <= Z.pos pM) by nia. nia. }
    assert (0 < 2 ^ 83) by reflexivity.
    split.
    + assert (q <= k) by (destruct Hv as [->|[-> _]]; lia). nia.
    + assert (k * N <= Z.pos pM + 2 ^ (n - 1)) as Hup.
      { destruct Hv as [->|[-> Hc]]; nia. }
      nia.
Qed.

(** ** [Duration.Seconds] and the conversion to [int64] *)

Lemma float64_of_int_1e9 :
  time.float64_of_int 1000000000 = S754_finite false m1e9 (-23).
Proof. vm_compute. reflexivity. Qed.

Lemma float64_of_int_signed (s : bool) (i : Z) :
  0 < i < 2 ^ 53 ->
  repr (time.float64_of_int (cond_Zopp s i)) s (i * 2 ^ 83).
Proof.
  intros Hi. destruct i as [|p|p]; [lia| |lia].
  unfold time.float64_of_int, binary_normalize.
  destruct s; simpl cond_Zopp; cbn match; apply repr_of_int; lia.
Qed.

(** The float of [a + b / 1e9] seconds, of either sign, on the grid. *)
Lemma Seconds_repr (s : bool) (a b : Z) :
  0 <= a < 2 ^ 34 -> 0 <= b < 1000000000 -> 0 < a + b ->
  exists v,
    repr (time.fadd (time.float64_of_int (cond_Zopp s a))
            (time.fdiv (time.float64_of_int (cond_Zopp s b))
                       (time.float64_of_int 1000000000)))
         s v /\
    (a < 2 ^ 24 -> a * 2 ^ 83 <= v < (a + 1) * 2 ^ 83).
Proof.
  intros Ha Hb Hab. rewrite float64_of_int_1e9.
  assert (0 < 2 ^ 83) as H83 by reflexivity.
  assert (2 ^ 34 < 2 ^ 53) as H34 by reflexivity.
  assert (1000000000 < 2 ^ 53) as H9 by reflexivity.
  destruct (Z.eq_dec b 0) as [->|Hb0].
  - (* whole seconds *)
    assert (cond_Zopp s 0 = 0) as -> by (by destruct s).
    change (time.fdiv (time.float64_of_int 0) (S754_finite false m1e9 (-23)))
      with (S754_zero false).
    pose proof (float64_of_int_signed s a ltac:(lia)) as Hx.
    exists (a * 2 ^ 83). split; [|lia].
    destruct Hx as (m & e & Hx & Hrest). rewrite Hx.
    change (time.fadd (S754_finite s m e) (S754_zero false))
      with (S754_finite s m e).
    by exists m, e.
  - pose proof (float64_of_int_signed s b ltac:(lia)) as (mb & eb & Hy & Hdb & Heb & Hvb).
    rewrite Hy.
    destruct (div_1e9 s mb eb b Hdb Heb Hvb ltac:(lia)) as (frs & Hf & Hf0 & Hf1).
    change (time.fdiv (S754_finite s mb eb) (S754_finite false m1e9 (-23)))
      with (SFdiv 53 1024 (S754_finite s mb eb) (S754_finite false m1e9 (-23))).
    destruct (Z.eq_dec a 0) as [->|Ha0].
    + assert (cond_Zopp s 0 = 0) as -> by (by destruct s).
      exists frs. split; [|lia].
      destruct Hf as (m & e & Hf & Hrest). rewrite Hf.
      change (time.fadd (time.float64_of_int 0) (S754_finite s m e))
        with (S754_finite s m e).
      by exists m, e.
    + pose proof (float64_of_int_signed s a ltac:(lia)) as Hx.
      destruct (add_same_sign s _ _ a frs Hx Hf ltac:(lia) ltac:(lia))
        as (v & Hv & Hbound).
      exists v. split; [exact Hv|]. intros Ha24. apply Hbound; lia.
Qed.

Lemma int64_of_float64_repr (f : spec_float) (s : bool) (v : Z) :
  repr f s v -> v / 2 ^ 83 <= maxInt64 ->
  time.int64_of_float64 f = cond_Zopp s (v / 2 ^ 83).
Proof.
  intros (m & e & -> & _ & He & Hv) Hmax. unfold time.int64_of_float64.
  assert (0 < 2 ^ 83) as H83 by reflexivity.
  assert ((if 0 <=? e then Z.pos m * 2 ^ e else Z.pos m / 2 ^ (- e))
          = v / 2 ^ 83) as ->.
  { subst v. destruct (Z.leb_spec 0 e) as [Hpos|Hneg].
    - rewrite pow2_split by lia. rewrite Z.mul_assoc, Z.div_mul by lia. done.
    - assert (2 ^ 83 = 2 ^ (- e) * 2 ^ (e + 83)) as E.
      { rewrite <- pow2_split by lia. f_equal. lia. }
      assert (0 < 2 ^ (e + 83)) by pow2_pos.
      assert (0 < 2 ^ (- e)) by pow2_pos.
      rewrite E. rewrite Z.div_mul_cancel_r by lia. done. }
  assert (0 <= v / 2 ^ 83) as Hnn.
  { apply Z.div_pos; [|lia]. subst v.
    assert (0 < 2 ^ (e + 83)) by pow2_pos. lia. }
  unfold cond_Zopp.
  destruct s.
  - destruct (Z.leb_spec minInt64 (- (v / 2 ^ 83))) as [_|Hc];
      [|unfold minInt64, maxInt64 in *; lia].
    destruct (Z.leb_spec (- (v / 2 ^ 83)) maxInt64) as [_|Hc];
      [done|unfold minInt64, maxInt64 in *; lia].
  - destruct (Z.leb_spec minInt64 (v / 2 ^ 83)) as [_|Hc];
      [|unfold minInt64, maxInt64 in *; lia].
    destruct (Z.leb_spec (v / 2 ^ 83) maxInt64) as [_|Hc]; [done|lia].
Qed.

(** A remaining time under 2^24 seconds: positive, and truncated to whole
    seconds. *)
Lemma Seconds_positive (d : Z) :
  0 < d < 2 ^ 24 * time.Second ->
  time.fle0 (time.Seconds d) = false /\
  time.int64_of_float64 (time.Seconds d) = d / time.Second.
Proof.
  intros Hd. unfold time.Seconds, time.Second in *.
  rewrite Z.quot_div_nonneg, Z.rem_mod_nonneg by lia.
  pose proof (Z.div_mod d 1000000000 ltac:(lia)) as Hdm.
  pose proof (Z.mod_pos_bound d 1000000000 ltac:(lia)) as Hmod.
  set (a := d / 1000000000) in *. set (b := d mod 1000000000) in *.
  assert (2 ^ 24 < 2 ^ 34) by reflexivity.
  assert (0 < 2 ^ 83) as H83 by reflexivity.
  assert (0 <= a < 2 ^ 24) as Ha by (change (2 ^ 24) with 16777216 in *; lia).
  destruct (Seconds_repr false a b ltac:(lia) ltac:(lia) ltac:(lia))
    as (v & Hv & Hb).
  simpl cond_Zopp in Hv. specialize (Hb ltac:(lia)).
  assert (v / 2 ^ 83 = a) as Hq.
  { symmetry. apply (Z.div_unique v (2 ^ 83) a (v - a * 2 ^ 83)); lia. }
  split.
  - destruct Hv as (m & e & -> & _). reflexivity.
  - rewrite (int64_of_float64_repr _ false v Hv); rewrite Hq; [done|].
    unfold maxInt64. change (2 ^ 24) with 16777216 in *. lia.
Qed.

(** A remaining time that is zero or negative tests [<= 0]. *)
Lemma Seconds_not_positive (d : Z) :
  minInt64 <= d <= 0 -> time.fle0 (time.Seconds d) = true.
Proof.
  intros Hd. destruct (Z.eq_dec d 0) as [->|Hd0]; [reflexivity|].
  unfold time.Seconds, time.Second, minInt64 in *.
  pose proof (Z.quot_opp_l (- d) 1000000000 ltac:(lia)) as Hq.
  pose proof (Z.rem_opp_l (- d) 1000000000 ltac:(lia)) as Hr.
  rewrite Z.opp_involutive in Hq, Hr. rewrite Hq, Hr.
  rewrite Z.quot_div_nonneg, Z.rem_mod_nonneg by lia.
  pose proof (Z.div_mod (- d) 1000000000 ltac:(lia)) as Hdm.
  pose proof (Z.mod_pos_bound (- d) 1000000000 ltac:(lia)) as Hmod.
  set (a := (- d) / 1000000000) in *. set (b := (- d) mod 1000000000) in *.
  assert (0 <= a < 2 ^ 34) as Ha.
  { change (2 ^ 34) with 17179869184. change (2 ^ 63) with 9223372036854775808 in *. lia. }
  destruct (Seconds_repr true a b ltac:(lia) ltac:(lia) ltac:(lia))
    as (v & (m & e & Hv & _) & _).
  simpl cond_Zopp in Hv. rewrite Hv. reflexivity.
Qed.

(** ** TTL *)

(** C8, as stated, fails: with 9.9 seconds left TTL answers 9, not 10, and
    with half a second left it answers 0. *)
Lemma ttl_truncates :
  snd (TTL db_9_9 0 "k") = 9 /\ snd (TTL db_9_9 0 "k") <> 10 /\
  snd (TTL db_9_9 9400000000 "k") = 0.
Proof. split; [|split]; vm_compute; congruence. Qed.

(** C8, amended.  TTL answers -2 when the key is absent, -1 when it has no
    expiry, -2 (and purges the key) when the expiry instant is not in the
    future, and otherwise, for a remaining time under 2^24 seconds, the
    whole seconds remaining: the float64 value of the remaining seconds is
    truncated toward zero by the conversion to [int64]. *)
Theorem ttl_cases (d : Database) (now : Z) (key : string) :
  (data d !! key = None -> TTL d now key = (d, -2)) /\
  (forall val, data d !! key = Some val -> expiry d !! key = None ->
     TTL d now key = (d, -1)) /\
  (forall val e, data d !! key = Some val -> expiry d !! key = Some e ->
     e <= now -> TTL d now key = (purge d key, -2)) /\
  (forall val e, data d !! key = Some val -> expiry d !! key = Some e ->
     now < e -> e - now < 2 ^ 24 * time.Second ->
     TTL d now key = (d, (e - now) / time.Second)).
Proof.
  unfold TTL. repeat split.
  - by intros ->.
  - by intros val -> ->.
  - intros val e -> -> He.
    rewrite Seconds_not_positive; [done|].
    unfold time.Sub, minInt64, maxInt64.
    destruct (Z.ltb_spec (e - now) (- 2 ^ 63)); [lia|].
    destruct (Z.ltb_spec (2 ^ 63 - 1) (e - now)); lia.
  - intros val e -> -> Hnow Hlt.
    assert (time.Sub e now = e - now) as ->.
    { unfold time.Sub, minInt64, maxInt64, time.Second in *.
      change (2 ^ 24) with 16777216 in Hlt.
      destruct (Z.ltb_spec (e - now) (- 2 ^ 63)); [lia|].
      destruct (Z.ltb_spec (2 ^ 63 - 1) (e - now)); lia. }
    destruct (Seconds_positive (e - now)) as [-> ->]; [lia|done].
Qed.

Lemma ttl_cases_witness :
  TTL NewDatabase 0 "k" = (NewDatabase, -2) /\
  TTL db_plain 0 "k" = (db_plain, -1) /\
  TTL db_stale 7 "k" = (purge db_stale "k", -2) /\
  TTL db_9_9 0 "k" = (db_9_9, (9900000000 - 0) / time.Second).
Proof.
  split; [|split; [|split]].
  - apply (proj1 (ttl_cases NewDatabase 0 "k")). reflexivity.
  - apply (proj1 (proj2 (ttl_cases db_plain 0 "k")) (string_value "v"));
      reflexivity.
  - apply (proj1 (proj2 (proj2 (ttl_cases db_stale 7 "k")))
             (string_value "v") 5); [reflexivity|reflexivity|lia].
  - apply (proj2 (proj2 (proj2 (ttl_cases db_9_9 0 "k")))
             (string_value "v") 9900000000);
      [reflexivity|reflexivity|lia|reflexivity].
Defined.

(** The bound of [ttl_cases] cannot be dropped: from 2^24 seconds on, the
    float64 sum [sec + nsec/1e9] can round up to the next whole second. *)
Lemma ttl_rounds_up_beyond_bound :
  16777216999999999 / time.Second = 16777216 /\
  snd (TTL db_far 0 "k") = 16777217.
Proof. split; vm_compute; reflexivity. Qed.

(** * More of the code *)

(** ** The database: the expiry index stays within the key space *)

Lemma purge_within (d : Database) (key : string) :
  expiry_within_data d -> expiry_within_data (purge d key).
Proof.
  intros H k. unfold purge; simpl.
  destruct (decide (k = key)) as [->|Hne].
  - rewrite lookup_delete_eq. by intros [? ?].
  - rewrite !lookup_delete_ne by done. apply H.
Qed.

Lemma Set_within (d : Database) (key value : string) :
  expiry_within_data d -> expiry_within_data (Set_ d key value).
Proof.
  intros H k. unfold Set_; simpl.
  destruct (decide (k = key)) as [->|Hne].
  - rewrite lookup_delete_eq. by intros [? ?].
  - rewrite lookup_delete_ne, lookup_insert_ne by done. apply H.
Qed.

Lemma Get_within (d : Database) (now : Z) (key : string) :
  expiry_within_data d -> expiry_within_data (fst (Get d now key)).
Proof.
  intros H. unfold Get. destruct (isExpired d now key); [by apply purge_within|].
  destruct (data d !! key); [|done]. by destruct (decide _).
Qed.

Lemma Del_within (d : Database) (key : string) :
  expiry_within_data d -> expiry_within_data (fst (Del d key)).
Proof.
  intros H. unfold Del. destruct (data d !! key); [by apply purge_within|done].
Qed.

Lemma Exists_within (d : Database) (now : Z) (key : string) :
  expiry_within_data d -> expiry_within_data (fst (Exists d now key)).
Proof.
  intros H. unfold Exists.
  destruct (isExpired d now key); [by apply purge_within|done].
Qed.

Lemma Expire_within (d : Database) (now : Z) (key : string) (seconds : Z) :
  expiry_within_data d -> expiry_within_data (fst (Expire d now key seconds)).
Proof.
  intros H. unfold Expire. destruct (data d !! key) eqn:Hk; [|done].
  intros k; simpl. destruct (decide (k = key)) as [->|Hne].
  - intros _. by rewrite Hk.
  - rewrite lookup_insert_ne by done. apply H.
Qed.

Lemma TTL_within (d : Database) (now : Z) (key : string) :
  expiry_within_data d -> expiry_within_data (fst (TTL d now key)).
Proof.
  intros H. unfold TTL. destruct (data d !! key); [|done].
  destruct (expiry d !! key); [|done].
  destruct (time.fle0 _); [by apply purge_within|done].
Qed.

Lemma HSet_within (d : Database) (key field value : string) :
  expiry_within_data d -> expiry_within_data (HSet d key field value).
Proof.
  intros H k Hk. unfold HSet in *; simpl in *.
  destruct (decide (k = key)) as [->|Hne].
  - by rewrite lookup_insert_eq.
  - rewrite lookup_insert_ne by done. by apply H.
Qed.

Lemma HDel_within (d : Database) (key field : string) :
  expiry_within_data d -> expiry_within_data (fst (HDel d key field)).
Proof.
  intros H. unfold HDel. destruct (data d !! key) as [val|] eqn:Hk; [|done].
  destruct (decide _); [|done]. destruct (HashVal val !! field); [|done].
  intros k Hx; simpl in *. destruct (decide (k = key)) as [->|Hne].
  - by rewrite lookup_insert_eq.
  - rewrite lookup_insert_ne by done. by apply H.
Qed.

(** The counting loops keep what every step keeps. *)
Lemma count_loop_keeps (P : Database -> Prop)
      (step : Database -> string -> Database * bool) :
  (forall d k, P d -> P (fst (step d k))) ->
  forall keys d, P d -> P (fst (count_loop step d keys)).
Proof.
  intros Hstep keys d Hd. unfold count_loop.
  generalize 0. revert d Hd.
  induction keys as [|k keys IH]; intros d Hd c; simpl; [done|].
  specialize (Hstep d k Hd). destruct (step d k) as [d' hit]. by apply IH.
Qed.

Lemma dispatch_within (command : string) (d : Database) (now : Z)
      (args : list string) :
  expiry_within_data d ->
  expiry_within_data (fst (dispatch command d now args)).
Proof.
  intros H. unfold dispatch.
  repeat (match goal with
          | |- context [if String.eqb command ?v then _ else _] =>
              destruct (String.eqb command v)
          end); simpl; try done.
  - unfold handleSet. destruct args as [|key [|value rest]]; simpl; try done.
    by apply Set_within.
  - unfold handleGet. destruct args as [|key [|? ?]]; simpl; try done.
    pose proof (Get_within d now key H) as Hg.
    by destruct (Get d now key) as [d' [v|]].
  - unfold handleDel. destruct args as [|key rest]; [done|].
    pose proof (count_loop_keeps _ Del Del_within (key :: rest) d H) as Hc.
    by destruct (count_loop Del d (key :: rest)).
  - unfold handleExists. destruct args as [|key rest]; [done|].
    pose proof (count_loop_keeps _ (fun d k => Exists d now k)
                  (fun d k => Exists_within d now k) (key :: rest) d H) as Hc.
    by destruct (count_loop _ d (key :: rest)).
  - unfold handleExpire. destruct args as [|key [|secs [|? ?]]]; simpl; try done.
    destruct (strconv.Atoi secs) as [seconds|]; [|done].
    pose proof (Expire_within d now key seconds H) as He.
    by destruct (Expire d now key seconds) as [d' []].
  - unfold handleTTL. destruct args as [|key [|? ?]]; simpl; try done.
    pose proof (TTL_within d now key H) as Ht.
    by destruct (TTL d now key).
  - unfold handleHSet. destruct args as [|key [|f [|v [|? ?]]]]; simpl; try done.
    by apply HSet_within.
  - unfold handleHDel. destruct args as [|key [|f rest]]; simpl; try done.
    pose proof (count_loop_keeps _ (fun d k => HDel d key k)
                  (fun d k => HDel_within d key k) (f :: rest) d H) as Hc.
    by destruct (count_loop _ d (f :: rest)).
  - unfold handleIncr. destruct args as [|key [|? ?]]; simpl; try done.
    pose proof (Get_within d now key H) as Hg.
    destruct (Get d now key) as [d' [v|]]; simpl in Hg.
    + destruct (strconv.ParseInt v); [by apply Set_within|done].
    + by apply Set_within.
  - unfold handleDecr. destruct args as [|key [|? ?]]; simpl; try done.
    pose proof (Get_within d now key H) as Hg.
    destruct (Get d now key) as [d' [v|]]; simpl in Hg.
    + destruct (strconv.ParseInt v); [by apply Set_within|done].
    + by apply Set_within.
Qed.

Lemma executeCommand_within (s : Server) (now : Z) (cmd : RESPValue) :
  expiry_within_data (db s) ->
  expiry_within_data (db (fst (executeCommand s now cmd))).
Proof.
  intros H. unfold executeCommand.
  destruct (protocol.Type_ cmd); try done.
  destruct (Array_ cmd) as [|verb rest]; [done|].
  pose proof (dispatch_within (strings.ToUpper (Str verb)) (db s) now
                (map Str rest) H) as Hd.
  by destruct (dispatch _ _ _ _).
Qed.

Lemma serve_within (fuel : nat) :
  forall s clock n r,
    expiry_within_data (db s) ->
    expiry_within_data (db (fst (fst (serve fuel s clock n r)))).
Proof.
  induction fuel as [|fuel IH]; intros s clock n r H; simpl; [done|].
  destruct (readRESPArray r) as [[|w ws] rest|e rest|]; try done.
  - specialize (IH s clock (S n) rest H).
    by destruct (serve fuel s clock (S n) rest) as [[s' out] fin].
  - pose proof (executeCommand_within s (clock n) (request (w :: ws)) H) as He.
    destruct (executeCommand s (clock n) (request (w :: ws))) as [s1 resp].
    specialize (IH s1 clock (S n) rest He).
    by destruct (serve fuel s1 clock (S n) rest) as [[s' out] fin].
  - specialize (IH s clock (S n) rest H).
    destruct e; try done;
      by destruct (serve fuel s clock (S n) rest) as [[s' out] fin].
Qed.

(** X1.  Whatever bytes a client sends, the commands of a connection leave
    every key of the expiry index with a value in the key space, when that
    held before: no command sets or keeps an expiry on a key it removed. *)
Theorem connection_keeps_expiry_within_data
        (s : Server) (clock : nat -> Z) (r : Reader) :
  expiry_within_data (db s) ->
  expiry_within_data (db (fst (fst (handleConnection s clock r)))).
Proof. apply serve_within. Qed.

Lemma connection_keeps_expiry_within_data_witness :
  expiry_within_data
    (db (fst (fst (handleConnection (NewServer empty_disk) (fun _ => 0)
                                    bad_byte_then_ping)))).
Proof.
  apply (connection_keeps_expiry_within_data (NewServer empty_disk)
           (fun _ => 0) bad_byte_then_ping).
  intros k. simpl. rewrite lookup_empty. by intros [? ?].
Defined.

(** ** SET and GET *)

(** X2.  SET (any arguments after the value are ignored) followed by GET at
    any later time answers the value and GET changes nothing; the key is a
    string now, so HGET finds no field in it; every other key keeps its value
    and its expiry. *)
Theorem set_then_get (d : Database) (key value : string) (extra : list string)
        (now : Z) (field other : string) :
  let d' := fst (handleSet d (key :: value :: extra)) in
  snd (handleSet d (key :: value :: extra)) = simple "OK" /\
  handleGet d' now [key] = (d', bulk value) /\
  handleHGet d' now [key; field] = null_bulk /\
  (other <> key ->
   data d' !! other = data d !! other /\ expiry d' !! other = expiry d !! other).
Proof.
  simpl. split; [done|]. split.
  { unfold handleGet. by rewrite Get_Set. }
  split.
  { unfold handleHGet, HGet, isExpired, Set_; simpl.
    by rewrite lookup_delete_eq, lookup_insert_eq. }
  intros Hne. unfold Set_; simpl.
  by rewrite lookup_insert_ne, lookup_delete_ne.
Qed.

Lemma set_then_get_witness :
  data (fst (handleSet db_counter ["k"; "v"]%string)) !! "n"%string
  = data db_counter !! "n"%string /\
  expiry (fst (handleSet db_counter ["k"; "v"]%string)) !! "n"%string
  = expiry db_counter !! "n"%string.
Proof.
  apply (set_then_get db_counter "k" "v" [] 0 "f" "n"). discriminate.
Defined.

(** ** DEL *)

Lemma if_elem_of_cons {A : Type} (k k0 : string) (keys : list string)
      (x : option A) :
  (if decide (k ∈ k0 :: keys) then None else x)
  = (if decide (k = k0) then None
     else if decide (k ∈ keys) then None else x).
Proof.
  destruct (decide (k = k0)) as [->|Hne].
  - destruct (decide (k0 ∈ k0 :: keys)) as [|Hn]; [done|]. destruct Hn. by left.
  - destruct (decide (k ∈ keys)) as [Hi|Hi];
      destruct (decide (k ∈ k0 :: keys)) as [Hj|Hj]; try done.
    + destruct Hj. by right.
    + apply elem_of_cons in Hj as [?|?]; done.
Qed.

Lemma Del_loop (keys : list string) :
  forall d c d' n,
    foldl (fun acc key =>
             let '(d', hit) := Del (fst acc) key in
             (d', if hit then snd acc + 1 else snd acc))
          (d, c) keys = (d', n) ->
    (forall k, data d' !! k
               = if decide (k ∈ keys) then None else data d !! k) /\
    (forall k, k ∉ keys -> expiry d' !! k = expiry d !! k) /\
    n = c + Z.of_nat (size (data d)) - Z.of_nat (size (data d')).
Proof.
  induction keys as [|k0 keys IH]; intros d c d' n E; simpl in E.
  { injection E as <- <-. split; [|split; [done|lia]]. intros k.
    destruct (decide (k ∈ [])) as [Hin|]; [|done]. by apply elem_of_nil in Hin. }
  unfold Del in E at 2. destruct (data d !! k0) as [v|] eqn:Hk0; simpl in E.
  - assert (Z.of_nat (size (data (purge d k0)))
            = Z.of_nat (size (data d)) - 1) as Hsz.
    { simpl. rewrite map_size_delete_Some by (by eexists).
      destruct (size (data d)) as [|m] eqn:Hz; [|simpl; lia].
      apply map_size_empty_inv in Hz. rewrite Hz in Hk0.
      by rewrite lookup_empty in Hk0. }
    destruct (IH _ _ _ _ E) as (Hdat & Hexp & Hcnt).
    split; [|split; [|lia]].
    + intros k. rewrite Hdat, if_elem_of_cons. simpl.
      destruct (decide (k = k0)) as [->|Hne].
      * rewrite lookup_delete_eq. by destruct (decide _).
      * by rewrite lookup_delete_ne.
    + intros k Hk. rewrite Hexp by (intros ?; apply Hk; by right). simpl.
      apply lookup_delete_ne. intros ->. apply Hk. by left.
  - destruct (IH _ _ _ _ E) as (Hdat & Hexp & Hcnt).
    split; [|split; [|done]].
    + intros k. rewrite Hdat, if_elem_of_cons.
      destruct (decide (k = k0)) as [->|Hne]; [|done].
      rewrite Hk0. by destruct (decide _).
    + intros k Hk. apply Hexp. intros ?. apply Hk. by right.
Qed.

Lemma Del_loop_absent (keys : list string) :
  forall d c,
    (forall k, k ∈ keys -> data d !! k = None) ->
    foldl (fun acc key =>
             let '(d', hit) := Del (fst acc) key in
             (d', if hit then snd acc + 1 else snd acc))
          (d, c) keys = (d, c).
Proof.
  induction keys as [|k0 keys IH]; intros d c Hgone; simpl; [done|].
  unfold Del at 2. rewrite Hgone by (by left). simpl.
  apply IH. intros k Hk. apply Hgone. by right.
Qed.

Lemma Del_loop_expiry (keys : list string) :
  forall d c d' n,
    foldl (fun acc key =>
             let '(d', hit) := Del (fst acc) key in
             (d', if hit then snd acc + 1 else snd acc))
          (d, c) keys = (d', n) ->
    forall k, expiry d' !! k
              = if decide (k ∈ keys /\ is_Some (data d !! k)) then None
                else expiry d !! k.
Proof.
  induction keys as [|k0 keys IH]; intros d c d' n E k; simpl in E.
  { injection E as <- <-. destruct (decide _) as [[Hin _]|]; [|done].
    by apply elem_of_nil in Hin. }
  unfold Del in E at 2. destruct (data d !! k0) as [v|] eqn:Hk0; simpl in E.
  - rewrite (IH _ _ _ _ E k). cbn [purge data expiry].
    destruct (decide (k = k0)) as [->|Hne].
    + rewrite !lookup_delete_eq.
      destruct (decide (k0 ∈ keys /\ is_Some (@None Value))) as [[_ [? ?]]|];
        [done|].
      destruct (decide (k0 ∈ k0 :: keys /\ is_Some (data d !! k0))) as [|Hn];
        [done|].
      destruct Hn. split; [by left|by rewrite Hk0].
    + rewrite !lookup_delete_ne by done.
      destruct (decide (k ∈ keys /\ is_Some (data d !! k))) as [[Hi Hs]|Hn];
        destruct (decide (k ∈ k0 :: keys /\ is_Some (data d !! k)))
        as [[Hi' Hs']|Hn']; try done.
      * destruct Hn'. split; [by right|done].
      * destruct Hn. split; [|done].
        by apply elem_of_cons in Hi' as [?|?].
  - rewrite (IH _ _ _ _ E k).
    destruct (decide (k ∈ keys /\ is_Some (data d !! k))) as [[Hi Hs]|Hn];
      destruct (decide (k ∈ k0 :: keys /\ is_Some (data d !! k)))
      as [[Hi' Hs']|Hn']; try done.
    + destruct Hn'. split; [by right|done].
    + destruct Hn. split; [|done].
      apply elem_of_cons in Hi' as [->|?]; [|done].
      rewrite Hk0 in Hs'. by destruct Hs'.
Qed.

(** X3.  DEL with at least one key removes every named key from the data
    map, and with it its entry in the expiry index; a named key that had no
    value keeps the expiry entry it had, and there is none when every expiry
    entry has a value.  Every other key keeps its value and its expiry.  The
    answer is the number of keys removed: the size of the data map before
    minus the size after.  The same DEL again answers 0 and changes
    nothing. *)
Theorem del_counts_removed (d : Database) (key : string) (keys : list string) :
  let d' := fst (handleDel d (key :: keys)) in
  (forall k, k ∈ key :: keys ->
     data d' !! k = None /\
     expiry d' !! k = match data d !! k with
                      | Some _ => None
                      | None => expiry d !! k
                      end) /\
  (expiry_within_data d ->
   forall k, k ∈ key :: keys -> expiry d' !! k = None) /\
  (forall k, k ∉ key :: keys ->
     data d' !! k = data d !! k /\ expiry d' !! k = expiry d !! k) /\
  snd (handleDel d (key :: keys))
  = integer (Z.of_nat (size (data d)) - Z.of_nat (size (data d'))) /\
  handleDel d' (key :: keys) = (d', integer 0).
Proof.
  unfold handleDel, count_loop.
  destruct (foldl _ (d, 0) (key :: keys)) as [d' n] eqn:E.
  destruct (Del_loop (key :: keys) d 0 d' n E) as (Hdat & Hexp & Hcnt).
  pose proof (Del_loop_expiry (key :: keys) d 0 d' n E) as Hexp'.
  cbn [fst snd].
  assert (forall k, k ∈ key :: keys -> data d' !! k = None) as Hgone.
  { intros k Hk. rewrite Hdat. by destruct (decide _). }
  assert (forall k, k ∈ key :: keys ->
            expiry d' !! k = match data d !! k with
                             | Some _ => None
                             | None => expiry d !! k
                             end) as Hnamed.
  { intros k Hk. rewrite Hexp'.
    destruct (data d !! k) as [v|] eqn:Hv.
    - destruct (decide _) as [|Hn]; [done|]. destruct Hn. by split.
    - destruct (decide _) as [[_ [? ?]]|]; done. }
  split; [intros k Hk; split; [by apply Hgone|by apply Hnamed]|].
  split.
  { intros Hin k Hk. rewrite Hnamed by done.
    destruct (data d !! k) as [v|] eqn:Hv; [done|].
    destruct (expiry d !! k) as [e|] eqn:He; [|done].
    destruct (Hin k) as [v Hv']; [by rewrite He|]. congruence. }
  split.
  { intros k Hk. split; [|by apply Hexp].
    rewrite Hdat. by destruct (decide _). }
  split; [rewrite Hcnt; f_equal; lia|].
  by rewrite Del_loop_absent.
Qed.

Lemma del_counts_removed_witness :
  expiry (fst (handleDel db_stale ["k"; "k"; "x"]%string)) !! "k"%string = None.
Proof.
  apply (proj1 (proj2 (del_counts_removed db_stale "k" ["k"; "x"]%string))).
  - intros k. unfold db_stale. cbn [data expiry].
    destruct (decide (k = "k"%string)) as [->|Hk].
    + intros _. by rewrite lookup_singleton_eq.
    + rewrite lookup_singleton_ne by done. by intros [? ?].
  - by left.
Defined.

(** ** Lazy expiry *)

(** X4.  No read observes a key whose expiry instant has passed: GET and
    HGET answer nothing, EXISTS answers false, KEYS does not list the key and
    TTL answers -2; GET, EXISTS and TTL purge the key from both tables. *)
Theorem expired_key_is_never_observed (d : Database) (now : Z) (key : string)
        (val : Value) (e : Z) (field : string) (order : list string) :
  data d !! key = Some val -> expiry d !! key = Some e -> e < now ->
  Get d now key = (purge d key, None) /\
  Exists d now key = (purge d key, false) /\
  HGet d now key field = None /\
  (key ∉ Keys_in order d now) /\
  TTL d now key = (purge d key, -2).
Proof.
  intros Hk He Hlt.
  assert (isExpired d now key = true) as Hx.
  { unfold isExpired, time.After. rewrite He. apply Z.ltb_lt. lia. }
  unfold Get, Exists, HGet, Keys_in, TTL. rewrite Hx, Hk, He.
  repeat split; try done.
  - rewrite list_elem_of_filter. intros [Hf _]. congruence.
  - rewrite Seconds_not_positive; [done|].
    unfold time.Sub, minInt64, maxInt64.
    destruct (Z.ltb_spec (e - now) (- 2 ^ 63)); [lia|].
    destruct (Z.ltb_spec (2 ^ 63 - 1) (e - now)); lia.
Qed.

Lemma expired_key_is_never_observed_witness :
  Get db_stale 7 "k" = (purge db_stale "k", None) /\
  Exists db_stale 7 "k" = (purge db_stale "k", false) /\
  HGet db_stale 7 "k" "f" = None /\
  ("k"%string ∉ Keys_in ["k"%string] db_stale 7) /\
  TTL db_stale 7 "k" = (purge db_stale "k", -2).
Proof.
  apply (expired_key_is_never_observed db_stale 7 "k" (string_value "v") 5 "f"
           ["k"%string]); [reflexivity|reflexivity|lia].
Defined.

(** ** The sweeper *)

Lemma foldl_purge (keys : list string) :
  forall d k,
    data (foldl purge d keys) !! k
    = (if decide (k ∈ keys) then None else data d !! k) /\
    expiry (foldl purge d keys) !! k
    = (if decide (k ∈ keys) then None else expiry d !! k).
Proof.
  induction keys as [|k0 keys IH]; intros d k; simpl.
  { destruct (decide (k ∈ [])) as [Hin|]; [|done]. by apply elem_of_nil in Hin. }
  destruct (IH (purge d k0) k) as [-> ->]. rewrite !if_elem_of_cons. simpl.
  destruct (decide (k = k0)) as [->|Hne].
  - rewrite !lookup_delete_eq. by destruct (decide _).
  - by rewrite !lookup_delete_ne.
Qed.

Lemma cleanupExpired_lookup (d : Database) (now : Z) (k : string) :
  data (cleanupExpired d now) !! k
  = (if isExpired d now k then None else data d !! k) /\
  expiry (cleanupExpired d now) !! k
  = (if isExpired d now k then None else expiry d !! k).
Proof.
  unfold cleanupExpired.
  set (keys := map fst (filter _ (map_to_list (expiry d)))).
  assert (k ∈ keys <-> isExpired d now k = true) as Hin.
  { unfold keys, isExpired. rewrite list_elem_of_fmap. split.
    - intros [[k' e] [-> Hf]]. apply list_elem_of_filter in Hf as [Ha Hm].
      apply elem_of_map_to_list in Hm. simpl in *. by rewrite Hm.
    - destruct (expiry d !! k) as [e|] eqn:He; [|done]. intros Ha.
      exists (k, e). split; [done|]. apply list_elem_of_filter.
      split; [done|]. by apply elem_of_map_to_list. }
  destruct (foldl_purge keys d k) as [Hd He]. rewrite Hd, He.
  destruct (decide (k ∈ keys)) as [Hi|Hi].
  - apply Hin in Hi. by rewrite Hi.
  - destruct (isExpired d now k); [|done]. destruct Hi. by apply Hin.
Qed.

(** X5.  One pass of the sweeper removes from both tables exactly the keys
    whose expiry instant has passed and leaves every other entry as it was;
    after the pass no key is expired at that instant. *)
Theorem cleanupExpired_removes_exactly_expired (d : Database) (now : Z)
        (k : string) :
  data (cleanupExpired d now) !! k
  = (if isExpired d now k then None else data d !! k) /\
  expiry (cleanupExpired d now) !! k
  = (if isExpired d now k then None else expiry d !! k) /\
  isExpired (cleanupExpired d now) now k = false.
Proof.
  destruct (cleanupExpired_lookup d now k) as [Hd He].
  split; [exact Hd|]. split; [exact He|].
  unfold isExpired at 1. rewrite He.
  destruct (isExpired d now k) eqn:Hx; [done|].
  unfold isExpired in Hx. by destruct (expiry d !! k).
Qed.

(** ** KEYS *)

(** X6.  For every order in which Go may range over the key space, KEYS
    lists each key that has a value and is not expired, once, and no other
    key. *)
Theorem keys_lists_live_keys_once (d : Database) (now : Z)
        (order : list string) (k : string) :
  key_order d order ->
  NoDup (Keys_in order d now) /\
  (k ∈ Keys_in order d now <->
   is_Some (data d !! k) /\ isExpired d now k = false).
Proof.
  intros Hord. unfold Keys_in. split.
  - apply NoDup_filter. rewrite Hord. apply NoDup_fst_map_to_list.
  - rewrite list_elem_of_filter, Hord, list_elem_of_fmap. split.
    + intros [He [[k' v] [-> Hm]]]. apply elem_of_map_to_list in Hm.
      split; [by eexists|done].
    + intros [[v Hv] He]. split; [done|]. exists (k, v). split; [done|].
      by apply elem_of_map_to_list.
Qed.

Lemma keys_lists_live_keys_once_witness :
  NoDup (Keys_in order_mixed db_mixed 0) /\
  ("s"%string ∈ Keys_in order_mixed db_mixed 0 <->
   is_Some (data db_mixed !! "s"%string) /\ isExpired db_mixed 0 "s" = false).
Proof.
  apply (keys_lists_live_keys_once db_mixed 0 order_mixed "s").
  unfold key_order. vm_compute map. apply Permutation_swap.
Defined.

(** ** TTL on every live key *)

(** The sum of [add_same_sign] without the bound on the seconds: the result
    is at most one whole second above. *)
Lemma add_same_sign_wide (s : bool) (x y : spec_float) (sec Y : Z) :
  repr x s (sec * 2 ^ 83) -> repr y s Y ->
  1 <= sec < 2 ^ 34 -> 0 < Y < 2 ^ 83 ->
  exists v,
    repr (SFadd 53 1024 x y) s v /\
    sec * 2 ^ 83 <= v < (sec + 2) * 2 ^ 83.
Proof.
  intros (m1 & e1 & -> & _ & He1 & Hv1) (m2 & e2 & -> & _ & He2 & Hv2) Hsec HY.
  rewrite SFadd_same_sign.
  set (ez := Z.min e1 e2).
  pose proof (shl_align_le m1 e1 ez ltac:(unfold ez; lia)) as [Ha _].
  pose proof (shl_align_le m2 e2 ez ltac:(unfold ez; lia)) as [Hb _].
  set (pM := (fst (shl_align m1 e1 ez) + fst (shl_align m2 e2 ez))%positive).
  assert (-83 <= ez) as Hez by (unfold ez; lia).
  set (T := 2 ^ (ez + 83)).
  assert (0 < T) as HT by pow2_pos.
  assert (Z.pos pM * T = sec * 2 ^ 83 + Y) as HM.
  { unfold pM. rewrite Pos2Z.inj_add, Ha, Hb, <- Hv1, <- Hv2. unfold T.
    replace (e1 + 83) with ((e1 - ez) + (ez + 83)) by lia.
    replace (e2 + 83) with ((e2 - ez) + (ez + 83)) by lia.
    rewrite (pow2_split (e1 - ez)), (pow2_split (e2 - ez))
      by (unfold ez; lia).
    ring. }
  clearbody pM. clear Ha Hb Hv1 Hv2.
  pose proof (digits2_bounds pM) as [Hd1 Hd2].
  set (d := Z.pos (digits2_pos pM)) in *.
  assert (1 <= d) as Hd by (unfold d; lia).
  assert (0 < 2 ^ (d - 1)) as Hpd by pow2_pos.
  assert (0 < 2 ^ 83) as H83 by reflexivity.
  assert (1 <= d + ez < 36) as Hdez.
  { split.
    - assert (83 < d + (ez + 83)); [|lia].
      apply (Z.pow_lt_mono_r_iff 2); [lia|lia|].
      rewrite pow2_split by lia. fold T.
      assert (2 ^ 83 <= Z.pos pM * T) by nia. nia.
    - assert ((d - 1) + (ez + 83) < 35 + 83); [|lia].
      apply (Z.pow_lt_mono_r_iff 2); [lia|lia|].
      rewrite !pow2_split by lia. fold T.
      change (2 ^ 34) with 17179869184 in Hsec.
      change (2 ^ 35) with 34359738368. nia. }
  destruct (br_normal s pM ez) as (m & e & Hr & Hdig & Hc); fold d; try lia.
  fold d in Hc. rewrite Hr. exists (Z.pos m * 2 ^ (e + 83)).
  destruct Hc as [(Hsmall & He & Hv)|(Hlarge & He & Hv)].
  - split; [exists m, e; repeat split; [exact Hdig|lia]|].
    assert (Z.pos m * 2 ^ (e + 83) = Z.pos pM * T) as ->; [|lia].
    unfold T.
    replace (e + 83) with ((e - (d + ez - 53)) + (d + ez + 30)) by lia.
    rewrite pow2_split by lia. rewrite Z.mul_assoc, Hv.
    rewrite <- Z.mul_assoc, <- pow2_split by lia. do 2 f_equal. lia.
  - split; [exists m, e; repeat split; [exact Hdig|lia]|].
    set (n := d - 53) in *.
    set (N := 2 ^ n).
    assert (0 < N) as HN by pow2_pos.
    assert (N = 2 * 2 ^ (n - 1)) as HN2.
    { unfold N. replace n with (Z.succ (n - 1)) at 1 by lia.
      apply Z.pow_succ_r. lia. }
    assert (0 < 2 ^ (n - 1)) as HN1 by pow2_pos.
    set (G := 2 ^ (- (ez + n))).
    assert (0 < G) as HG by pow2_pos.
    assert (N * T * G = 2 ^ 83) as HNTG.
    { unfold N, T, G. rewrite <- !pow2_split by lia. f_equal. lia. }
    assert (2 ^ (n - 1) * T <= 2 ^ 83) as Hhalf.
    { unfold T. rewrite <- pow2_split by lia. apply Z.pow_le_mono_r; lia. }
    set (k := Z.pos m * 2 ^ (e - (ez + n))) in *.
    assert (Z.pos m * 2 ^ (e + 83) = k * (N * T)) as ->.
    { unfold k, N, T.
      replace (e + 83) with ((e - (ez + n)) + (n + (ez + 83))) by lia.
      rewrite (pow2_split (e - (ez + n))) by lia.
      rewrite (pow2_split n) by lia. ring. }
    pose proof (Z.div_mod (Z.pos pM) N ltac:(lia)) as Hdm.
    pose proof (Z.mod_pos_bound (Z.pos pM) N HN) as Hmod.
    fold N in Hv.
    set (q := Z.pos pM / N) in *. set (r := Z.pos pM mod N) in *.
    clearbody q r k.
    assert (sec * G <= q) as Hlow.
    { assert (sec * G * N <= Z.pos pM) by nia. nia. }
    split.
    + assert (q <= k) by (destruct Hv as [->|[-> _]]; lia). nia.
    + assert (k * N <= Z.pos pM + 2 ^ (n - 1)) as Hup.
      { destruct Hv as [->|[-> Hc]]; nia. }
      nia.
Qed.

Lemma Seconds_repr_wide (a b : Z) :
  0 <= a < 2 ^ 34 -> 0 <= b < 1000000000 -> 0 < a + b ->
  exists v,
    repr (time.fadd (time.float64_of_int a)
            (time.fdiv (time.float64_of_int b)
                       (time.float64_of_int 1000000000)))
         false v /\
    a * 2 ^ 83 <= v < (a + 2) * 2 ^ 83.
Proof.
  intros Ha Hb Hab. rewrite float64_of_int_1e9.
  assert (0 < 2 ^ 83) as H83 by reflexivity.
  assert (2 ^ 34 < 2 ^ 53) as H34 by reflexivity.
  assert (1000000000 < 2 ^ 53) as H9 by reflexivity.
  destruct (Z.eq_dec b 0) as [->|Hb0].
  - change (time.fdiv (time.float64_of_int 0) (S754_finite false m1e9 (-23)))
      with (S754_zero false).
    pose proof (float64_of_int_signed false a ltac:(lia)) as Hx.
    simpl cond_Zopp in Hx.
    exists (a * 2 ^ 83). split; [|lia].
    destruct Hx as (m & e & Hx & Hrest). rewrite Hx.
    change (time.fadd (S754_finite false m e) (S754_zero false))
      with (S754_finite false m e).
    by exists m, e.
  - pose proof (float64_of_int_signed false b ltac:(lia))
      as (mb & eb & Hy & Hdb & Heb & Hvb).
    simpl cond_Zopp in Hy. rewrite Hy.
    destruct (div_1e9 false mb eb b Hdb Heb Hvb ltac:(lia))
      as (frs & Hf & Hf0 & Hf1).
    change (time.fdiv (S754_finite false mb eb) (S754_finite false m1e9 (-23)))
      with (SFdiv 53 1024 (S754_finite false mb eb)
                  (S754_finite false m1e9 (-23))).
    destruct (Z.eq_dec a 0) as [->|Ha0].
    + exists frs. split; [|lia].
      destruct Hf as (m & e & Hf & Hrest). rewrite Hf.
      change (time.fadd (time.float64_of_int 0) (S754_finite false m e))
        with (S754_finite false m e).
      by exists m, e.
    + pose proof (float64_of_int_signed false a ltac:(lia)) as Hx.
      simpl cond_Zopp in Hx.
      destruct (add_same_sign_wide false _ _ a frs Hx Hf ltac:(lia) ltac:(lia))
        as (v & Hv & Hbound).
      by exists v.
Qed.

(** Every positive [Duration]: the seconds test positive, and convert to
    the whole seconds or to one more. *)
Lemma Seconds_live (d : Z) :
  0 < d <= maxInt64 ->
  time.fle0 (time.Seconds d) = false /\
  d / time.Second <= time.int64_of_float64 (time.Seconds d)
  <= d / time.Second + 1.
Proof.
  intros Hd. unfold time.Seconds, time.Second, maxInt64 in *.
  rewrite Z.quot_div_nonneg, Z.rem_mod_nonneg by lia.
  pose proof (Z.div_mod d 1000000000 ltac:(lia)) as Hdm.
  pose proof (Z.mod_pos_bound d 1000000000 ltac:(lia)) as Hmod.
  set (a := d / 1000000000) in *. set (b := d mod 1000000000) in *.
  assert (0 < 2 ^ 83) as H83 by reflexivity.
  assert (0 <= a < 2 ^ 34) as Ha.
  { change (2 ^ 34) with 17179869184.
    change (2 ^ 63) with 9223372036854775808 in *. lia. }
  destruct (Seconds_repr_wide a b ltac:(lia) ltac:(lia) ltac:(lia))
    as (v & Hv & Hb).
  assert (a <= v / 2 ^ 83 <= a + 1) as Hq.
  { split.
    - apply Z.div_le_lower_bound; lia.
    - assert (v / 2 ^ 83 < a + 2); [|lia].
      apply Z.div_lt_upper_bound; lia. }
  split.
  - destruct Hv as (m & e & -> & _). reflexivity.
  - rewrite (int64_of_float64_repr _ false v Hv).
    + simpl cond_Zopp. lia.
    + unfold maxInt64. change (2 ^ 34) with 17179869184 in *. lia.
Qed.

Lemma Sub_live (e now : Z) : now < e -> 0 < time.Sub e now <= maxInt64.
Proof.
  intros H. unfold time.Sub, minInt64, maxInt64.
  destruct (Z.ltb_spec (e - now) (- 2 ^ 63)); [lia|].
  destruct (Z.ltb_spec (2 ^ 63 - 1) (e - now)); lia.
Qed.

(** X7.  TTL never purges and never answers a negative number for a key
    whose expiry instant is still to come, however far: the database is
    unchanged and the answer is the whole seconds of the remaining time
    (saturated at the largest [Duration]) or one more. *)
Theorem ttl_of_live_key (d : Database) (now : Z) (key : string)
        (val : Value) (e : Z) :
  data d !! key = Some val -> expiry d !! key = Some e -> now < e ->
  fst (TTL d now key) = d /\
  time.Sub e now / time.Second <= snd (TTL d now key)
  <= time.Sub e now / time.Second + 1.
Proof.
  intros Hk He Hlt. unfold TTL. rewrite Hk, He.
  destruct (Seconds_live (time.Sub e now) (Sub_live e now Hlt)) as [-> Hb].
  done.
Qed.

Lemma ttl_of_live_key_witness :
  fst (TTL db_far 0 "k") = db_far /\
  time.Sub 16777216999999999 0 / time.Second <= snd (TTL db_far 0 "k")
  <= time.Sub 16777216999999999 0 / time.Second + 1.
Proof.
  apply (ttl_of_live_key db_far 0 "k" (string_value "v") 16777216999999999);
    [reflexivity|reflexivity|lia].
Defined.

(** ** EXPIRE, then TTL *)

(** X8.  EXPIRE with a count of seconds between 1 and 2^24 on a key that
    has a value answers 1 and replaces whatever expiry the key had.  TTL
    then answers the whole seconds that are left: the count itself at the
    instant of the EXPIRE, never more than the count and never negative
    before the instant of expiry, and -2 from that instant on. *)
Theorem expire_then_ttl (d : Database) (now : Z) (key : string) (val : Value)
        (secs : string) (seconds elapsed : Z) :
  data d !! key = Some val ->
  strconv.Atoi secs = Ok seconds -> 0 < seconds < 2 ^ 24 -> 0 <= elapsed ->
  let d' := fst (handleExpire d now [key; secs]) in
  snd (handleExpire d now [key; secs]) = integer 1 /\
  snd (handleTTL d' now [key]) = integer seconds /\
  snd (handleTTL d' (now + elapsed) [key])
  = integer (if elapsed <? seconds * time.Second
             then (seconds * time.Second - elapsed) / time.Second
             else -2) /\
  (elapsed < seconds * time.Second ->
   0 <= (seconds * time.Second - elapsed) / time.Second <= seconds).
Proof.
  intros Hk Hs Hsec Hel.
  assert (handleExpire d now [key; secs]
          = (mkDatabase (data d)
               (<[key := now + seconds * time.Second]> (expiry d)),
             integer 1)) as Hx.
  { unfold handleExpire, Expire. rewrite Hs, Hk. unfold time.Add.
    rewrite seconds_to_Duration_small; [done|].
    change (2 ^ 24) with 16777216 in Hsec. lia. }
  rewrite Hx. cbn [fst snd]. split; [done|].
  assert (forall el, 0 <= el ->
            snd (handleTTL
                   (mkDatabase (data d)
                      (<[key := now + seconds * time.Second]> (expiry d)))
                   (now + el) [key])
            = integer (if el <? seconds * time.Second
                       then (seconds * time.Second - el) / time.Second
                       else -2)) as Httl.
  { intros el Hel0. unfold handleTTL, TTL. cbn [data expiry].
    rewrite Hk, lookup_insert_eq.
    destruct (Z.ltb_spec el (seconds * time.Second)) as [Hlt|Hge].
    - assert (time.Sub (now + seconds * time.Second) (now + el)
              = seconds * time.Second - el) as ->.
      { unfold time.Sub, minInt64, maxInt64, time.Second in *.
        change (2 ^ 24) with 16777216 in Hsec.
        replace (now + seconds * 1000000000 - (now + el))
          with (seconds * 1000000000 - el) by lia.
        destruct (Z.ltb_spec (seconds * 1000000000 - el) (- 2 ^ 63)); [lia|].
        destruct (Z.ltb_spec (2 ^ 63 - 1) (seconds * 1000000000 - el)); lia. }
      destruct (Seconds_positive (seconds * time.Second - el)) as [-> ->];
        [|done].
      unfold time.Second in *. change (2 ^ 24) with 16777216 in *. lia.
    - rewrite Seconds_not_positive; [done|].
      unfold time.Sub, minInt64, maxInt64, time.Second in *.
      replace (now + seconds * 1000000000 - (now + el))
        with (seconds * 1000000000 - el) by lia.
      destruct (Z.ltb_spec (seconds * 1000000000 - el) (- 2 ^ 63)); [lia|].
      destruct (Z.ltb_spec (2 ^ 63 - 1) (seconds * 1000000000 - el)); lia. }
  split.
  { replace now with (now + 0) at 2 by lia. rewrite (Httl 0 (Z.le_refl 0)).
    assert ((0 <? seconds * time.Second) = true) as ->
        by (apply Z.ltb_lt; unfold time.Second; lia).
    rewrite Z.sub_0_r, Z.div_mul by (unfold time.Second; lia). done. }
  split; [by apply Httl|].
  intros Hlt. unfold time.Second in *. split.
  - apply Z.div_pos; lia.
  - apply Z.div_le_upper_bound; lia.
Qed.

Lemma expire_then_ttl_witness :
  let d' := fst (handleExpire db_plain 0 ["k"; "10"]%string) in
  snd (handleExpire db_plain 0 ["k"; "10"]%string) = integer 1 /\
  snd (handleTTL d' 0 ["k"%string]) = integer 10 /\
  snd (handleTTL d' (0 + 9500000000) ["k"%string])
  = integer (if 9500000000 <? 10 * time.Second
             then (10 * time.Second - 9500000000) / time.Second
             else -2) /\
  (9500000000 < 10 * time.Second ->
   0 <= (10 * time.Second - 9500000000) / time.Second <= 10).
Proof.
  apply (expire_then_ttl db_plain 0 "k" (string_value "v") "10" 10 9500000000);
    first [reflexivity | lia | (split; reflexivity)].
Defined.

(** ** Hashes *)

Lemma isExpired_HSet (d : Database) (now : Z) (key field value k : string) :
  isExpired (HSet d key field value) now k = isExpired d now k.
Proof. reflexivity. Qed.

(** X9.  HSET answers 1 and stores the field: HGET of that field answers
    the value, HGET of another field and every other key are as before, and
    GET answers nothing, the key being a hash.  HSET leaves the expiry index
    alone, so on a key whose expiry instant has passed the stored field is
    not readable. *)
Theorem hset_then_hget (d : Database) (key field value : string) (now : Z)
        (field' other : string) :
  let d' := fst (handleHSet d [key; field; value]) in
  snd (handleHSet d [key; field; value]) = integer 1 /\
  expiry d' = expiry d /\
  snd (Get d' now key) = None /\
  (isExpired d now key = true -> handleHGet d' now [key; field] = null_bulk) /\
  (isExpired d now key = false ->
   handleHGet d' now [key; field] = bulk value /\
   (field' <> field -> HGet d' now key field' = HGet d now key field')) /\
  (other <> key ->
   data d' !! other = data d !! other /\
   HGet d' now other field' = HGet d now other field').
Proof.
  cbn [handleHSet fst snd]. split; [done|]. split; [done|].
  assert (exists val', data (HSet d key field value) !! key = Some val' /\
                       database.Type_ val' = HashType /\
                       HashVal val' !! field = Some value /\
                       (forall f, f <> field ->
                          HashVal val' !! f
                          = match data d !! key with
                            | Some val =>
                                if decide (database.Type_ val = HashType)
                                then HashVal val !! f else None
                            | None => None
                            end)) as (val' & Hk' & Ht' & Hf' & Hother).
  { unfold HSet; simpl. rewrite lookup_insert_eq. eexists. split; [done|].
    destruct (data d !! key) as [val|]; simpl.
    - destruct (decide (database.Type_ val = HashType)) as [Hh|Hh]; simpl.
      + split; [done|]. split; [apply lookup_insert_eq|].
        intros f Hf. by rewrite lookup_insert_ne.
      + split; [done|]. split; [apply lookup_insert_eq|].
        intros f Hf. by rewrite lookup_insert_ne.
    - split; [done|]. split; [apply lookup_insert_eq|].
      intros f Hf. by rewrite lookup_insert_ne. }
  split.
  { unfold Get. rewrite isExpired_HSet.
    destruct (isExpired d now key); [done|]. rewrite Hk'.
    destruct (decide (database.Type_ val' = StringType)) as [Hs|]; [|done].
    congruence. }
  split.
  { intros Hx. unfold handleHGet, HGet. by rewrite isExpired_HSet, Hx. }
  split.
  { intros Hx. split.
    - unfold handleHGet, HGet. rewrite isExpired_HSet, Hx, Hk'.
      destruct (decide (database.Type_ val' = HashType)); [|done].
      by rewrite Hf'.
    - intros Hne. unfold HGet. rewrite isExpired_HSet, Hx, Hk'.
      destruct (decide (database.Type_ val' = HashType)); [|done].
      by rewrite Hother. }
  intros Hne.
  assert (data (HSet d key field value) !! other = data d !! other) as Ho.
  { unfold HSet; simpl. by rewrite lookup_insert_ne. }
  split; [exact Ho|]. unfold HGet. by rewrite isExpired_HSet, Ho.
Qed.

Lemma hset_then_hget_witness :
  handleHGet (fst (handleHSet db_stale ["k"; "f"; "x"]%string)) 7
             ["k"; "f"]%string = null_bulk /\
  handleHGet (fst (handleHSet db_plain ["k"; "f"; "x"]%string)) 7
             ["k"; "f"]%string = bulk "x".
Proof.
  split.
  - apply (proj1 (proj2 (proj2 (proj2
             (hset_then_hget db_stale "k" "f" "x" 7 "g" "o"))))).
    reflexivity.
  - apply (proj1 (proj2 (proj2 (proj2 (proj2
             (hset_then_hget db_plain "k" "f" "x" 7 "g" "o")))))).
    reflexivity.
Defined.

Lemma HDel_loop (key : string) (fields : list string) :
  forall d c d' n val,
    data d !! key = Some val -> database.Type_ val = HashType ->
    foldl (fun acc field =>
             let '(d', hit) := HDel (fst acc) key field in
             (d', if hit then snd acc + 1 else snd acc))
          (d, c) fields = (d', n) ->
    exists val',
      data d' !! key = Some val' /\ database.Type_ val' = HashType /\
      (forall f, HashVal val' !! f
                 = if decide (f ∈ fields) then None else HashVal val !! f) /\
      n = c + Z.of_nat (size (HashVal val)) - Z.of_nat (size (HashVal val')) /\
      expiry d' = expiry d /\
      (forall k, k <> key -> data d' !! k = data d !! k).
Proof.
  induction fields as [|f0 fields IH]; intros d c d' n val Hk Ht E; simpl in E.
  { injection E as <- <-. exists val. split; [done|]. split; [done|].
    split; [|split; [lia|done]].
    intros f. destruct (decide (f ∈ [])) as [Hin|]; [|done].
    by apply elem_of_nil in Hin. }
  unfold HDel in E at 2. rewrite Hk in E.
  destruct (decide (database.Type_ val = HashType)); [|done].
  destruct (HashVal val !! f0) as [v0|] eqn:Hf0; simpl in E.
  - eapply IH in E as (val' & Hk' & Ht' & Hf' & Hn & He & Ho);
      [|simpl; apply lookup_insert_eq|done].
    exists val'. split; [done|]. split; [done|]. simpl in *.
    split; [|split; [|split; [done|]]].
    + intros f. rewrite Hf', if_elem_of_cons.
      destruct (decide (f = f0)) as [->|Hne].
      * rewrite lookup_delete_eq. by destruct (decide _).
      * by rewrite lookup_delete_ne.
    + rewrite Hn. rewrite map_size_delete_Some by (by eexists).
      destruct (size (HashVal val)) as [|m] eqn:Hz; [|simpl; lia].
      apply map_size_empty_inv in Hz. rewrite Hz in Hf0.
      by rewrite lookup_empty in Hf0.
    + intros k Hne. rewrite Ho by done. by rewrite lookup_insert_ne.
  - eapply IH in E as (val' & Hk' & Ht' & Hf' & Hn & He & Ho); [|done|done].
    exists val'. repeat split; try done.
    intros f. rewrite Hf', if_elem_of_cons.
    destruct (decide (f = f0)) as [->|Hne]; [|done].
    rewrite Hf0. by destruct (decide _).
Qed.

(** X10.  HDEL on a hash removes the named fields and no other, answers the
    number of fields it removed, and keeps the key as a hash even when no
    field is left; the expiry index and the other keys are untouched.  On a
    key that is absent or not a hash it answers 0 and changes nothing. *)
Theorem hdel_counts_removed (d : Database) (key field : string)
        (fields : list string) :
  let d' := fst (handleHDel d (key :: field :: fields)) in
  (forall val, data d !! key = Some val -> database.Type_ val = HashType ->
     exists val',
       data d' !! key = Some val' /\ database.Type_ val' = HashType /\
       (forall f, HashVal val' !! f
                  = if decide (f ∈ field :: fields) then None
                    else HashVal val !! f) /\
       snd (handleHDel d (key :: field :: fields))
       = integer (Z.of_nat (size (HashVal val))
                  - Z.of_nat (size (HashVal val'))) /\
       expiry d' = expiry d /\
       (forall k, k <> key -> data d' !! k = data d !! k)) /\
  ((data d !! key = None \/
    exists val, data d !! key = Some val /\ database.Type_ val <> HashType) ->
   handleHDel d (key :: field :: fields) = (d, integer 0)).
Proof.
  unfold handleHDel, count_loop. split.
  - intros val Hk Ht.
    destruct (foldl _ (d, 0) (field :: fields)) as [d' n] eqn:E.
    destruct (HDel_loop key (field :: fields) d 0 d' n val Hk Ht E)
      as (val' & Hk' & Ht' & Hf' & Hn & He & Ho).
    exists val'. cbn [fst snd].
    repeat split; try done; try (rewrite Hn; f_equal; lia).
  - intros Hno.
    assert (forall fs c,
              foldl (fun acc f =>
                       let '(d', hit) := HDel (fst acc) key f in
                       (d', if hit then snd acc + 1 else snd acc))
                    (d, c) fs = (d, c)) as Hloop.
    { induction fs as [|f fs IH]; intros c; simpl; [done|].
      unfold HDel at 2.
      destruct Hno as [-> | (val & -> & Hty)]; simpl; [apply IH|].
      destruct (decide (database.Type_ val = HashType)); [done|]. apply IH. }
    by rewrite Hloop.
Qed.

Lemma hdel_counts_removed_witness :
  handleHDel db_plain ["k"; "f"]%string = (db_plain, integer 0).
Proof.
  apply (proj2 (hdel_counts_removed db_plain "k" "f" [])).
  right. exists (string_value "v"). split; [reflexivity|discriminate].
Defined.

(** ** Commands as a whole *)

Lemma Get_Some_same (d d' : Database) (now : Z) (key value : string) :
  Get d now key = (d', Some value) -> d' = d.
Proof.
  unfold Get. destruct (isExpired d now key); [done|].
  destruct (data d !! key) as [val|]; [|done].
  destruct (decide _); congruence.
Qed.

Lemma dispatch_error (command : string) (d : Database) (now : Z)
      (args : list string) :
  protocol.Type_ (snd (dispatch command d now args)) = Error ->
  fst (dispatch command d now args) = d.
Proof.
  unfold dispatch.
  repeat (match goal with
          | |- context [if String.eqb ?a ?b then _ else _] =>
              destruct (String.eqb a b)
          end); try done.
  - unfold handleSet. by destruct args as [|? [|? ?]].
  - unfold handleGet. destruct args as [|key [|? ?]]; try done.
    destruct (Get d now key) as [d' [v|]]; done.
  - unfold handleDel, count_loop. destruct args as [|? ?]; [done|].
    by destruct (foldl _ _ _).
  - unfold handleExists, count_loop. destruct args as [|? ?]; [done|].
    by destruct (foldl _ _ _).
  - unfold handleExpire. destruct args as [|key [|secs [|? ?]]]; try done.
    destruct (strconv.Atoi secs) as [seconds|]; [|done].
    by destruct (Expire d now key seconds) as [d' []].
  - unfold handleTTL. destruct args as [|key [|? ?]]; try done.
    by destruct (TTL d now key).
  - unfold handleHSet. by destruct args as [|? [|? [|? [|? ?]]]].
  - unfold handleHDel, count_loop. destruct args as [|? [|? ?]]; try done.
    by destruct (foldl _ _ _).
  - unfold handleIncr. destruct args as [|key [|? ?]]; try done.
    destruct (Get d now key) as [d' [v|]] eqn:E; [|done].
    apply Get_Some_same in E as ->. by destruct (strconv.ParseInt v).
  - unfold handleDecr. destruct args as [|key [|? ?]]; try done.
    destruct (Get d now key) as [d' [v|]] eqn:E; [|done].
    apply Get_Some_same in E as ->. by destruct (strconv.ParseInt v).
Qed.

(** X11.  A command answered with an error changes nothing in the database:
    wrong number of arguments, a timeout that is not an integer, INCR or
    DECR on a value that is not an integer, an unknown verb and a request
    that is not an array of bulk strings all leave both maps as they were. *)
Theorem error_reply_leaves_database (s : Server) (now : Z) (cmd : RESPValue) :
  protocol.Type_ (snd (executeCommand s now cmd)) = Error ->
  db (fst (executeCommand s now cmd)) = db s.
Proof.
  unfold executeCommand.
  destruct (protocol.Type_ cmd); try done.
  destruct (Array_ cmd) as [|verb rest]; [done|].
  pose proof (dispatch_error (strings.ToUpper (Str verb)) (db s) now
                             (map Str rest)) as H.
  destruct (dispatch _ _ _ _) as [d' response]. exact H.
Qed.

Lemma error_reply_leaves_database_witness :
  db (fst (executeCommand (mkServer db_text (mkManager true true) empty_disk)
                          5 (request ["INCR"; "k"]%string)))
  = db_text.
Proof.
  apply (error_reply_leaves_database
           (mkServer db_text (mkManager true true) empty_disk) 5
           (request ["INCR"; "k"]%string)).
  reflexivity.
Defined.

Lemma upper_byte_idem (c : ascii) :
  strings.upper_byte (strings.upper_byte c) = strings.upper_byte c.
Proof. destruct c as [[] [] [] [] [] [] [] []]; reflexivity. Qed.

Lemma ToUpper_idem (s : string) :
  strings.ToUpper (strings.ToUpper s) = strings.ToUpper s.
Proof.
  induction s as [|c s IH]; simpl; [done|]. by rewrite upper_byte_idem, IH.
Qed.

(** X12.  The verb of a request is matched without regard to the case of
    its letters when it is made of ASCII bytes (no byte above 127, where
    [strings.ToUpper] works byte by byte): a request with such a verb and
    the same request with the verb in upper case change the server in the
    same way, write the same log record and get the same answer; the verb
    in upper case is again made of ASCII bytes.  The arguments are taken as
    they are. *)
Theorem verb_case_is_ignored (s : Server) (now : Z) (verb : string)
        (args : list string) :
  isASCII verb = true ->
  isASCII (strings.ToUpper verb) = true /\
  executeCommand s now (request (verb :: args))
  = executeCommand s now (request (strings.ToUpper verb :: args)).
Proof.
  intros Hv. split.
  - induction verb as [|c verb IH]; [done|].
    cbn [isASCII strings.ToUpper] in *.
    apply andb_prop in Hv as [Hc Hv]. rewrite (IH Hv), andb_true_r.
    clear IH Hv. revert Hc.
    destruct c as [[] [] [] [] [] [] [] []]; by vm_compute.
  - unfold executeCommand, request; simpl. by rewrite ToUpper_idem.
Qed.

Lemma verb_case_is_ignored_witness :
  executeCommand (NewServer empty_disk) 0 (request ["sEt"; "a"; "b"]%string)
  = executeCommand (NewServer empty_disk) 0 (request ["SET"; "a"; "b"]%string).
Proof.
  apply (verb_case_is_ignored (NewServer empty_disk) 0 "sEt" ["a"; "b"]%string).
  reflexivity.
Defined.

(** ** Decimal numbers *)

Lemma pretty_N_char_digit (x : N) :
  (x < 10)%N ->
  strconv.is_digit (pretty_N_char x) = true /\
  code (pretty_N_char x) - 48 = Z.of_N x.
Proof.
  intros H.
  assert (x = 0 \/ x = 1 \/ x = 2 \/ x = 3 \/ x = 4 \/ x = 5 \/ x = 6 \/
          x = 7 \/ x = 8 \/ x = 9)%N as Hx by lia.
  repeat (destruct Hx as [->|Hx]; [by compute|]). subst. by compute.
Qed.

Lemma ParseUint_loop_pretty_go (x : N) :
  forall s, Z.of_N x <= maxUint64 ->
    strconv.ParseUint_loop (pretty_N_go x s) 0
    = strconv.ParseUint_loop s (Z.of_N x).
Proof.
  induction (N.lt_wf_0 x) as [x _ IH]; intros s Hx.
  assert (x = 0 \/ 0 < x)%N as [->|Hpos] by lia.
  { by rewrite pretty_N_go_0. }
  rewrite pretty_N_go_step by done.
  assert (x `div` 10 < x)%N as Hlt by (by apply N.div_lt).
  rewrite IH by (try done; lia).
  destruct (pretty_N_char_digit (x `mod` 10)) as [Hd Hc];
    [by apply N.mod_lt|].
  cbn [strconv.ParseUint_loop]. rewrite Hd, Hc.
  pose proof (N.div_mod x 10 ltac:(done)) as Hdm.
  pose proof (N.mod_lt x 10 ltac:(done)) as Hm.
  assert (Z.of_N (x `div` 10) * 10 + Z.of_N (x `mod` 10) = Z.of_N x) as ->
      by lia.
  change (maxUint64 / 10 + 1) with 1844674407370955162.
  change maxUint64 with 18446744073709551615 in *.
  assert ((1844674407370955162 <=? Z.of_N (x `div` 10)) = false) as ->
      by (apply Z.leb_gt; rewrite N2Z.inj_div;
          apply Z.div_lt_upper_bound; lia).
  assert ((18446744073709551615 <? Z.of_N x) = false) as ->
      by (apply Z.ltb_ge; lia).
  done.
Qed.

Lemma ParseUint_pretty (p : positive) :
  Z.pos p <= maxUint64 ->
  strconv.ParseUint (pretty p) = Ok (Z.pos p).
Proof.
  intros Hp.
  pose proof (ParseUint_loop_pretty_go (N.pos p) EmptyString Hp) as H.
  cbn [strconv.ParseUint_loop] in H.
  change (pretty p) with (pretty_N_go (N.pos p) EmptyString).
  unfold strconv.ParseUint.
  destruct (pretty_N_go (N.pos p) EmptyString); [done|exact H].
Qed.

Lemma pretty_positive_head (p : positive) :
  Z.pos p <= maxUint64 ->
  exists c s, pretty p = String c s /\ strconv.is_digit c = true.
Proof.
  intros Hp. pose proof (ParseUint_pretty p Hp) as H.
  unfold strconv.ParseUint in H.
  destruct (pretty p) as [|c s]; [done|]. exists c, s. split; [done|].
  cbn [strconv.ParseUint_loop] in H. by destruct (strconv.is_digit c).
Qed.

Lemma digit_is_no_sign (c : ascii) :
  strconv.is_digit c = true ->
  Ascii.eqb c "+" = false /\ Ascii.eqb c "-" = false.
Proof.
  intros H. split.
  - destruct (Ascii.eqb_spec c "+") as [->|]; [done|done].
  - destruct (Ascii.eqb_spec c "-") as [->|]; [done|done].
Qed.

Lemma ParseInt_FormatInt (z : Z) :
  in_int64 z -> strconv.ParseInt (strconv.FormatInt z) = Ok z.
Proof.
  unfold in_int64, minInt64, maxInt64. intros Hz.
  destruct z as [|p|p].
  - reflexivity.
  - assert (Z.pos p <= maxUint64) as Hp by (unfold maxUint64; lia).
    change (strconv.FormatInt (Z.pos p)) with (pretty p).
    pose proof (ParseUint_pretty p Hp) as HU.
    destruct (pretty_positive_head p Hp) as (c & s & E & Hd).
    rewrite E in *. apply digit_is_no_sign in Hd as [Hplus Hminus].
    unfold strconv.ParseInt. rewrite Hplus, Hminus. cbn [orb negb andb].
    rewrite HU.
    replace (2 ^ 63 <=? Z.pos p) with false; [done|].
    symmetry. apply Z.leb_gt. lia.
  - assert (Z.pos p <= maxUint64) as Hp by (unfold maxUint64; lia).
    change (strconv.FormatInt (Z.neg p)) with (String "-" (pretty p)).
    pose proof (ParseUint_pretty p Hp) as HU.
    unfold strconv.ParseInt.
    change (Ascii.eqb "-" "-") with true. change (Ascii.eqb "-" "+") with false.
    cbn [orb negb andb]. rewrite HU.
    replace (2 ^ 63 <? Z.pos p) with false; [done|].
    symmetry. apply Z.ltb_ge. lia.
Qed.

Lemma wrap64_range (z : Z) : in_int64 (wrap64 z).
Proof.
  unfold in_int64, wrap64, minInt64, maxInt64.
  pose proof (Z.mod_pos_bound (z + 2 ^ 63) (2 ^ 64) ltac:(done)). lia.
Qed.

(** X13.  A counter written by INCR or DECR can be counted on: when either
    answers the integer [m], GET then answers the decimal text of [m], and a
    further INCR or DECR at any later instant answers [m + 1] or [m - 1]
    (wrapped to 64 bits) and never an error. *)
Theorem counter_steps_compose (d d1 : Database) (now now' : Z) (key : string)
        (m : Z) :
  handleIncr d now [key] = (d1, integer m) \/
  handleDecr d now [key] = (d1, integer m) ->
  handleGet d1 now' [key] = (d1, bulk (strconv.FormatInt m)) /\
  handleIncr d1 now' [key]
  = (Set_ d1 key (strconv.FormatInt (wrap64 (m + 1))),
     integer (wrap64 (m + 1))) /\
  handleDecr d1 now' [key]
  = (Set_ d1 key (strconv.FormatInt (wrap64 (m - 1))),
     integer (wrap64 (m - 1))).
Proof.
  intros H.
  assert (exists d0 v, d1 = Set_ d0 key (strconv.FormatInt m) /\
                       m = wrap64 v) as (d0 & v & -> & Hm).
  { unfold handleIncr, handleDecr, add_and_store in H.
    destruct (Get d now key) as [d' [value|]].
    - destruct (strconv.ParseInt value) as [num|e].
      + destruct H as [H|H]; injection H as <- <-; by eexists _, _.
      + by destruct H.
    - destruct H as [H|H]; injection H as <- <-; by eexists _, _. }
  assert (strconv.ParseInt (strconv.FormatInt m) = Ok m) as HP.
  { apply ParseInt_FormatInt. rewrite Hm. apply wrap64_range. }
  unfold handleGet, handleIncr, handleDecr.
  rewrite !Get_Set, HP. unfold add_and_store.
  by replace (m + -1) with (m - 1) by lia.
Qed.

Lemma counter_steps_compose_witness :
  handleGet (fst (handleIncr db_counter 0 ["n"]%string)) 9 ["n"]%string
  = (fst (handleIncr db_counter 0 ["n"]%string),
     bulk (strconv.FormatInt (Num (snd (handleIncr db_counter 0 ["n"]%string))))).
Proof.
  apply (counter_steps_compose db_counter _ 0 9 "n" _).
  left. reflexivity.
Defined.

(** ** Requests on the wire *)

Ltac split_bytes Ht :=
  repeat match goal with
         | |- context [match ?x with _ => _ end] =>
             is_var x; destruct x; try lia; try reflexivity;
             try (rewrite Ht; reflexivity)
         end.

Lemma space_len_ascii (b : Z) (rest : list Z) :
  33 <= b <= 127 -> strings.space_len (b :: rest) = 0%nat.
Proof.
  intros Hb. unfold strings.space_len.
  remember (((9 <=? b) && (b <=? 13)) || (b =? 32)) as t eqn:Et.
  assert (t = false) as Ht by (subst t; lia). clear Et.
  split_bytes Ht.
Qed.

Lemma space_len_rev_ascii (b : Z) (rest : list Z) :
  33 <= b <= 127 -> strings.space_len_rev (b :: rest) = 0%nat.
Proof.
  intros Hb. unfold strings.space_len_rev.
  remember (((9 <=? b) && (b <=? 13)) || (b =? 32)) as t eqn:Et.
  assert (t = false) as Ht by (subst t; lia). clear Et.
  remember ((b =? 133) || (b =? 160)) as t1 eqn:Et1.
  assert (t1 = false) as Ht1 by (subst t1; lia). clear Et1.
  remember (((128 <=? b) && (b <=? 138)) || (b =? 168) || (b =? 169)
            || (b =? 175)) as t2 eqn:Et2.
  assert (t2 = false) as Ht2 by (subst t2; lia). clear Et2.
  repeat match goal with
         | |- context [match ?x with _ => _ end] =>
             is_var x; destruct x; try lia; try reflexivity;
             try (rewrite ?Ht1, ?Ht2, Ht; reflexivity)
         end.
Qed.

Lemma space_len_rev_cr (b : Z) (rest : list Z) :
  33 <= b <= 127 -> strings.space_len_rev (13 :: b :: rest) = 1%nat.
Proof.
  intros Hb. unfold strings.space_len_rev.
  repeat match goal with
         | |- context [match ?x with _ => _ end] =>
             is_var x; destruct x; try lia; try reflexivity
         end.
Qed.

Lemma list_ascii_of_string_app (s1 s2 : string) :
  list_ascii_of_string (s1 +:+ s2)
  = list_ascii_of_string s1 ++ list_ascii_of_string s2.
Proof.
  induction s1 as [|c s1 IH]; [done|].
  rewrite append_cons. simpl. by rewrite IH.
Qed.

Lemma length_append (s1 s2 : string) :
  String.length (s1 +:+ s2) = (String.length s1 + String.length s2)%nat.
Proof.
  induction s1 as [|c s1 IH]; [done|]. rewrite append_cons. simpl. by rewrite IH.
Qed.

Lemma printable_cons (c : ascii) (s : string) :
  printable (String c s) <-> (33 <= code c <= 127) /\ printable s.
Proof. unfold printable. simpl. by rewrite Forall_cons. Qed.

(** A line that [TrimSpace] gives back without its end. *)
Lemma TrimSpace_ends (s : string) :
  printable_ends s -> strings.TrimSpace (s +:+ crlf) = s.
Proof.
  intros [(a & Hhd & Ha) (z & Hlast & Hz)].
  rewrite <- (Stdlib.Strings.String.string_of_list_ascii_of_string s) at 2.
  unfold strings.TrimSpace. rewrite list_ascii_of_string_app.
  remember (list_ascii_of_string s) as body eqn:Eb. clear Eb s.
  cbn zeta.
  assert (strings.trim_go strings.space_len
            (length (body ++ list_ascii_of_string crlf))
            (body ++ list_ascii_of_string crlf)
          = body ++ list_ascii_of_string crlf) as ->.
  { destruct body as [|a' m]; [done|]. injection Hhd as ->.
    cbn [app length strings.trim_go map]. by rewrite space_len_ascii. }
  rewrite rev_app_distr.
  assert (exists rb, rev body = z :: rb) as [rb Hrev].
  { destruct body as [|x body' _] using rev_ind; [done|].
    rewrite last_snoc in Hlast. injection Hlast as ->.
    rewrite rev_app_distr. by eexists. }
  rewrite <- (rev_involutive body) at 3.
  assert (length (body ++ list_ascii_of_string crlf)
          = S (S (length (rev body)))) as ->.
  { rewrite length_app, length_rev. simpl. lia. }
  rewrite Hrev.
  f_equal. f_equal.
  change (rev (list_ascii_of_string crlf) ++ z :: rb)
    with (LF :: CR :: z :: rb).
  cbn [length strings.trim_go map].
  change (code LF) with 10. change (code CR) with 13.
  change (strings.space_len_rev (10 :: 13 :: code z :: map code rb))
    with 1%nat.
  cbv beta iota. cbn [drop map]. change (code CR) with 13.
  rewrite space_len_rev_cr by done.
  cbn [drop map]. by rewrite space_len_rev_ascii.
Qed.

Lemma printable_printable_ends (s : string) :
  printable s -> s <> EmptyString -> printable_ends s.
Proof.
  unfold printable, printable_ends. intros Hp Hne.
  assert (list_ascii_of_string s <> []) as Hb by (by destruct s).
  remember (list_ascii_of_string s) as body eqn:Eb. clear Eb Hne s.
  split.
  - destruct body as [|a m]; [done|]. apply Forall_cons in Hp as [Ha _].
    by exists a.
  - destruct body as [|x body' _] using rev_ind; [done|].
    apply Forall_app in Hp as [_ Hx]. apply Forall_cons in Hx as [Hx _].
    exists x. by rewrite last_snoc.
Qed.

Lemma TrimSpace_line (s : string) :
  printable s -> s <> EmptyString -> strings.TrimSpace (s +:+ crlf) = s.
Proof. intros Hp Hne. by apply TrimSpace_ends, printable_printable_ends. Qed.

Lemma ReadString_line (s rest : string) :
  printable s ->
  ReadString (s +:+ crlf +:+ rest) = Some (s +:+ crlf, rest).
Proof.
  induction s as [|c s IH]; intros Hp; [done|].
  apply printable_cons in Hp as [Hc Hp].
  rewrite !append_cons. cbn [ReadString].
  destruct (Ascii.eqb_spec c LF) as [->|_].
  { change (code LF) with 10 in Hc. lia. }
  by rewrite IH.
Qed.

Lemma pretty_N_char_printable (x : N) :
  (x < 10)%N -> 33 <= code (pretty_N_char x) <= 127.
Proof.
  intros Hx. destruct (pretty_N_char_digit x Hx) as [_ H]. lia.
Qed.

Lemma pretty_N_go_printable (x : N) :
  forall s, printable s -> printable (pretty_N_go x s).
Proof.
  induction (N.lt_wf_0 x) as [x _ IH]; intros s Hs.
  assert (x = 0 \/ 0 < x)%N as [->|Hpos] by lia.
  { by rewrite pretty_N_go_0. }
  rewrite pretty_N_go_step by done. apply IH; [by apply N.div_lt|].
  apply printable_cons. split; [|done].
  apply pretty_N_char_printable. by apply N.mod_lt.
Qed.

Lemma pretty_N_go_nonempty (x : N) :
  forall s, s <> EmptyString -> pretty_N_go x s <> EmptyString.
Proof.
  induction (N.lt_wf_0 x) as [x _ IH]; intros s Hs.
  assert (x = 0 \/ 0 < x)%N as [->|Hpos] by lia.
  { by rewrite pretty_N_go_0. }
  rewrite pretty_N_go_step by done. apply IH; [by apply N.div_lt|done].
Qed.

Lemma FormatInt_printable (n : Z) :
  printable (strconv.FormatInt n) /\ strconv.FormatInt n <> EmptyString.
Proof.
  assert (forall p, printable (pretty_N_go (N.pos p) EmptyString) /\
                    pretty_N_go (N.pos p) EmptyString <> EmptyString) as Hp.
  { intros p. rewrite pretty_N_go_step by done. split.
    - apply pretty_N_go_printable, printable_cons. split; [|constructor].
      apply pretty_N_char_printable. by apply N.mod_lt.
    - by apply pretty_N_go_nonempty. }
  destruct n as [|p|p].
  - split; [|done]. apply printable_cons. split; [by compute|constructor].
  - apply Hp.
  - change (strconv.FormatInt (Z.neg p))
      with (String "-" (pretty_N_go (N.pos p) EmptyString)).
    split; [|done]. apply printable_cons. split; [by compute|apply Hp].
Qed.

(** A length line [<n>\r\n] is read back as [n]. *)
Lemma length_line (n : Z) (rest : string) :
  in_int64 n ->
  exists line,
    ReadString (strconv.FormatInt n +:+ crlf +:+ rest) = Some (line, rest) /\
    strings.TrimSpace line = strconv.FormatInt n /\
    strconv.Atoi (strings.TrimSpace line) = Ok n.
Proof.
  intros Hn. destruct (FormatInt_printable n) as [Hp Hne].
  exists (strconv.FormatInt n +:+ crlf).
  rewrite ReadString_line, TrimSpace_line by done.
  repeat split; try done. by apply ParseInt_FormatInt.
Qed.

Lemma ReadFull_exact (a : string) (rest : string) :
  ReadFull (Z.of_nat (String.length a)) (a +:+ rest) = Some (a, rest).
Proof.
  induction a as [|c a IH].
  - simpl. by destruct rest.
  - rewrite append_cons. cbn [String.length ReadFull].
    assert ((Z.of_nat (S (String.length a)) <=? 0) = false) as ->
        by (apply Z.leb_gt; lia).
    replace (Z.of_nat (S (String.length a)) - 1)
      with (Z.of_nat (String.length a)) by lia.
    by rewrite IH.
Qed.

Lemma maxAlloc_int64 (n : Z) : 0 <= n <= maxAlloc -> in_int64 n.
Proof.
  unfold in_int64, minInt64, maxInt64, maxAlloc.
  change (2 ^ 48) with 281474976710656.
  change (2 ^ 63) with 9223372036854775808. lia.
Qed.

Lemma Serialize_bulk (a : string) :
  Serialize (bulk a)
  = String "$" (strconv.FormatInt (Z.of_nat (String.length a)) +:+ crlf
                +:+ a +:+ crlf).
Proof. reflexivity. Qed.

Lemma readBulkString_frame (a rest : string) :
  Z.of_nat (String.length a) <= maxAlloc ->
  readBulkString (Serialize (bulk a) +:+ rest) = Read a rest.
Proof.
  intros Ha. rewrite Serialize_bulk, append_cons, !append_assoc.
  unfold readBulkString. cbn [ReadByte].
  change (negb (Ascii.eqb "$" "$")) with false. cbv iota.
  destruct (length_line (Z.of_nat (String.length a))
                        (a +:+ crlf +:+ rest)) as (line & -> & _ & ->).
  { apply maxAlloc_int64. lia. }
  destruct a as [|c a].
  - reflexivity.
  - assert ((Z.of_nat (String.length (String c a)) =? -1) = false) as ->
        by (apply Z.eqb_neq; lia).
    assert ((Z.of_nat (String.length (String c a)) =? 0) = false) as ->
        by (apply Z.eqb_neq; simpl; lia).
    assert ((Z.of_nat (String.length (String c a)) <? 0) = false) as ->
        by (apply Z.ltb_ge; lia).
    assert ((maxAlloc <? Z.of_nat (String.length (String c a))) = false) as ->
        by (apply Z.ltb_ge; lia).
    cbn [orb]. rewrite ReadFull_exact. reflexivity.
Qed.

Lemma foldl_append {A : Type} (f : A -> string) (l : list A) :
  forall init,
    foldl (fun result item => result +:+ f item) init l
    = init +:+ concat_strings (map f l).
Proof.
  induction l as [|x l IH]; intros init; simpl.
  - by rewrite append_nil_r.
  - by rewrite IH, append_assoc.
Qed.

Lemma Serialize_request (cmd : list string) :
  Serialize (request cmd)
  = String "*" (strconv.FormatInt (Z.of_nat (length cmd)) +:+ crlf
                +:+ concat_strings (map (fun a => Serialize (bulk a)) cmd)).
Proof.
  unfold request, array. cbn [Serialize].
  rewrite (foldl_append Serialize), length_map, map_map.
  change ("*" +:+ strconv.FormatInt (Z.of_nat (length cmd)) +:+ crlf)
    with (String "*" (strconv.FormatInt (Z.of_nat (length cmd)) +:+ crlf)).
  by rewrite append_cons, append_assoc.
Qed.

Lemma read_bulks_frames (l : list string) :
  forall fuel i rest,
    Forall (fun a => Z.of_nat (String.length a) <= maxAlloc) l ->
    (length l <= fuel)%nat ->
    read_bulks fuel i (i + Z.of_nat (length l))
               (concat_strings (map (fun a => Serialize (bulk a)) l) +:+ rest)
    = Read l rest.
Proof.
  induction l as [|a l IH]; intros fuel i rest Hl Hf.
  - assert ((i + Z.of_nat (length (@nil string)) <=? i) = true) as E
        by (apply Z.leb_le; simpl; lia).
    destruct fuel; cbn [read_bulks]; by rewrite E.
  - apply Forall_cons in Hl as [Ha Hl].
    destruct fuel as [|fuel]; [simpl in Hf; lia|].
    cbn [read_bulks].
    assert ((i + Z.of_nat (length (a :: l)) <=? i) = false) as ->
        by (apply Z.leb_gt; simpl; lia).
    cbn [map concat_strings]. rewrite append_assoc.
    rewrite readBulkString_frame by done.
    replace (i + Z.of_nat (length (a :: l)))
      with (i + 1 + Z.of_nat (length l)) by (simpl; lia).
    rewrite IH; [done|done|simpl in Hf; lia].
Qed.

Lemma frames_length (l : list string) (rest : string) :
  (length l <=
   String.length
     (concat_strings (map (fun a => Serialize (bulk a)) l) +:+ rest))%nat.
Proof.
  induction l as [|a l IH]; [simpl; lia|].
  cbn [map concat_strings length].
  rewrite append_assoc, Serialize_bulk, append_cons.
  cbn [String.length]. rewrite length_append. lia.
Qed.

Lemma readRESPArray_frame (cmd : list string) (rest : string) :
  sendable cmd ->
  readRESPArray (Serialize (request cmd) +:+ rest) = Read cmd rest.
Proof.
  intros [Hn Hl]. rewrite Serialize_request, append_cons, !append_assoc.
  unfold readRESPArray. cbn [ReadByte].
  change (negb (Ascii.eqb "*" "*")) with false. cbv iota.
  destruct (length_line (Z.of_nat (length cmd))
              (concat_strings (map (fun a => Serialize (bulk a)) cmd)
               +:+ rest)) as (line & -> & _ & ->).
  { apply maxAlloc_int64. lia. }
  destruct cmd as [|w ws]; [reflexivity|].
  assert ((Z.of_nat (length (w :: ws)) <=? 0) = false) as ->
      by (apply Z.leb_gt; simpl; lia).
  assert ((maxAlloc <? 16 * Z.of_nat (length (w :: ws))) = false) as ->
      by (apply Z.ltb_ge; lia).
  apply (read_bulks_frames (w :: ws) _ 0); [done|].
  pose proof (frames_length (w :: ws) rest). lia.
Qed.

(** X14.  What [Serialize] writes for a request, [readRESPArray] reads back:
    for every list of strings whose sizes [make] accepts, with any bytes
    after the frame, the server reads exactly these strings, empty ones and
    ones with line ends or white space included, and leaves the bytes after
    the frame unread. *)
Theorem request_frame_is_read_back (cmd : list string) (rest : string) :
  16 * Z.of_nat (length cmd) <= maxAlloc ->
  Forall (fun a => Z.of_nat (String.length a) <= maxAlloc) cmd ->
  readRESPArray (Serialize (request cmd) +:+ rest) = Read cmd rest.
Proof. intros Hn Hl. by apply readRESPArray_frame. Qed.

Lemma request_frame_is_read_back_witness :
  readRESPArray (Serialize (request ["SET"; "a b"; EmptyString; crlf]%string)
                 +:+ "*1")
  = Read ["SET"; "a b"; EmptyString; crlf]%string "*1".
Proof.
  apply request_frame_is_read_back.
  - by vm_compute.
  - repeat constructor; by vm_compute.
Defined.

Lemma frames_cons (cmd : list string) (cmds : list (list string)) :
  frames (cmd :: cmds) = Serialize (request cmd) +:+ frames cmds.
Proof. reflexivity. Qed.

Lemma Serialize_request_length (cmd : list string) :
  (0 < String.length (Serialize (request cmd)))%nat.
Proof. rewrite Serialize_request. cbn [String.length]. lia. Qed.

Lemma serve_shift_by (k fuel : nat) :
  forall s clock n r,
    serve fuel s clock (k + n) r
    = serve fuel s (fun j => clock (k + j)%nat) n r.
Proof.
  induction fuel as [|fuel IH]; intros s clock n r; simpl; [done|].
  replace (S (k + n)) with (k + S n)%nat by lia.
  destruct (readRESPArray r) as [[|w ws] rest|e rest|]; try done.
  - by rewrite IH.
  - destruct (executeCommand s (clock (k + n)%nat) (request (w :: ws)))
      as [s1 resp].
    by rewrite IH.
  - destruct e; try done; by rewrite IH.
Qed.

Lemma serve_frames (cmds : list (list string)) :
  forall fuel fuel' s clock n tail,
    Forall sendable cmds -> Forall (fun cmd => cmd <> []) cmds ->
    (String.length (frames cmds +:+ tail) < fuel)%nat ->
    (String.length tail < fuel')%nat ->
    serve fuel s clock n (frames cmds +:+ tail)
    = (let r := replies s clock n cmds in
       let t := serve fuel' (fst r) clock (length cmds + n) tail in
       (fst (fst t), snd r ++ snd (fst t), snd t)).
Proof.
  induction cmds as [|cmd cmds IH];
    intros fuel fuel' s clock n tail Hs Hne Hf Hf'.
  - cbn [replies fst snd length app]. change (frames [] +:+ tail) with tail.
    cbn zeta. change (0 + n)%nat with n.
    rewrite (serve_fuel fuel fuel') by done.
    by destruct (serve fuel' s clock n tail) as [[s' out] fin].
  - apply Forall_cons in Hs as [Hc Hs]. apply Forall_cons in Hne as [Hn Hne].
    destruct fuel as [|fuel]; [lia|].
    rewrite frames_cons, append_assoc in *. cbn [serve replies].
    rewrite readRESPArray_frame by done.
    destruct cmd as [|w ws]; [done|].
    destruct (executeCommand s (clock n) (request (w :: ws))) as [s1 resp].
    rewrite length_append in Hf.
    pose proof (Serialize_request_length (w :: ws)) as Hpos.
    rewrite (IH fuel fuel') by (try done; lia). cbn zeta.
    destruct (replies s1 clock (S n) cmds) as [s' out]. cbn [fst snd length].
    replace (S (length cmds) + n)%nat with (length cmds + S n)%nat by lia.
    by destruct (serve fuel' s' clock (length cmds + S n) tail)
      as [[s'' out'] fin].
Qed.

(** X15.  A client that sends whole requests one after the other gets them
    executed in order, the [n]-th at the [n]-th reading of the clock, with
    one reply written per request; the connection then goes on with the
    bytes that follow as a connection that starts there would.  When nothing
    follows it ends by closing: nothing is dropped, merged or answered with
    a read error. *)
Theorem pipelined_requests_are_executed_in_order (s : Server)
        (clock : nat -> Z) (cmds : list (list string)) (tail : string) :
  Forall sendable cmds -> Forall (fun cmd => cmd <> []) cmds ->
  let r := replies s clock 0 cmds in
  let t := handleConnection (fst r) (fun j => clock (length cmds + j)%nat)
                            tail in
  handleConnection s clock (frames cmds +:+ tail)
  = (fst (fst t), snd r ++ snd (fst t), snd t) /\
  handleConnection s clock (frames cmds) = (fst r, snd r, Closed).
Proof.
  intros Hs Hne r t.
  assert (forall tl,
            handleConnection s clock (frames cmds +:+ tl)
            = (let t := handleConnection (fst r)
                          (fun j => clock (length cmds + j)%nat) tl in
               (fst (fst t), snd r ++ snd (fst t), snd t))) as H.
  { intros tl. unfold handleConnection.
    rewrite (serve_frames cmds _ (S (String.length tl))) by (try done; lia).
    cbn zeta. fold r. by rewrite (serve_shift_by (length cmds)). }
  split; [apply H|].
  rewrite <- (append_nil_r (frames cmds)), H. cbn zeta.
  unfold handleConnection. cbn [serve String.length readRESPArray ReadByte].
  cbn [fst snd]. by rewrite app_nil_r.
Qed.

Lemma pipelined_requests_are_executed_in_order_witness :
  snd (fst (handleConnection (NewServer empty_disk) (fun n => Z.of_nat n)
              (frames [["SET"; "a"; "1"]; ["INCR"; "a"]; ["GET"; "a"]]%string)))
  = [Response (simple "OK"); Response (integer 2); Response (bulk "2")].
Proof.
  rewrite (proj2 (pipelined_requests_are_executed_in_order
                    (NewServer empty_disk) (fun n => Z.of_nat n)
                    [["SET"; "a"; "1"]; ["INCR"; "a"]; ["GET"; "a"]]%string
                    EmptyString
                    ltac:(repeat constructor; by vm_compute)
                    ltac:(repeat constructor; done))).
  reflexivity.
Defined.

Lemma readRESPArray_bulk_of_length (n : Z) (rest : string) :
  in_int64 n -> n < -1 \/ maxAlloc < n ->
  readRESPArray (bulk_of_length n +:+ rest) = Panic.
Proof.
  intros Hn Hbad. unfold bulk_of_length.
  rewrite !append_assoc.
  change ("*1" +:+ crlf +:+ "$" +:+ strconv.FormatInt n +:+ crlf +:+ rest)
    with (String "*" (String "1" (String CR (String LF
            (String "$" (strconv.FormatInt n +:+ crlf +:+ rest)))))).
  unfold readRESPArray. cbn [ReadByte].
  change (negb (Ascii.eqb "*" "*")) with false. cbv iota.
  cbn [ReadString].
  change (Ascii.eqb "1" LF) with false. change (Ascii.eqb CR LF) with false.
  change (Ascii.eqb LF LF) with true. cbv iota.
  change (strings.TrimSpace (String "1" (String CR (String LF EmptyString))))
    with "1"%string.
  change (strconv.Atoi "1") with (Ok (E:=strconv.NumError) 1).
  cbv iota. change (1 <=? 0) with false. change (maxAlloc <? 16 * 1) with false.
  cbv iota. cbn [read_bulks]. change (1 <=? 0) with false. cbv iota.
  unfold readBulkString. cbn [ReadByte].
  change (negb (Ascii.eqb "$" "$")) with false. cbv iota.
  destruct (length_line n rest Hn) as (line & -> & _ & ->).
  assert ((n =? -1) = false) as -> by (apply Z.eqb_neq; unfold maxAlloc in *; lia).
  assert ((n =? 0) = false) as -> by (apply Z.eqb_neq; unfold maxAlloc in *; lia).
  assert (((n <? 0) || (maxAlloc <? n)) = true) as ->; [|done].
  apply orb_true_iff. destruct Hbad; [left|right]; apply Z.ltb_lt; lia.
Qed.

Lemma readRESPArray_array_of_length (n : Z) (rest : string) :
  in_int64 n -> maxAlloc < 16 * n ->
  readRESPArray (array_of_length n +:+ rest) = Panic.
Proof.
  intros Hn Hbad. unfold array_of_length.
  rewrite !append_assoc.
  change ("*" +:+ strconv.FormatInt n +:+ crlf +:+ rest)
    with (String "*" (strconv.FormatInt n +:+ crlf +:+ rest)).
  unfold readRESPArray. cbn [ReadByte].
  change (negb (Ascii.eqb "*" "*")) with false. cbv iota.
  destruct (length_line n rest Hn) as (line & -> & _ & ->).
  assert ((n <=? 0) = false) as -> by (apply Z.leb_gt; unfold maxAlloc in *; lia).
  assert ((maxAlloc <? 16 * n) = true) as -> by (by apply Z.ltb_lt).
  done.
Qed.

(** X16.  One client can end the whole server: after any whole requests,
    which are executed and answered, a request that announces a bulk string
    of a length below -1 or above 2^48, or an array of more than 2^44 bulk
    strings, makes [make] panic; no reply is written for it, the bytes after
    it are not read, and the process dies. *)
Theorem oversized_length_ends_the_process (s : Server) (clock : nat -> Z)
        (cmds : list (list string)) (n : Z) (rest : string) :
  Forall sendable cmds -> Forall (fun cmd => cmd <> []) cmds ->
  in_int64 n ->
  let r := replies s clock 0 cmds in
  (n < -1 \/ maxAlloc < n ->
   handleConnection s clock (frames cmds +:+ bulk_of_length n +:+ rest)
   = (fst r, snd r, Crashed)) /\
  (maxAlloc < 16 * n ->
   handleConnection s clock (frames cmds +:+ array_of_length n +:+ rest)
   = (fst r, snd r, Crashed)).
Proof.
  intros Hs Hne Hn r.
  assert (forall bad,
            readRESPArray bad = Panic ->
            handleConnection s clock (frames cmds +:+ bad)
            = (fst r, snd r, Crashed)) as H.
  { intros bad Hp. unfold handleConnection.
    rewrite (serve_frames cmds _ (S (String.length bad))) by (try done; lia).
    cbn zeta. fold r.
    cbn [serve]. rewrite Hp. cbn [fst snd]. by rewrite app_nil_r. }
  split; intros Hbad; apply H.
  - by apply readRESPArray_bulk_of_length.
  - by apply readRESPArray_array_of_length.
Qed.

Lemma oversized_length_ends_the_process_witness :
  handleConnection (NewServer empty_disk) (fun n => Z.of_nat n)
    (frames [["SET"; "a"; "1"]%string] +:+ bulk_of_length (-2) +:+ ping_frame)
  = (live_after_set, [Response (simple "OK")], Crashed).
Proof.
  apply (proj1 (oversized_length_ends_the_process
                  (NewServer empty_disk) (fun n => Z.of_nat n)
                  [["SET"; "a"; "1"]%string] (-2) ping_frame
                  ltac:(repeat constructor; by vm_compute)
                  ltac:(repeat constructor; done)
                  ltac:(by vm_compute))).
  left. lia.
Defined.

(** ** The log, written and read *)

Lemma WriteAOF_all (m : Manager) (commands : list string) :
  aofEnabled m = true ->
  forall files,
    commands <> [] ->
    appendonly_aof (foldl (WriteAOF m) files commands)
    = Some (default EmptyString (appendonly_aof files)
            +:+ concat_strings (map (fun c => c +:+ lf) commands)).
Proof.
  intros Hon. induction commands as [|c cs IH]; intros files Hne; [done|].
  cbn [foldl].
  destruct cs as [|c' cs].
  - unfold WriteAOF. rewrite Hon. cbn [negb foldl appendonly_aof map
                                       concat_strings].
    by rewrite append_nil_r.
  - rewrite IH by done. unfold WriteAOF at 1. rewrite Hon.
    cbn [negb appendonly_aof default]. f_equal.
    change (map (fun c => c +:+ lf) (c :: c' :: cs))
      with ((c +:+ lf) :: map (fun c => c +:+ lf) (c' :: cs)).
    cbn [concat_strings]. unfold id. by rewrite !append_assoc.
Qed.

Lemma scan_one_line (c : string) :
  forall rev_line rest,
    Forall (fun a => a <> LF) (list_ascii_of_string c) ->
    Z.of_nat (length rev_line + String.length c) < MaxScanTokenSize ->
    scan_lines (c +:+ String LF rest) rev_line
    = (dropCR (rev (list_ascii_of_string c) ++ rev_line)
         :: fst (scan_lines rest []),
       snd (scan_lines rest [])).
Proof.
  induction c as [|a c IH]; intros rev_line rest Hlf Hlen.
  - change (EmptyString +:+ String LF rest) with (String LF rest).
    cbn [scan_lines]. change (Ascii.eqb LF LF) with true. cbv iota.
    by destruct (scan_lines rest []).
  - cbn [list_ascii_of_string] in Hlf. apply Forall_cons in Hlf as [Ha Hlf].
    rewrite append_cons. cbn [scan_lines].
    destruct (Ascii.eqb_spec a LF) as [->|_]; [done|].
    cbn [String.length] in Hlen.
    assert ((MaxScanTokenSize <=? Z.of_nat (S (length rev_line))) = false)
      as -> by (apply Z.leb_gt; lia).
    rewrite IH; [|done|cbn [length]; lia].
    cbn [list_ascii_of_string rev]. by rewrite <- app_assoc.
Qed.

Lemma dropCR_line (c : string) :
  last (list_ascii_of_string c) <> Some CR ->
  dropCR (rev (list_ascii_of_string c) ++ []) = c.
Proof.
  intros Hcr. rewrite app_nil_r.
  rewrite <- (Stdlib.Strings.String.string_of_list_ascii_of_string c) at 2.
  remember (list_ascii_of_string c) as l eqn:El. clear El c.
  unfold dropCR.
  destruct (rev l) as [|z rl] eqn:Er.
  - apply (f_equal (@rev ascii)) in Er. rewrite rev_involutive in Er.
    by subst l.
  - assert (l = rev rl ++ [z]) as ->.
    { apply (f_equal (@rev ascii)) in Er. by rewrite rev_involutive in Er. }
    rewrite last_snoc in Hcr.
    destruct (Ascii.eqb_spec z CR) as [->|_]; [done|].
    cbn [rev]. done.
Qed.

Lemma scan_all_lines (commands : list string) :
  Forall one_line commands ->
  scan_lines (concat_strings (map (fun c => c +:+ lf) commands)) []
  = (commands, None).
Proof.
  induction commands as [|c cs IH]; intros Hl; [done|].
  apply Forall_cons in Hl as [(Hlf & Hcr & Hlen) Hl].
  cbn [map concat_strings]. rewrite append_assoc.
  change (lf +:+ concat_strings (map (fun c => c +:+ lf) cs))
    with (String LF (concat_strings (map (fun c => c +:+ lf) cs))).
  rewrite scan_one_line; [|done|cbn [length]; lia].
  rewrite IH by done. cbn [fst snd]. by rewrite dropCR_line.
Qed.

(** X17.  The log is read back line by line as it was written: on a server
    with the log enabled and no log file yet, after any records were
    written with [WriteAOF], each of them one line (no line feed inside, no
    carriage return at the end, shorter than 65536 bytes), [LoadAOF] reads
    exactly these records in their order, one reported per record, with no
    error, and leaves the database as it is. *)
Theorem log_records_are_read_back (m : Manager) (files : Disk)
        (d : Database) (commands : list string) :
  aofEnabled m = true -> appendonly_aof files = None ->
  commands <> [] -> Forall one_line commands ->
  LoadAOF m (foldl (WriteAOF m) files commands) d
  = (d,
     map (fun command =>
            "Replaying command: " +:+ command +:+ String LF EmptyString)
         commands,
     None).
Proof.
  intros Hon Hnew Hne Hl. unfold LoadAOF. rewrite Hon. cbn [negb].
  rewrite WriteAOF_all, Hnew by done. cbn [default].
  change (EmptyString +:+ ?x) with x.
  by rewrite scan_all_lines.
Qed.

Lemma log_records_are_read_back_witness :
  snd (fst (LoadAOF (mkManager true true)
              (foldl (WriteAOF (mkManager true true)) empty_disk
                     ["SET a 1"; "DEL a"]%string)
              NewDatabase))
  = ["Replaying command: SET a 1" +:+ lf; "Replaying command: DEL a" +:+ lf].
Proof.
  rewrite (log_records_are_read_back (mkManager true true) empty_disk
             NewDatabase ["SET a 1"; "DEL a"]%string).
  - reflexivity.
  - reflexivity.
  - reflexivity.
  - done.
  - repeat constructor; try (by vm_compute).
Defined.

(** ** Runes *)

Lemma code_byte_of (x : Z) : code (utf8.byte_of x) = x mod 256.
Proof.
  unfold code, utf8.byte_of.
  pose proof (Z.mod_pos_bound x 256 ltac:(lia)) as Hx.
  rewrite N_ascii_embedding by lia. lia.
Qed.

Lemma byte_of_code (c : ascii) : utf8.byte_of (code c) = c.
Proof.
  unfold utf8.byte_of, code.
  pose proof (N_ascii_bounded c) as Hc.
  rewrite Z.mod_small by lia. by rewrite N2Z.id, ascii_N_embedding.
Qed.

(** A byte written with its bit 7 set is not the space. *)
Lemma high_byte_not_space (a b : Z) :
  Z.testbit a 7 = true ->
  Ascii.eqb (utf8.byte_of (Z.lor a b)) " " = false.
Proof.
  intros Ha. apply Ascii.eqb_neq. intros E.
  apply (f_equal code) in E. rewrite code_byte_of in E.
  change (code " ") with 32 in E.
  assert (Z.testbit (Z.lor a b mod 2 ^ 8) 7 = Z.testbit 32 7) as Hb
      by (by change (2 ^ 8) with 256; rewrite E).
  rewrite Z.mod_pow2_bits_low, Z.lor_spec, Ha in Hb by lia.
  discriminate.
Qed.

Lemma EncodeRune_space : utf8.EncodeRune 32 = " "%string.
Proof. reflexivity. Qed.

Lemma EncodeRune_no_space (r : Z) :
  r <> 32 -> no_space (utf8.EncodeRune r) = true.
Proof.
  intros Hr. unfold utf8.EncodeRune.
  destruct (utf8.between 0 utf8.rune1Max r) eqn:E1.
  - unfold utf8.between, utf8.rune1Max in E1.
    apply andb_prop in E1 as [H0 H1].
    apply Z.leb_le in H0. apply Z.leb_le in H1.
    cbn [no_space]. rewrite andb_true_r. apply negb_true_iff.
    apply Ascii.eqb_neq. intros E. apply (f_equal code) in E.
    rewrite code_byte_of, Z.mod_small in E by lia. by apply Hr.
  - destruct (utf8.between 0 utf8.rune2Max r);
      [|cbv zeta; destruct (_ <=? utf8.rune3Max)];
      cbn [no_space]; by rewrite !high_byte_not_space.
Qed.

Lemma EncodeRune_length (r : Z) :
  (String.length (utf8.EncodeRune r) <= 4)%nat.
Proof.
  unfold utf8.EncodeRune.
  destruct (utf8.between 0 utf8.rune1Max r); [simpl; lia|].
  destruct (utf8.between 0 utf8.rune2Max r); [simpl; lia|].
  cbv zeta. destruct (_ <=? utf8.rune3Max); simpl; lia.
Qed.

Lemma runes_from_length (l : list Z) :
  forall skip, (length (utf8.runes_from skip l) <= length l)%nat.
Proof.
  induction l as [|s0 s IH]; intros skip; [done|].
  cbn [utf8.runes_from]. destruct skip as [|skip].
  - destruct (utf8.DecodeRune s0 s) as [r size]. cbn [length].
    specialize (IH (size - 1)%nat). lia.
  - cbn [length]. specialize (IH skip). lia.
Qed.

Lemma runes_length (input : string) :
  (length (utf8.runes input) <= String.length input)%nat.
Proof.
  unfold utf8.runes.
  etrans; [apply runes_from_length|].
  rewrite length_map. clear. induction input as [|c s IH]; simpl; lia.
Qed.

(** On bytes below 128 the runes are the bytes, and they are written back
    as they are. *)
Lemma runes_ascii (input : string) :
  isASCII input = true ->
  utf8.runes input = map code (list_ascii_of_string input).
Proof.
  unfold utf8.runes. induction input as [|c s IH]; intros H; [done|].
  cbn [isASCII] in H. apply andb_prop in H as [Hc Hs].
  cbn [list_ascii_of_string map utf8.runes_from]. unfold utf8.DecodeRune.
  rewrite Hc. cbn [Nat.sub]. by rewrite IH.
Qed.

Lemma rewritten_ascii (input : string) :
  isASCII input = true -> rewritten input = input.
Proof.
  intros H. unfold rewritten. rewrite runes_ascii by done.
  induction input as [|c s IH]; [done|].
  cbn [isASCII] in H. apply andb_prop in H as [Hc Hs].
  cbn [list_ascii_of_string map concat_strings]. rewrite IH by done.
  unfold utf8.EncodeRune, utf8.between, utf8.rune1Max.
  assert (0 <= code c) as H0 by (unfold code; lia).
  apply Z.ltb_lt in Hc.
  destruct (Z.leb_spec 0 (code c)); [|lia].
  destruct (Z.leb_spec (code c) 127); [|lia].
  cbn [andb]. by rewrite byte_of_code.
Qed.

(** ** The command-line client *)

Lemma step_parts_nonempty (st : cli.state) (char : Z) :
  Forall (fun p => p <> EmptyString) (cli.parts st) ->
  Forall (fun p => p <> EmptyString) (cli.parts (cli.step st char)).
Proof.
  intros H. unfold cli.step.
  destruct (cli.escaped st); [done|].
  destruct (char =? code cli.backslash); [done|].
  destruct (char =? code cli.quote); [done|].
  destruct ((char =? code " ") && negb (cli.inQuotes st)); [|done].
  destruct (cli.current st) as [|c cur] eqn:E; [done|].
  cbn [cli.parts]. apply Forall_app. split; [done|]. by repeat constructor.
Qed.

Lemma loop_parts_nonempty (input : list Z) :
  forall st,
    Forall (fun p => p <> EmptyString) (cli.parts st) ->
    Forall (fun p => p <> EmptyString) (cli.parts (cli.loop input st)).
Proof.
  induction input as [|c input IH]; intros st H; [done|].
  cbn [cli.loop]. by apply IH, step_parts_nonempty.
Qed.

(** X18.  The client never sends an empty argument: every part
    [parseCommandLine] gives is a non-empty string, whatever the input, so a
    pair of quotes with nothing between them yields no part at all. *)
Theorem cli_parts_are_never_empty (input : string) :
  Forall (fun p => p <> EmptyString) (cli.parseCommandLine input).
Proof.
  unfold cli.parseCommandLine. cbn zeta.
  pose proof (loop_parts_nonempty (utf8.runes input)
                (cli.mkState [] EmptyString false false)
                ltac:(constructor)) as H.
  destruct (cli.current _) as [|c cur] eqn:E; [done|].
  apply Forall_app. split; [done|]. by repeat constructor.
Qed.

Lemma split_spaces_cons (s : string) :
  exists w ws, split_spaces s = w :: ws.
Proof.
  induction s as [|c s (w & ws & IH)]; [by eexists _, _|].
  cbn [split_spaces]. destruct (Ascii.eqb c " "); [by eexists _, _|].
  rewrite IH. by eexists _, _.
Qed.

Lemma split_spaces_prefix (v rest w : string) (ws : list string) :
  no_space v = true -> split_spaces rest = w :: ws ->
  split_spaces (v +:+ rest) = (v +:+ w) :: ws.
Proof.
  intros Hv Hs. induction v as [|c v IH]; [done|].
  cbn [no_space] in Hv. apply andb_prop in Hv as [Hc Hv].
  apply negb_true_iff in Hc.
  rewrite !append_cons. cbn [split_spaces]. rewrite Hc. by rewrite IH.
Qed.

Lemma loop_plain (input : list Z) :
  forall st w ws,
    Forall (fun r => r <> code cli.backslash /\ r <> code cli.quote) input ->
    cli.inQuotes st = false -> cli.escaped st = false ->
    split_spaces (concat_strings (map utf8.EncodeRune input)) = w :: ws ->
    let st' := cli.loop input st in
    match cli.current st' with
    | EmptyString => cli.parts st'
    | _ => cli.parts st' ++ [cli.current st']
    end
    = cli.parts st
      ++ filter (fun p => p <> EmptyString) ((cli.current st +:+ w) :: ws).
Proof.
  induction input as [|c input IH]; intros st w ws Hp Hq He Hs.
  - injection Hs as <- <-. cbn [cli.loop]. cbn zeta. rewrite append_nil_r.
    destruct (cli.current st) as [|a cur].
    + by rewrite filter_cons_False, filter_nil, app_nil_r by (by intros []).
    + by rewrite filter_cons_True, filter_nil by done.
  - apply Forall_cons in Hp as [[Hb Hqu] Hp].
    cbn [cli.loop]. cbn [map concat_strings] in Hs.
    destruct (split_spaces_cons (concat_strings (map utf8.EncodeRune input)))
      as (w' & ws' & Hs').
    assert ((c =? code cli.backslash) = false) as Eb by (by apply Z.eqb_neq).
    assert ((c =? code cli.quote) = false) as Eq by (by apply Z.eqb_neq).
    unfold cli.step. rewrite He, Eb, Eq, Hq. cbn [negb].
    rewrite andb_true_r.
    change (code " ") with 32.
    destruct (Z.eqb_spec c 32) as [->|Hc].
    + rewrite EncodeRune_space in Hs.
      change (" " +:+ ?x) with (String " "%char x) in Hs.
      cbn [split_spaces] in Hs. change (Ascii.eqb " " " ") with true in Hs.
      cbv iota in Hs. rewrite Hs' in Hs.
      injection Hs as <- <-. rewrite append_nil_r.
      destruct (cli.current st) as [|a cur] eqn:Ec.
      * erewrite (IH st) by (try done; exact Hs').
        rewrite Ec. change (EmptyString +:+ w') with w'.
        by rewrite (filter_cons_False _ EmptyString) by (by intros []).
      * erewrite IH by (try done; exact Hs').
        cbn [cli.parts cli.current].
        change (EmptyString +:+ w') with w'.
        rewrite (filter_cons_True _ (String a cur)) by done.
        by rewrite <- app_assoc.
    + rewrite (split_spaces_prefix _ _ w' ws') in Hs
        by (try done; by apply EncodeRune_no_space).
      injection Hs as <- <-.
      erewrite IH by (try done; exact Hs').
      cbn [cli.parts cli.current].
      by rewrite append_assoc.
Qed.

(** The byte 255 is no valid UTF-8: it is sent as the three bytes of
    U+FFFD. *)
Lemma invalid_byte_is_replaced :
  cli.parseCommandLine (String (utf8.byte_of 255) EmptyString)
  = [String (utf8.byte_of 239)
       (String (utf8.byte_of 191) (String (utf8.byte_of 189) EmptyString))].
Proof. reflexivity. Qed.

(** X19.  On an input with no backslash and no double quote among its runes
    the client splits at the spaces and drops the empty fields: the parts
    are the maximal runs of bytes other than the space, in their order, of
    the input as [WriteRune] writes it back rune by rune.  That is the
    input itself when all its bytes are below 128; a byte that is no valid
    UTF-8 is sent as the three bytes of U+FFFD. *)
Theorem cli_splits_plain_input_at_spaces (input : string) :
  Forall (fun r => r <> code cli.backslash /\ r <> code cli.quote)
         (utf8.runes input) ->
  cli.parseCommandLine input
  = filter (fun p => p <> EmptyString) (split_spaces (rewritten input)) /\
  (isASCII input = true -> rewritten input = input).
Proof.
  intros Hp. split; [|apply rewritten_ascii].
  destruct (split_spaces_cons (rewritten input)) as (w & ws & Hs).
  unfold cli.parseCommandLine.
  rewrite (loop_plain (utf8.runes input)
             (cli.mkState [] EmptyString false false) w ws)
    by done.
  by rewrite Hs.
Qed.

Lemma cli_splits_plain_input_at_spaces_witness :
  cli.parseCommandLine "SET  a 1 "
  = filter (fun p => p <> EmptyString) (split_spaces (rewritten "SET  a 1 ")).
Proof.
  apply cli_splits_plain_input_at_spaces.
  repeat constructor; by vm_compute.
Defined.

(** The sizes: a step adds at most one part and at most four bytes. *)
Lemma step_size (st : cli.state) (char : Z) :
  (length (cli.parts (cli.step st char))
   + match cli.current (cli.step st char) with
     | EmptyString => 0 | _ => 1 end
   <= S (length (cli.parts st)
         + match cli.current st with EmptyString => 0 | _ => 1 end))%nat /\
  (forall n,
     Forall (fun p => String.length p <= n)%nat
            (cli.current st :: cli.parts st) ->
     Forall (fun p => String.length p <= 4 + n)%nat
            (cli.current (cli.step st char) :: cli.parts (cli.step st char))).
Proof.
  assert (forall n l, Forall (fun p => String.length p <= n)%nat l ->
                      Forall (fun p => String.length p <= 4 + n)%nat l)
    as Hmono.
  { intros n l H. eapply Forall_impl; [exact H|]. simpl. lia. }
  assert (forall s : string,
            (match s with EmptyString => 0 | _ => 1 end <= 1)%nat) as Hw
      by (by intros []; lia).
  pose proof (EncodeRune_length char) as Hr.
  unfold cli.step.
  destruct (cli.escaped st); [|
    destruct (char =? code cli.backslash); [|
      destruct (char =? code cli.quote); [|
        destruct ((char =? code " ") && negb (cli.inQuotes st)) ] ] ];
    cbn [cli.parts cli.current];
    try (split; [lia|intros n H; by apply Hmono]).
  - split; [pose proof (Hw (cli.current st +:+ utf8.EncodeRune char)); lia|].
    intros n H. apply Forall_cons in H as [Hc Hp].
    apply Forall_cons. split; [rewrite length_append; lia|].
    by apply Hmono.
  - destruct (cli.current st) as [|a cur] eqn:E; cbn [cli.parts cli.current].
    + rewrite E. split; [lia|intros n H; by apply Hmono].
    + split; [rewrite length_app; simpl; lia|].
      intros n H. apply Forall_cons in H as [Hc Hp].
      apply Forall_cons. split; [simpl; lia|].
      apply Forall_app. split; [by apply Hmono|].
      repeat constructor. lia.
  - split; [pose proof (Hw (cli.current st +:+ utf8.EncodeRune char)); lia|].
    intros n H. apply Forall_cons in H as [Hc Hp].
    apply Forall_cons. split; [rewrite length_append; lia|].
    by apply Hmono.
Qed.

Lemma loop_size (input : list Z) :
  forall st n m,
    (length (cli.parts st)
     + match cli.current st with EmptyString => 0 | _ => 1 end <= n)%nat ->
    Forall (fun p => String.length p <= m)%nat
           (cli.current st :: cli.parts st) ->
    let st' := cli.loop input st in
    (length (cli.parts st')
     + match cli.current st' with EmptyString => 0 | _ => 1 end
     <= n + length input)%nat /\
    Forall (fun p => String.length p <= m + 4 * length input)%nat
           (cli.current st' :: cli.parts st').
Proof.
  induction input as [|c input IH]; intros st n m Hn Hl; cbn [cli.loop].
  - cbn [length]. by rewrite Nat.mul_0_r, !Nat.add_0_r.
  - destruct (step_size st c) as [H1 H2].
    specialize (IH (cli.step st c) (S n) (4 + m)%nat ltac:(lia) (H2 m Hl)).
    cbn zeta in IH. destruct IH as [IH1 IH2].
    cbn [length]. split; [lia|].
    eapply Forall_impl; [exact IH2|]. simpl. lia.
Qed.

Lemma parseCommandLine_size (input : string) :
  (length (cli.parseCommandLine input) <= String.length input)%nat /\
  Forall (fun p => String.length p <= 4 * String.length input)%nat
         (cli.parseCommandLine input).
Proof.
  destruct (loop_size (utf8.runes input)
              (cli.mkState [] EmptyString false false) 0 0)
    as [H1 H2]; [simpl; lia|by repeat constructor|].
  cbn zeta in *. pose proof (runes_length input) as Hr.
  assert (Forall (fun p => String.length p <= 4 * String.length input)%nat
            (cli.current (cli.loop (utf8.runes input)
                            (cli.mkState [] EmptyString false false))
             :: cli.parts (cli.loop (utf8.runes input)
                             (cli.mkState [] EmptyString false false))))
    as H3 by (eapply Forall_impl; [exact H2|]; simpl; lia).
  clear H2. unfold cli.parseCommandLine. cbn zeta.
  apply Forall_cons in H3 as [Hc Hp].
  destruct (cli.current _) as [|a cur] eqn:E; [split; [lia|done]|].
  split; [rewrite length_app; simpl in *; lia|].
  apply Forall_app. split; [done|]. by repeat constructor.
Qed.

Lemma formatCommand_Serialize (input : string) :
  cli.parseCommandLine input <> [] ->
  cli.formatCommand input = Serialize (request (cli.parseCommandLine input)).
Proof.
  intros Hne. unfold cli.formatCommand.
  destruct (cli.parseCommandLine input) as [|p ps]; [done|].
  rewrite Serialize_request.
  rewrite (foldl_append (fun a => Serialize (bulk a))).
  change ("*" +:+ strconv.FormatInt (Z.of_nat (length (p :: ps))) +:+ crlf)
    with (String "*" (strconv.FormatInt (Z.of_nat (length (p :: ps)))
                      +:+ crlf)).
  by rewrite append_cons, append_assoc.
Qed.

(** X20.  What the client sends, the server reads: for an input of at most
    2^44 bytes, whatever its bytes, the client either sends nothing at all
    (the input has no part) or sends the frame of the parts it built rune
    by rune, which [readRESPArray] reads as exactly these parts, a command
    with at least one string, leaving the bytes that follow unread. *)
Theorem cli_command_is_read_by_server (input rest : string) :
  16 * Z.of_nat (String.length input) <= maxAlloc ->
  (cli.parseCommandLine input = [] -> cli.formatCommand input = EmptyString) /\
  (cli.parseCommandLine input <> [] ->
   cli.formatCommand input = Serialize (request (cli.parseCommandLine input)) /\
   readRESPArray (cli.formatCommand input +:+ rest)
   = Read (cli.parseCommandLine input) rest).
Proof.
  intros Hlen. split.
  - intros E. unfold cli.formatCommand. by rewrite E.
  - intros Hne. split; [by apply formatCommand_Serialize|].
    rewrite formatCommand_Serialize by done.
    apply readRESPArray_frame.
    destruct (parseCommandLine_size input) as [H1 H2]. split; [lia|].
    eapply Forall_impl; [exact H2|]. simpl. intros p Hp. lia.
Qed.

Lemma cli_command_is_read_by_server_witness :
  readRESPArray (cli.formatCommand "SET a 1" +:+ "*")
  = Read (cli.parseCommandLine "SET a 1") "*".
Proof.
  apply (proj2 (cli_command_is_read_by_server "SET a 1" "*"
                  ltac:(by vm_compute))).
  by vm_compute.
Defined.

(** ** Snapshots and the live database *)

Lemma TTL_unchanged (d : Database) (now : Z) (key : string) :
  expiry d !! key <> Some now -> isExpired d now key = false ->
  fst (TTL d now key) = d.
Proof.
  intros Hne Hx. unfold TTL, isExpired in *.
  destruct (data d !! key); [|done].
  destruct (expiry d !! key) as [e|]; [|done].
  unfold time.After in Hx. apply Z.ltb_ge in Hx.
  assert (now < e) as Hlt.
  { destruct (decide (e = now)) as [->|]; [done|lia]. }
  destruct (Seconds_live (time.Sub e now) (Sub_live e now Hlt)) as [-> _].
  done.
Qed.

Lemma save_keys_db (d : Database) (now : Z) (keys : list string) :
  (forall k, expiry d !! k <> Some now) ->
  Forall (fun k => isExpired d now k = false) keys ->
  forall data, fst (foldl (save_key now) (d, data) keys) = d.
Proof.
  intros Hne. induction keys as [|k keys IH]; intros Hk data; [done|].
  apply Forall_cons in Hk as [Hk Hks]. cbn [foldl].
  unfold save_key at 2.
  pose proof (Get_not_expired d now k Hk) as HG.
  destruct (Get d now k) as [d1 got]. cbn [fst] in HG. subst d1.
  pose proof (TTL_unchanged d now k (Hne k) Hk) as HT.
  destruct (TTL d now k) as [d2 ttl]. cbn [fst] in HT. subst d2.
  by apply IH.
Qed.

(** X21.  Writing a snapshot does not disturb the live database: when no
    key has its expiry instant exactly at the clock reading, [SaveRDB]
    leaves the data map and the expiry index as they are, in whatever order
    the keys are listed, and it leaves the log file alone.  (Keys that are
    already expired are skipped, not purged.) *)
Theorem snapshot_leaves_database (order : list string) (m : Manager)
        (d : Database) (files : Disk) (now : Z) :
  (forall k, expiry d !! k <> Some now) ->
  fst (SaveRDB_in order m d files now) = d /\
  appendonly_aof (snd (SaveRDB_in order m d files now))
  = appendonly_aof files.
Proof.
  intros Hne. unfold SaveRDB_in.
  destruct (negb (rdbEnabled m)); [done|]. cbn zeta.
  assert (Forall (fun k => isExpired d now k = false) (Keys_in order d now))
    as HF.
  { apply Forall_forall. intros k Hk. unfold Keys_in in Hk.
    by apply list_elem_of_filter in Hk as [? _]. }
  pose proof (save_keys_db d now (Keys_in order d now) Hne HF ∅) as H.
  destruct (foldl (save_key now) (d, ∅) (Keys_in order d now))
    as [d' data] eqn:E.
  cbn [fst snd appendonly_aof]. by split.
Qed.

Lemma snapshot_leaves_database_witness :
  fst (SaveRDB_in order_mixed (mkManager true true) db_mixed empty_disk 7)
  = db_mixed.
Proof.
  apply (snapshot_leaves_database order_mixed (mkManager true true) db_mixed
           empty_disk 7).
  intros k. unfold db_mixed. cbn [expiry].
  destruct (decide (k = "s"%string)) as [->|Hk].
  - rewrite lookup_singleton_eq. by intros [=].
  - by rewrite lookup_singleton_ne.
Defined.

(** ** EXISTS *)

Lemma Exists_loop (now : Z) (keys : list string) :
  forall d0 d c d' n,
    (forall k, (data d !! k = data d0 !! k /\
                expiry d !! k = expiry d0 !! k) \/
               (isExpired d0 now k = true /\
                data d !! k = None /\ expiry d !! k = None)) ->
    foldl (fun acc key =>
             let '(d', hit) := Exists (fst acc) now key in
             (d', if hit then snd acc + 1 else snd acc))
          (d, c) keys = (d', n) ->
    n = c + Z.of_nat
              (length (filter (fun k => is_Some (data d0 !! k) /\
                                        isExpired d0 now k = false) keys)) /\
    (forall k, (data d' !! k = data d0 !! k /\
                expiry d' !! k = expiry d0 !! k) \/
               (isExpired d0 now k = true /\
                data d' !! k = None /\ expiry d' !! k = None)) /\
    (forall k, k ∉ keys ->
               data d' !! k = data d !! k /\ expiry d' !! k = expiry d !! k) /\
    (forall k, k ∈ keys -> isExpired d0 now k = true ->
               data d' !! k = None /\ expiry d' !! k = None).
Proof.
  induction keys as [|k0 keys IH]; intros d0 d c d' n Hinv E.
  { injection E as <- <-. rewrite filter_nil. cbn [length].
    split; [lia|]. split; [done|]. split; [done|].
    intros k Hk. by apply elem_of_nil in Hk. }
  cbn [foldl fst snd] in E.
  assert (exists d1 hit,
            Exists d now k0 = (d1, hit) /\
            hit = bool_decide (is_Some (data d0 !! k0) /\
                               isExpired d0 now k0 = false) /\
            (forall k, (data d1 !! k = data d0 !! k /\
                        expiry d1 !! k = expiry d0 !! k) \/
                       (isExpired d0 now k = true /\
                        data d1 !! k = None /\ expiry d1 !! k = None)) /\
            (forall k, k <> k0 ->
                       data d1 !! k = data d !! k /\
                       expiry d1 !! k = expiry d !! k) /\
            (isExpired d0 now k0 = true ->
             data d1 !! k0 = None /\ expiry d1 !! k0 = None))
    as (d1 & hit & EX & Hhit & Hinv1 & Hframe & Hgone).
  { unfold Exists.
    destruct (Hinv k0) as [[Hd He]|(Hx & Hd & He)].
    - assert (isExpired d now k0 = isExpired d0 now k0) as Hsame
          by (unfold isExpired; by rewrite He).
      rewrite Hsame.
      destruct (isExpired d0 now k0) eqn:Hx.
      + eexists _, _. split; [done|]. split.
        { symmetry. apply bool_decide_eq_false. by intros [_ ?]. }
        split; [|split].
        * intros k. destruct (decide (k = k0)) as [->|Hk].
          -- right. cbn [purge data expiry]. by rewrite !lookup_delete_eq.
          -- cbn [purge data expiry]. rewrite !lookup_delete_ne by done.
             apply Hinv.
        * intros k Hk. cbn [purge data expiry].
          by rewrite !lookup_delete_ne.
        * intros _. cbn [purge data expiry]. by rewrite !lookup_delete_eq.
      + eexists _, _. split; [done|]. split.
        { rewrite Hd. apply bool_decide_ext. tauto. }
        split; [done|]. split; [done|]. done.
    - assert (isExpired d now k0 = false) as ->
          by (unfold isExpired; by rewrite He).
      eexists _, _. split; [done|]. split.
      { rewrite Hd. rewrite bool_decide_eq_false_2 by (by intros [? ?]).
        symmetry. apply bool_decide_eq_false_2. intros [_ ?]. congruence. }
      split; [done|]. split; [done|]. done. }
  rewrite EX in E.
  apply (IH d0) in E as (Hn & Hinv' & Hframe' & Hgone'); [|done].
  split.
  { rewrite Hn, Hhit. rewrite filter_cons.
    destruct (decide (is_Some (data d0 !! k0) /\ isExpired d0 now k0 = false))
      as [Hl|Hl].
    - rewrite bool_decide_eq_true_2 by done. cbn [length]. lia.
    - rewrite bool_decide_eq_false_2 by done. lia. }
  split; [done|]. split.
  - intros k Hk. apply not_elem_of_cons in Hk as [Hk0 Hk].
    destruct (Hframe' k Hk) as [-> ->]. by apply Hframe.
  - intros k Hk Hx. apply elem_of_cons in Hk as [->|Hk].
    + destruct (decide (k0 ∈ keys)) as [Hin|Hnin]; [by apply Hgone'|].
      destruct (Hframe' k0 Hnin) as [-> ->]. by apply Hgone.
    + by apply Hgone'.
Qed.

(** X22.  EXISTS answers the number of names that are stored and not
    expired, a name given twice counting twice; it removes the named keys
    that are expired from both maps and changes nothing else. *)
Theorem exists_counts_live_names (d : Database) (now : Z) (key : string)
        (keys : list string) :
  let d' := fst (handleExists d now (key :: keys)) in
  snd (handleExists d now (key :: keys))
  = integer (Z.of_nat
               (length (filter (fun k => is_Some (data d !! k) /\
                                         isExpired d now k = false)
                               (key :: keys)))) /\
  (forall k, k ∈ key :: keys -> isExpired d now k = true ->
             data d' !! k = None /\ expiry d' !! k = None) /\
  (forall k, k ∉ key :: keys \/ isExpired d now k = false ->
             data d' !! k = data d !! k /\ expiry d' !! k = expiry d !! k).
Proof.
  unfold handleExists, count_loop.
  destruct (foldl _ (d, 0) (key :: keys)) as [d' n] eqn:E.
  apply (Exists_loop now (key :: keys) d) in E
    as (Hn & Hinv & Hframe & Hgone); [|by left].
  cbn [fst snd]. split; [by rewrite Hn|]. split; [done|].
  intros k [Hk|Hk]; [by apply Hframe|].
  destruct (Hinv k) as [?|(Hx & _)]; [done|congruence].
Qed.

(** ** Replies, as the client prints them *)

Lemma ReadString_no_LF (s rest : string) :
  Forall (fun c => c <> LF) (list_ascii_of_string s) ->
  ReadString (s +:+ String LF rest) = Some (s +:+ lf, rest).
Proof.
  induction s as [|c s IH]; intros Hs; [done|].
  cbn [list_ascii_of_string] in Hs. apply Forall_cons in Hs as [Hc Hs].
  rewrite !append_cons. cbn [ReadString].
  destruct (Ascii.eqb_spec c LF) as [->|_]; [done|]. by rewrite IH.
Qed.

Lemma ReadString_crlf (s rest : string) :
  Forall (fun c => c <> LF) (list_ascii_of_string s) ->
  ReadString (s +:+ crlf +:+ rest) = Some (s +:+ crlf, rest).
Proof.
  intros Hs.
  change (s +:+ crlf +:+ rest)
    with (s +:+ String CR EmptyString +:+ String LF rest).
  rewrite <- append_assoc, ReadString_no_LF.
  - by rewrite append_assoc.
  - rewrite list_ascii_of_string_app. apply Forall_app. split; [done|].
    by repeat constructor.
Qed.

Lemma TrimSuffix_crlf (s : string) : cli.TrimSuffix (s +:+ crlf) crlf = s.
Proof.
  induction s as [|c s IH]; [done|].
  rewrite append_cons.
  cbn [cli.TrimSuffix].
  destruct (String.eqb_spec (String c (s +:+ crlf)) crlf) as [E|_].
  - apply (f_equal String.length) in E. cbn [String.length] in E.
    rewrite length_append in E. simpl in E. lia.
  - by rewrite IH.
Qed.

Lemma printable_no_LF (s : string) :
  printable s -> Forall (fun c => c <> LF) (list_ascii_of_string s).
Proof.
  unfold printable. intros H. eapply Forall_impl; [exact H|].
  intros c Hc ->. change (code LF) with 10 in Hc. lia.
Qed.

(** The client reads a number line back. *)
Lemma number_line (n : Z) (rest : string) :
  ReadString (strconv.FormatInt n +:+ crlf +:+ rest)
  = Some (strconv.FormatInt n +:+ crlf, rest).
Proof.
  apply ReadString_crlf, printable_no_LF, FormatInt_printable.
Qed.

Lemma print_bulk (fuel : nat) (a rest : string) :
  Z.of_nat (String.length a) <= maxAlloc ->
  cli.readAndPrintResponse (S fuel) (Serialize (bulk a) +:+ rest)
  = (String cli.quote a +:+ String cli.quote lf, cli.Done rest).
Proof.
  intros Ha. rewrite Serialize_bulk, append_cons, !append_assoc.
  cbn [cli.readAndPrintResponse].
  change (Ascii.eqb "$" "+") with false. change (Ascii.eqb "$" "-") with false.
  change (Ascii.eqb "$" ":") with false. change (Ascii.eqb "$" "$") with true.
  cbv iota. rewrite number_line, TrimSuffix_crlf. cbv zeta.
  unfold strconv.Atoi. rewrite ParseInt_FormatInt by (apply maxAlloc_int64; lia).
  assert ((Z.of_nat (String.length a) =? -1) = false) as ->
      by (apply Z.eqb_neq; lia).
  assert ((Z.of_nat (String.length a) <? 0) = false) as ->
      by (apply Z.ltb_ge; lia).
  assert ((maxAlloc <? Z.of_nat (String.length a)) = false) as ->
      by (apply Z.ltb_ge; lia).
  cbn [orb]. rewrite ReadFull_exact.
  change (crlf +:+ rest) with (String CR (String LF rest)). reflexivity.
Qed.

Lemma readElements_bulks (call : Reader -> string * cli.outcome)
      (l : list string) :
  forall n i rest,
    (forall a r, a ∈ l ->
       call (Serialize (bulk a) +:+ r)
       = (String cli.quote a +:+ String cli.quote lf, cli.Done r)) ->
    (length l <= n)%nat ->
    cli.readElements call n i (i + Z.of_nat (length l))
      (concat_strings (map (fun a => Serialize (bulk a)) l) +:+ rest)
    = (shown_elements i l, cli.Done rest).
Proof.
  induction l as [|a l IH]; intros n i rest Hcall Hn.
  - assert ((i + Z.of_nat (length (@nil string)) <=? i) = true) as E
        by (apply Z.leb_le; simpl; lia).
    destruct n; cbn [cli.readElements]; by rewrite E.
  - destruct n as [|n]; [simpl in Hn; lia|].
    cbn [cli.readElements].
    assert ((i + Z.of_nat (length (a :: l)) <=? i) = false) as ->
        by (apply Z.leb_gt; simpl; lia).
    cbn [map concat_strings]. rewrite append_assoc.
    rewrite Hcall by (by left).
    replace (i + Z.of_nat (length (a :: l)))
      with (i + 1 + Z.of_nat (length l)) by (simpl; lia).
    rewrite IH; [|intros; apply Hcall; by right|simpl in Hn; lia].
    cbn [shown_elements]. by rewrite !append_assoc.
Qed.

(** X23.  [readAndPrintResponse], given a reader that holds a whole reply
    as [Serialize] writes it, followed by any bytes, prints the reply and
    reads it to its end: a status or an error line without line feed, an
    integer, a bulk string (in double quotes, whatever bytes it holds), the
    null bulk string as (nil), and the array of bulk strings that KEYS
    answers, one numbered line per element.  The bytes after the reply are
    left unread and no error is returned.  This is about the function and
    the reader it is given: [main] gives it the bytes of one [conn.Read] of
    at most 1024 bytes, so it gets the whole reply only when the reply is
    that short and arrives in one piece. *)
Theorem cli_prints_every_reply (fuel : nat) (rest : string) (s : string)
        (n : Z) (l : list string) :
  (Forall (fun c => c <> LF) (list_ascii_of_string s) ->
   prints_as fuel rest (simple s) (cli.line_out "OK: " s) /\
   prints_as fuel rest (protocol.error s) (cli.line_out "(error) " s)) /\
  prints_as fuel rest (integer n)
            (cli.line_out "(integer) " (strconv.FormatInt n)) /\
  (Z.of_nat (String.length s) <= maxAlloc ->
   prints_as fuel rest (bulk s) (String cli.quote s +:+ String cli.quote lf)) /\
  prints_as fuel rest null_bulk (cli.line_out "(nil)" EmptyString) /\
  (sendable l ->
   prints_as fuel rest (array (map bulk l))
     match l with
     | [] => cli.line_out "(empty array)" EmptyString
     | _ => "Array with " +:+ strconv.FormatInt (Z.of_nat (length l))
              +:+ " elements:" +:+ lf +:+ shown_elements 0 l
     end).
Proof.
  unfold prints_as.
  split; [intros Hs; split|split; [|split; [|split]]].
  - intros Hf. destruct fuel as [|fuel]; [lia|].
    change (Serialize (simple s)) with (String "+" (s +:+ crlf)).
    rewrite append_cons, append_assoc. cbn [cli.readAndPrintResponse].
    change (Ascii.eqb "+" "+") with true. cbv iota.
    by rewrite ReadString_crlf, TrimSuffix_crlf.
  - intros Hf. destruct fuel as [|fuel]; [lia|].
    change (Serialize (protocol.error s)) with (String "-" (s +:+ crlf)).
    rewrite append_cons, append_assoc. cbn [cli.readAndPrintResponse].
    change (Ascii.eqb "-" "+") with false. change (Ascii.eqb "-" "-") with true.
    cbv iota. by rewrite ReadString_crlf, TrimSuffix_crlf.
  - intros Hf. destruct fuel as [|fuel]; [lia|].
    change (Serialize (integer n))
      with (String ":" (strconv.FormatInt n +:+ crlf)).
    rewrite append_cons, append_assoc. cbn [cli.readAndPrintResponse].
    change (Ascii.eqb ":" "+") with false. change (Ascii.eqb ":" "-") with false.
    change (Ascii.eqb ":" ":") with true.
    cbv iota. by rewrite number_line, TrimSuffix_crlf.
  - intros Hs Hf. destruct fuel as [|fuel]; [lia|]. by apply print_bulk.
  - intros Hf. destruct fuel as [|fuel]; [lia|]. reflexivity.
  - intros [Hn Hl] Hf. destruct fuel as [|fuel]; [lia|].
    change (array (map bulk l)) with (request l) in *.
    rewrite Serialize_request in *. rewrite append_cons, !append_assoc in *.
    cbn [String.length] in Hf.
    cbn [cli.readAndPrintResponse].
    change (Ascii.eqb "*" "+") with false. change (Ascii.eqb "*" "-") with false.
    change (Ascii.eqb "*" ":") with false. change (Ascii.eqb "*" "$") with false.
    change (Ascii.eqb "*" "*") with true.
    cbv iota. rewrite number_line, TrimSuffix_crlf. cbv zeta.
    unfold strconv.Atoi.
    rewrite ParseInt_FormatInt by (apply maxAlloc_int64; lia).
    destruct l as [|a l]; [reflexivity|].
    assert ((Z.of_nat (length (a :: l)) =? 0) = false) as ->
        by (apply Z.eqb_neq; simpl; lia).
    assert ((Z.of_nat (length (a :: l)) =? -1) = false) as ->
        by (apply Z.eqb_neq; lia).
    destruct fuel as [|fuel].
    { rewrite length_append in Hf.
      destruct (FormatInt_printable (Z.of_nat (length (a :: l)))) as [_ Hne].
      destruct (strconv.FormatInt (Z.of_nat (length (a :: l)))); [done|].
      simpl in Hf. lia. }
    rewrite (readElements_bulks _ (a :: l) _ 0).
    + done.
    + intros b r Hb. apply print_bulk.
      by apply (proj1 (Forall_forall _ _) Hl).
    + apply frames_length.
Qed.

Lemma cli_prints_every_reply_witness :
  cli.readAndPrintResponse 40 (Serialize (array (map bulk ["a"; "bc"]%string)))
  = ("Array with 2 elements:" +:+ lf
       +:+ shown_elements 0 ["a"; "bc"]%string,
     cli.Done EmptyString).
Proof.
  rewrite <- (append_nil_r (Serialize (array (map bulk ["a"; "bc"]%string)))).
  apply (proj2 (proj2 (proj2 (proj2
           (cli_prints_every_reply 40 EmptyString EmptyString 0
                                   ["a"; "bc"]%string))))).
  - split; [by vm_compute|]. repeat constructor; by vm_compute.
  - vm_compute. lia.
Defined.

(** ** The parser *)

Lemma Split_nonempty (s : string) : parser.Split s <> [].
Proof.
  induction s as [|c s IH]; [done|].
  cbn [parser.Split]. destruct s as [|d s']; [done|].
  destruct (Ascii.eqb c CR && Ascii.eqb d LF); [done|].
  unfold parser.cons_head. by destruct (parser.Split (String d s')).
Qed.

(** X24.  [Parse] never reports an error: its test for no lines is never
    true, because splitting gives at least one piece, so for every input it
    returns a value or [nil] with a [nil] error, unless [make] panics on the
    count of an array. *)
Theorem parse_never_reports_an_error (input : string) :
  parser.Split (strings.TrimSpace input) <> [] /\
  (parser.Parse input = parser.Panicked \/
   exists value, parser.Parse input = parser.Returns value None).
Proof.
  split; [apply Split_nonempty|].
  unfold parser.Parse. cbn zeta.
  pose proof (Split_nonempty (strings.TrimSpace input)) as Hne.
  destruct (parser.Split (strings.TrimSpace input)) as [|l ls] eqn:E; [done|].
  destruct (parser.parseValue _ _ _) as [value index|].
  - right. by exists value.
  - by left.
Qed.

Lemma Split_no_LF (a : string) : no_LF a -> parser.Split a = [a].
Proof.
  unfold no_LF. induction a as [|c a IH]; intros Ha; [done|].
  cbn [list_ascii_of_string] in Ha. apply Forall_cons in Ha as [_ Ha].
  cbn [parser.Split]. destruct a as [|d a']; [done|].
  pose proof Ha as Hd. cbn [list_ascii_of_string] in Hd.
  apply Forall_cons in Hd as [Hd _].
  assert (Ascii.eqb d LF = false) as -> by (by apply Ascii.eqb_neq).
  rewrite andb_false_r. by rewrite IH.
Qed.

Lemma Split_line (a s : string) :
  no_LF a -> parser.Split (a +:+ crlf +:+ s) = a :: parser.Split s.
Proof.
  unfold no_LF. induction a as [|c a IH]; intros Ha; [done|].
  cbn [list_ascii_of_string] in Ha. apply Forall_cons in Ha as [_ Ha].
  rewrite append_cons. cbn [parser.Split].
  specialize (IH Ha).
  destruct a as [|d a'].
  - change (EmptyString +:+ crlf +:+ s) with (String CR (String LF s)) in *.
    cbv beta iota.
    change (Ascii.eqb CR LF) with false. rewrite andb_false_r.
    by rewrite IH.
  - pose proof Ha as Hd. cbn [list_ascii_of_string] in Hd.
    apply Forall_cons in Hd as [Hd _].
    rewrite append_cons in *. cbv beta iota.
    assert (Ascii.eqb d LF = false) as -> by (by apply Ascii.eqb_neq).
    rewrite andb_false_r. by rewrite IH.
Qed.

Lemma join_lines_cons (l l' : string) (ls : list string) :
  join_lines (l :: l' :: ls) = l +:+ crlf +:+ join_lines (l' :: ls).
Proof. reflexivity. Qed.

Lemma Split_join (ls : list string) :
  ls <> [] -> Forall no_LF ls -> parser.Split (join_lines ls) = ls.
Proof.
  induction ls as [|l ls IH]; intros Hne Hl; [done|].
  apply Forall_cons in Hl as [Hl Hls].
  destruct ls as [|l' ls]; [by apply Split_no_LF|].
  rewrite join_lines_cons, Split_line by done. by rewrite IH.
Qed.

Lemma join_request_lines (cmd : list string) :
  forall l0,
    join_lines
      (l0 :: flat_map
               (fun a => ["$" +:+ strconv.FormatInt
                                    (Z.of_nat (String.length a)); a]) cmd)
      +:+ crlf
    = l0 +:+ crlf +:+ concat_strings (map (fun a => Serialize (bulk a)) cmd).
Proof.
  induction cmd as [|a cmd IH]; intros l0; [done|].
  cbn [flat_map app map concat_strings].
  rewrite !join_lines_cons, !append_assoc, IH.
  rewrite Serialize_bulk. rewrite !append_cons, ?append_assoc. done.
Qed.

Lemma Serialize_request_lines (cmd : list string) :
  Serialize (request cmd) = join_lines (request_lines cmd) +:+ crlf.
Proof.
  unfold request_lines. rewrite join_request_lines, Serialize_request.
  by rewrite append_cons.
Qed.

Lemma last_append (s1 s2 : string) (c : ascii) :
  last (list_ascii_of_string s2) = Some c ->
  last (list_ascii_of_string (s1 +:+ s2)) = Some c.
Proof.
  intros H. by rewrite list_ascii_of_string_app, last_app, H.
Qed.

Lemma join_lines_last (ls : list string) (l : string) :
  last ls = Some l -> ends_printable l -> ends_printable (join_lines ls).
Proof.
  intros Hlast (c & Hc & Hp). exists c. split; [|done].
  induction ls as [|l0 ls IH]; [done|].
  destruct ls as [|l1 ls]; [by injection Hlast as ->|].
  rewrite join_lines_cons. apply last_append, last_append, IH.
  exact Hlast.
Qed.

Lemma FormatInt_ends_printable (n : Z) (prefix : string) :
  ends_printable (prefix +:+ strconv.FormatInt n).
Proof.
  destruct (FormatInt_printable n) as [Hp Hne].
  destruct (printable_printable_ends _ Hp Hne) as [_ (c & Hc & Hpc)].
  exists c. split; [|done]. by apply last_append.
Qed.

Lemma request_lines_ends (cmd : list string) :
  (forall a, last cmd = Some a -> ends_printable a) ->
  printable_ends (join_lines (request_lines cmd)).
Proof.
  intros Hlast. split.
  - exists "*"%char. split; [|by compute].
    unfold request_lines. destruct cmd as [|a cmd]; [done|].
    cbn [flat_map app]. by rewrite join_lines_cons.
  - destruct (last (request_lines cmd)) as [l|] eqn:El.
    2:{ by apply last_None in El. }
    apply (join_lines_last _ l El).
    unfold request_lines in El.
    destruct cmd as [|a cmd _] using rev_ind.
    + injection El as <-. apply (FormatInt_ends_printable 0 "*").
    + rewrite flat_map_app, last_cons, last_app in El.
      cbn [flat_map app last] in El.
      injection El as <-. apply Hlast. by rewrite last_snoc.
Qed.

Lemma request_lines_no_LF (cmd : list string) :
  Forall no_LF cmd -> Forall no_LF (request_lines cmd).
Proof.
  intros Hc. unfold request_lines. apply Forall_cons. split.
  { unfold no_LF. rewrite list_ascii_of_string_app. apply Forall_app.
    split; [by repeat constructor|].
    apply printable_no_LF, FormatInt_printable. }
  induction Hc as [|a cmd Ha Hc IH]; [constructor|].
  cbn [flat_map app]. apply Forall_cons. split; [|by apply Forall_cons].
  unfold no_LF. rewrite list_ascii_of_string_app. apply Forall_app.
  split; [by repeat constructor|].
  apply printable_no_LF, FormatInt_printable.
Qed.

Lemma parseElements_bulks (fuel : nat) (rest : list string) :
  forall prefix acc i n,
    Forall (fun a => Z.of_nat (String.length a) <= maxAlloc) rest ->
    (length rest <= n)%nat ->
    let lines :=
      prefix ++ flat_map
                  (fun a => ["$" +:+ strconv.FormatInt
                                       (Z.of_nat (String.length a)); a])
                  rest in
    parser.parseElements (parser.parseValue (S fuel) lines) n i
                         (i + Z.of_nat (length rest)) (length prefix) acc
    = parser.Parsed
        (Some (mkRESP Array EmptyString 0 (acc ++ map bulk rest) false))
        (length prefix + 2 * length rest).
Proof.
  induction rest as [|a rest IH]; intros prefix acc i n Hl Hn lines.
  - assert ((i + Z.of_nat (length (@nil string)) <=? i) = true) as E
        by (apply Z.leb_le; simpl; lia).
    destruct n; cbn [parser.parseElements]; rewrite E;
      cbn [map length]; by rewrite app_nil_r, Nat.add_0_r.
  - apply Forall_cons in Hl as [Ha Hl].
    destruct n as [|n]; [simpl in Hn; lia|].
    subst lines. cbn [flat_map app].
    change ("$" +:+ strconv.FormatInt (Z.of_nat (String.length a)))
      with (String "$" (strconv.FormatInt (Z.of_nat (String.length a)))).
    set (lines := prefix ++ _ :: a :: flat_map _ rest).
    assert (parser.parseValue (S fuel) lines (length prefix)
            = parser.Parsed (Some (mkRESP BulkString a 0 [] false))
                            (length prefix + 2)) as Hcall.
    { cbn [parser.parseValue]. subst lines.
      rewrite list_lookup_middle by done. cbv beta iota.
      change (Ascii.eqb "$" "*") with false.
      change (Ascii.eqb "$" "$") with true.
      cbv iota. unfold parser.parseBulkString, strconv.Atoi.
      rewrite ParseInt_FormatInt by (apply maxAlloc_int64; lia).
      assert ((Z.of_nat (String.length a) =? -1) = false) as ->
          by (apply Z.eqb_neq; lia).
      rewrite lookup_app_r by lia.
      replace (length prefix + 1 - length prefix)%nat with 1%nat by lia.
      reflexivity. }
    cbn [parser.parseElements].
    assert ((i + Z.of_nat (length (a :: rest)) <=? i) = false) as ->
        by (apply Z.leb_gt; simpl; lia).
    rewrite Hcall.
    replace (i + Z.of_nat (length (a :: rest)))
      with (i + 1 + Z.of_nat (length rest)) by (simpl; lia).
    specialize (IH (prefix ++ [String "$" (strconv.FormatInt
                                             (Z.of_nat (String.length a))); a])
                   (acc ++ [mkRESP BulkString a 0 [] false]) (i + 1) n Hl
                   ltac:(simpl in Hn; lia)).
    cbn zeta in IH. rewrite <- !app_assoc in IH. cbn [app] in IH.
    rewrite length_app in IH. cbn [length] in IH.
    subst lines. rewrite IH. f_equal. cbn [length]. lia.
Qed.

Lemma parseValue_request (fuel : nat) (cmd : list string) :
  sendable cmd ->
  parser.parseValue (S (S fuel)) (request_lines cmd) 0
  = parser.Parsed (Some (request cmd)) (1 + 2 * length cmd).
Proof.
  intros [Hn Hl]. remember (S fuel) as f eqn:Ef.
  cbn [parser.parseValue]. unfold request_lines at 1.
  cbn [lookup list_lookup].
  change ("*" +:+ strconv.FormatInt (Z.of_nat (length cmd)))
    with (String "*" (strconv.FormatInt (Z.of_nat (length cmd)))).
  cbv beta iota. change (Ascii.eqb "*" "*") with true. cbv iota.
  unfold parser.parseArray, strconv.Atoi.
  rewrite ParseInt_FormatInt by (apply maxAlloc_int64; lia).
  assert ((Z.of_nat (length cmd) <? 0) = false) as ->
      by (apply Z.ltb_ge; lia).
  assert ((maxAlloc <? 8 * Z.of_nat (length cmd)) = false) as ->
      by (apply Z.ltb_ge; lia).
  cbn [orb]. subst f.
  pose proof (parseElements_bulks fuel cmd
                [String "*" (strconv.FormatInt (Z.of_nat (length cmd)))]
                [] 0 (length (request_lines cmd)) Hl) as H.
  cbn zeta in H. rewrite Z.add_0_l in H.
  unfold request. unfold request_lines in *.
  change ("*" +:+ strconv.FormatInt (Z.of_nat (length cmd)))
    with (String "*" (strconv.FormatInt (Z.of_nat (length cmd)))) in *.
  cbn [app length] in H. cbn [length].
  change (0 + 1)%nat with 1%nat.
  rewrite H; [done|].
  clear. induction cmd as [|a cmd IH]; simpl; lia.
Qed.

(** X25.  The parser reads back what [Serialize] writes: a request whose
    strings hold no line feed and whose last string ends in printable ASCII
    (the input is trimmed as a whole), a status or error line of that kind,
    an integer and the null bulk string are each returned as the value that
    was serialized, with no error. *)
Theorem parse_reads_back_serialized (cmd : list string) (s : string) (n : Z) :
  (sendable cmd -> Forall no_LF cmd ->
   (forall a, last cmd = Some a -> ends_printable a) ->
   parser.Parse (Serialize (request cmd))
   = parser.Returns (Some (request cmd)) None) /\
  (no_LF s -> s = EmptyString \/ ends_printable s ->
   parser.Parse (Serialize (simple s))
   = parser.Returns (Some (simple s)) None /\
   parser.Parse (Serialize (protocol.error s))
   = parser.Returns (Some (protocol.error s)) None) /\
  (in_int64 n ->
   parser.Parse (Serialize (integer n))
   = parser.Returns (Some (integer n)) None) /\
  parser.Parse (Serialize null_bulk) = parser.Returns (Some null_bulk) None.
Proof.
  assert (forall t body,
            33 <= code t <= 127 -> no_LF body ->
            body = EmptyString \/ ends_printable body ->
            strings.TrimSpace (String t body +:+ crlf) = String t body /\
            parser.Split (String t body) = [String t body]) as Hline.
  { intros t body Ht Hb Hend. split.
    - apply TrimSpace_ends. split; [by exists t|].
      destruct Hend as [->|(c & Hc & Hp)]; [by exists t|].
      exists c. split; [|done].
      by apply (last_append (String t EmptyString)).
    - apply Split_no_LF. unfold no_LF. cbn [list_ascii_of_string].
      apply Forall_cons. split; [|done]. intros ->.
      change (code LF) with 10 in Ht. lia. }
  split; [|split; [|split]].
  - intros Hs Hlf Hlast. unfold parser.Parse.
    rewrite Serialize_request_lines.
    rewrite TrimSpace_ends by (by apply request_lines_ends).
    rewrite Split_join by (try done; by apply request_lines_no_LF).
    cbn zeta.
    assert (exists fuel, length (request_lines cmd) = S fuel) as [fuel ->]
        by (by eexists).
    rewrite parseValue_request by done.
    unfold request_lines. done.
  - intros Hlf Hend.
    split; unfold parser.Parse.
    + change (Serialize (simple s)) with (String "+" s +:+ crlf).
      destruct (Hline "+"%char s ltac:(by compute) Hlf Hend) as [-> ->].
      reflexivity.
    + change (Serialize (protocol.error s)) with (String "-" s +:+ crlf).
      destruct (Hline "-"%char s ltac:(by compute) Hlf Hend) as [-> ->].
      reflexivity.
  - intros Hn. unfold parser.Parse.
    change (Serialize (integer n))
      with (String ":" (strconv.FormatInt n) +:+ crlf).
    destruct (Hline ":"%char (strconv.FormatInt n) ltac:(by compute)
                    (printable_no_LF _ (proj1 (FormatInt_printable n)))
                    (or_intror (FormatInt_ends_printable n EmptyString)))
      as [-> ->].
    cbn zeta. cbn [length parser.parseValue lookup list_lookup].
    change (Ascii.eqb ":" "*") with false. change (Ascii.eqb ":" "$") with false.
    change (Ascii.eqb ":" "+") with false. change (Ascii.eqb ":" "-") with false.
    change (Ascii.eqb ":" ":") with true. cbv iota.
    by rewrite ParseInt_FormatInt.
  - by vm_compute.
Qed.

Lemma parse_reads_back_serialized_witness :
  parser.Parse (Serialize (request ["SET"; "k"; "a b"]%string))
  = parser.Returns (Some (request ["SET"; "k"; "a b"]%string)) None.
Proof.
  apply (proj1 (parse_reads_back_serialized ["SET"; "k"; "a b"]%string
                  EmptyString 0)).
  - split; [by vm_compute|]. repeat constructor; by vm_compute.
  - repeat constructor; by vm_compute.
  - intros a [= <-]. exists "b"%char. split; [done|by compute].
Defined.

(** ** The instant of expiry *)

(** X26.  At the very instant a key expires the methods disagree: [Get]
    still answers the value, [Exists] answers true and [Keys] lists the key,
    none of them changing the database, while [TTL] answers -2 and deletes
    the key, after which [Get] answers nothing. *)
Theorem at_the_expiry_instant (d : Database) (now : Z) (key : string)
        (val : Value) (order : list string) :
  data d !! key = Some val -> database.Type_ val = StringType ->
  expiry d !! key = Some now ->
  Get d now key = (d, Some (StrVal val)) /\
  Exists d now key = (d, true) /\
  (key ∈ order -> key ∈ Keys_in order d now) /\
  TTL d now key = (purge d key, -2) /\
  snd (Get (fst (TTL d now key)) now key) = None.
Proof.
  intros Hk Ht He.
  assert (isExpired d now key = false) as Hx.
  { unfold isExpired, time.After. rewrite He. apply Z.ltb_irrefl. }
  assert (TTL d now key = (purge d key, -2)) as HT.
  { unfold TTL. rewrite Hk, He. cbn zeta.
    assert (time.Sub now now = 0) as ->.
    { unfold time.Sub. rewrite Z.sub_diag. reflexivity. }
    reflexivity. }
  split; [by apply Get_live|]. split.
  { unfold Exists. rewrite Hx, Hk. by rewrite bool_decide_eq_true_2. }
  split.
  { intros Hin. unfold Keys_in. by apply list_elem_of_filter. }
  split; [done|].
  rewrite HT. cbn [fst]. apply Get_absent.
  cbn [purge data]. apply lookup_delete_eq.
Qed.

Lemma at_the_expiry_instant_witness :
  Get db_9_9 9900000000 "k" = (db_9_9, Some "v"%string) /\
  TTL db_9_9 9900000000 "k" = (purge db_9_9 "k", -2).
Proof.
  destruct (at_the_expiry_instant db_9_9 9900000000 "k" (string_value "v") []
              ltac:(reflexivity) ltac:(reflexivity) ltac:(reflexivity))
    as (HG & _ & _ & HT & _).
  by split.
Defined.

(** ** The first server *)

Lemma first_del_loop (args : list string) :
  forall (store : gmap string string) c (store' : gmap string string) n,
    foldl (fun acc key =>
             match fst acc !! key with
             | Some _ => (delete key (fst acc), snd acc + 1)
             | None => acc
             end)
          (store, c) args = (store', n) ->
    (forall k, store' !! k
               = if decide (k ∈ args) then None else store !! k) /\
    n = c + Z.of_nat (size store) - Z.of_nat (size store').
Proof.
  induction args as [|k0 args IH]; intros store c store' n E; simpl in E.
  { injection E as <- <-. split; [|lia]. intros k.
    destruct (decide (k ∈ [])) as [Hin|]; [|done].
    by apply elem_of_nil in Hin. }
  destruct (store !! k0) as [v0|] eqn:Hk0.
  - apply IH in E as [Hlook Hn]. split.
    + intros k. rewrite Hlook, if_elem_of_cons.
      destruct (decide (k = k0)) as [->|Hne].
      * rewrite lookup_delete_eq. by destruct (decide _).
      * by rewrite lookup_delete_ne.
    + rewrite Hn. rewrite map_size_delete_Some by (by eexists).
      destruct (size store) as [|m] eqn:Hz; [|simpl; lia].
      apply map_size_empty_inv in Hz. rewrite Hz in Hk0.
      by rewrite lookup_empty in Hk0.
  - destruct (store, c) as [s0 c0] eqn:Ep. injection Ep as <- <-.
    apply IH in E as [Hlook Hn]. split; [|done].
    intros k. rewrite Hlook, if_elem_of_cons.
    destruct (decide (k = k0)) as [->|Hne]; [|done].
    rewrite Hk0. by destruct (decide _).
Qed.

(** X27.  In the first server SET stores the value, which GET then answers
    (GET of a key that is not stored answers (nil)), and DEL removes the
    named keys and no other and answers, in decimal, the number of keys the
    store lost. *)
Theorem first_server_set_get_del (store : first.RedisStore)
        (key value : string) (more keys : list string) (other : string) :
  let set := first.executeCommand "SET" (key :: value :: more) store in
  let del := first.executeCommand "DEL" (key :: keys) store in
  snd set = "OK"%string /\
  first.executeCommand "GET" [key] (fst set) = (fst set, value) /\
  (other <> key -> fst set !! other = store !! other) /\
  (store !! other = None ->
   first.executeCommand "GET" [other] store = (store, "(nil)"%string)) /\
  (forall k, fst del !! k
             = if decide (k ∈ key :: keys) then None else store !! k) /\
  snd del
  = strconv.FormatInt (Z.of_nat (size store) - Z.of_nat (size (fst del))).
Proof.
  cbn zeta. unfold first.executeCommand.
  change (String.eqb "SET" "PING") with false.
  change (String.eqb "SET" "SET") with true.
  change (String.eqb "GET" "PING") with false.
  change (String.eqb "GET" "SET") with false.
  change (String.eqb "GET" "GET") with true.
  change (String.eqb "DEL" "PING") with false.
  change (String.eqb "DEL" "SET") with false.
  change (String.eqb "DEL" "GET") with false.
  change (String.eqb "DEL" "DEL") with true.
  cbv iota. cbn [fst snd]. unfold first.RedisStore in *.
  split; [done|]. split; [by rewrite lookup_insert_eq|].
  split; [intros Hne; by rewrite lookup_insert_ne|].
  split; [by intros ->|].
  destruct (first.del_loop store (key :: keys)) as [store' n] eqn:E.
  unfold first.del_loop in E.
  apply first_del_loop in E as [Hlook Hn]. cbn [fst snd].
  split; [done|]. rewrite Hn. f_equal; lia.
Qed.

(** X28.  In the first server only SET and DEL write: PING, GET, EXISTS, a
    verb it does not know, and SET, GET, DEL or EXISTS with too few
    arguments all leave the store as it is. *)
Theorem first_server_reads_change_nothing (cmd : string)
        (args : list string) (store : first.RedisStore) :
  cmd <> "SET"%string /\ cmd <> "DEL"%string \/
  args = [] \/ (cmd = "SET"%string /\ length args = 1%nat) ->
  fst (first.executeCommand cmd args store) = store.
Proof.
  intros H. unfold first.executeCommand.
  destruct (String.eqb_spec cmd "PING") as [->|_]; [done|].
  destruct (String.eqb_spec cmd "SET") as [->|_].
  { destruct H as [[? _]|[->|[_ Hl]]]; [done|done|].
    by destruct args as [|? [|? ?]]. }
  destruct (String.eqb_spec cmd "GET") as [->|_].
  { destruct args as [|key [|? ?]]; try done. by destruct (store !! key). }
  destruct (String.eqb_spec cmd "DEL") as [->|_].
  { destruct H as [[_ ?]|[->|[? _]]]; done. }
  destruct (String.eqb_spec cmd "EXISTS") as [->|_]; [|done].
  by destruct args.
Qed.

Lemma first_server_reads_change_nothing_witness :
  fst (first.executeCommand "EXISTS" ["a"; "a"]%string
                            {["a"%string := "1"%string]})
  = {["a"%string := "1"%string]}.
Proof.
  apply first_server_reads_change_nothing. left. by split.
Defined.

(** ** Expired keys that are still stored *)

Lemma view_expired (d : Database) (now : Z) (k : string) :
  isExpired d now k = true -> view d now k = (None, None).
Proof. intros H. unfold view. by rewrite H. Qed.

Lemma view_live (d : Database) (now : Z) (k : string) :
  isExpired d now k = false -> view d now k = (data d !! k, expiry d !! k).
Proof. intros H. unfold view. by rewrite H. Qed.

Lemma view_purge (d : Database) (now : Z) (k x : string) :
  view (purge d k) now x
  = if decide (x = k) then (None, None) else view d now x.
Proof.
  unfold view, isExpired, purge; cbn [data expiry].
  destruct (decide (x = k)) as [->|Hne].
  - by rewrite !lookup_delete_eq.
  - by rewrite !lookup_delete_ne.
Qed.

Lemma view_Set (d : Database) (now : Z) (k value x : string) :
  view (Set_ d k value) now x
  = if decide (x = k) then (Some (string_value value), None)
    else view d now x.
Proof.
  unfold view, isExpired, Set_; cbn [data expiry].
  destruct (decide (x = k)) as [->|Hne].
  - by rewrite lookup_delete_eq, lookup_insert_eq.
  - by rewrite lookup_delete_ne, lookup_insert_ne.
Qed.

Lemma same_view_purge (now : Z) (d1 d2 : Database) (k : string) :
  same_view now d1 d2 -> same_view now (purge d1 k) (purge d2 k).
Proof.
  intros H x. rewrite !view_purge. by destruct (decide (x = k)).
Qed.

Lemma same_view_purge_l (now : Z) (d1 d2 : Database) (k : string) :
  same_view now d1 d2 -> view d2 now k = (None, None) ->
  same_view now (purge d1 k) d2.
Proof.
  intros H Hk x. rewrite view_purge.
  destruct (decide (x = k)) as [->|]; [done|apply H].
Qed.

Lemma same_view_sym (now : Z) (d1 d2 : Database) :
  same_view now d1 d2 -> same_view now d2 d1.
Proof. intros H k. by rewrite H. Qed.

(** [Get] after the purge it may do: the view is as before, and the answer
    is read off the view. *)
Lemma Get_view (d : Database) (now : Z) (k : string) :
  same_view now (fst (Get d now k)) d /\
  snd (Get d now k)
  = match fst (view d now k) with
    | Some val =>
        if decide (database.Type_ val = StringType) then Some (StrVal val)
        else None
    | None => None
    end.
Proof.
  unfold Get. destruct (isExpired d now k) eqn:Hx.
  - cbn [fst snd]. split.
    + intros x. rewrite view_purge.
      destruct (decide (x = k)) as [->|]; [|done]. by rewrite view_expired.
    + by rewrite view_expired.
  - rewrite (view_live d now k Hx). cbn [fst].
    destruct (data d !! k) as [val|]; [|done].
    by destruct (decide (database.Type_ val = StringType)).
Qed.

Lemma Get_same_view (now : Z) (d1 d2 : Database) (k : string) :
  same_view now d1 d2 ->
  snd (Get d1 now k) = snd (Get d2 now k) /\
  same_view now (fst (Get d1 now k)) (fst (Get d2 now k)).
Proof.
  intros H. destruct (Get_view d1 now k) as [H1 E1].
  destruct (Get_view d2 now k) as [H2 E2].
  split; [by rewrite E1, E2, H|].
  intros x. by rewrite H1, H2.
Qed.

Lemma Exists_same_view (now : Z) (d1 d2 : Database) (k : string) :
  same_view now d1 d2 ->
  snd (Exists d1 now k) = snd (Exists d2 now k) /\
  same_view now (fst (Exists d1 now k)) (fst (Exists d2 now k)).
Proof.
  intros H.
  assert (forall d,
            same_view now (fst (Exists d now k)) d /\
            snd (Exists d now k)
            = bool_decide (is_Some (fst (view d now k)))) as Hone.
  { intros d. unfold Exists. destruct (isExpired d now k) eqn:Hx.
    - cbn [fst snd]. split.
      + intros x. rewrite view_purge.
        destruct (decide (x = k)) as [->|]; [|done]. by rewrite view_expired.
      + rewrite view_expired by done. cbn [fst]. symmetry.
        apply bool_decide_eq_false_2. by intros [? ?].
    - by rewrite (view_live d now k Hx). }
  destruct (Hone d1) as [H1 E1]. destruct (Hone d2) as [H2 E2].
  split; [by rewrite E1, E2, H|].
  intros x. by rewrite H1, H2.
Qed.

Lemma Sub_past (e now : Z) : e < now -> minInt64 <= time.Sub e now <= 0.
Proof.
  intros H. unfold time.Sub, minInt64, maxInt64. cbv zeta.
  destruct (Z.ltb_spec (e - now) (- 2 ^ 63)); [lia|].
  destruct (Z.ltb_spec (2 ^ 63 - 1) (e - now)); lia.
Qed.

Lemma TTL_expired (d : Database) (now : Z) (k : string) :
  isExpired d now k = true ->
  snd (TTL d now k) = -2 /\
  (fst (TTL d now k) = d \/ fst (TTL d now k) = purge d k).
Proof.
  intros Hx. unfold TTL, isExpired in *.
  destruct (data d !! k); [|by split; [|left]].
  destruct (expiry d !! k) as [e|]; [|done].
  unfold time.After in Hx. apply Z.ltb_lt in Hx.
  rewrite (Seconds_not_positive _ (Sub_past e now Hx)).
  by split; [|right].
Qed.

Lemma TTL_same_view (now : Z) (d1 d2 : Database) (k : string) :
  same_view now d1 d2 ->
  snd (TTL d1 now k) = snd (TTL d2 now k) /\
  same_view now (fst (TTL d1 now k)) (fst (TTL d2 now k)).
Proof.
  intros H.
  assert (forall d, isExpired d now k = true ->
                    same_view now (fst (TTL d now k)) d) as Hkeep.
  { intros d Hx. destruct (TTL_expired d now k Hx) as [_ [->| ->]]; [done|].
    intros x. rewrite view_purge.
    destruct (decide (x = k)) as [->|]; [|done]. by rewrite view_expired. }
  assert (forall d, view d now k = (None, None) ->
                    isExpired d now k = false -> TTL d now k = (d, -2))
    as Hgone.
  { intros d Hv Hx. rewrite view_live in Hv by done.
    injection Hv as Hd _. unfold TTL. by rewrite Hd. }
  pose proof (H k) as Hk.
  destruct (isExpired d1 now k) eqn:Hx1; destruct (isExpired d2 now k) eqn:Hx2.
  - destruct (TTL_expired d1 now k Hx1) as [-> _].
    destruct (TTL_expired d2 now k Hx2) as [-> _]. split; [done|].
    intros x. by rewrite (Hkeep d1 Hx1), (Hkeep d2 Hx2).
  - destruct (TTL_expired d1 now k Hx1) as [-> _].
    rewrite view_expired in Hk by done.
    rewrite (Hgone d2 (eq_sym Hk) Hx2). split; [done|].
    intros x. by rewrite (Hkeep d1 Hx1).
  - destruct (TTL_expired d2 now k Hx2) as [-> _].
    rewrite (view_expired d2) in Hk by done.
    rewrite (Hgone d1 Hk Hx1). split; [done|].
    intros x. by rewrite (Hkeep d2 Hx2).
  - rewrite !view_live in Hk by done. injection Hk as Hd He.
    unfold TTL. rewrite Hd, He.
    destruct (data d2 !! k); [|done].
    destruct (expiry d2 !! k) as [e|]; [|done]. cbn zeta.
    destruct (time.fle0 _); [|done].
    split; [done|]. by apply same_view_purge.
Qed.

Lemma HGet_same_view (now : Z) (d1 d2 : Database) (k field : string) :
  same_view now d1 d2 -> HGet d1 now k field = HGet d2 now k field.
Proof.
  intros H.
  assert (forall d,
            HGet d now k field
            = match fst (view d now k) with
              | Some val =>
                  if decide (database.Type_ val = HashType)
                  then HashVal val !! field else None
              | None => None
              end) as Hone.
  { intros d. unfold HGet. destruct (isExpired d now k) eqn:Hx.
    - by rewrite view_expired.
    - by rewrite (view_live d now k Hx). }
  by rewrite !Hone, H.
Qed.

Lemma same_view_Set (now : Z) (d1 d2 : Database) (k value : string) :
  same_view now d1 d2 -> same_view now (Set_ d1 k value) (Set_ d2 k value).
Proof.
  intros H x. rewrite !view_Set. by destruct (decide (x = k)).
Qed.

Lemma count_Exists_same_view (now : Z) (keys : list string) :
  forall d1 d2 c,
    same_view now d1 d2 ->
    snd (foldl (fun (acc : Database * Z) key =>
                  let '(d', hit) := Exists (fst acc) now key in
                  (d', if hit then snd acc + 1 else snd acc))
               (d1, c) keys)
    = snd (foldl (fun (acc : Database * Z) key =>
                    let '(d', hit) := Exists (fst acc) now key in
                    (d', if hit then snd acc + 1 else snd acc))
                 (d2, c) keys) /\
    same_view now
      (fst (foldl (fun (acc : Database * Z) key =>
                     let '(d', hit) := Exists (fst acc) now key in
                     (d', if hit then snd acc + 1 else snd acc))
                  (d1, c) keys))
      (fst (foldl (fun (acc : Database * Z) key =>
                     let '(d', hit) := Exists (fst acc) now key in
                     (d', if hit then snd acc + 1 else snd acc))
                  (d2, c) keys)).
Proof.
  induction keys as [|k keys IH]; intros d1 d2 c H; [done|].
  cbn [foldl fst snd].
  destruct (Exists_same_view now d1 d2 k H) as [E Hv].
  destruct (Exists d1 now k) as [d1' hit1].
  destruct (Exists d2 now k) as [d2' hit2].
  cbn [fst snd] in E, Hv. subst hit2. by apply IH.
Qed.

Lemma counter_same_view (now : Z) (d1 d2 : Database) (k : string)
      (delta : Z) :
  same_view now d1 d2 ->
  let run d :=
    match Get d now k with
    | (d', Some value) =>
        match strconv.ParseInt value with
        | Err _ => (d', not_an_integer)
        | Ok num => add_and_store d' k num delta
        end
    | (d', None) => add_and_store d' k 0 delta
    end in
  snd (run d1) = snd (run d2) /\ same_view now (fst (run d1)) (fst (run d2)).
Proof.
  intros H run. subst run. cbv beta.
  destruct (Get_same_view now d1 d2 k H) as [E Hv].
  destruct (Get d1 now k) as [d1' got1]. destruct (Get d2 now k) as [d2' got2].
  cbn [fst snd] in E, Hv. subst got2.
  destruct got1 as [value|].
  - destruct (strconv.ParseInt value); [|done].
    unfold add_and_store. cbn [fst snd]. split; [done|].
    by apply same_view_Set.
  - unfold add_and_store. cbn [fst snd]. split; [done|].
    by apply same_view_Set.
Qed.

Lemma dispatch_same_view (now : Z) (d1 d2 : Database) (command : string)
      (args : list string) :
  command ∈ lazy_commands -> same_view now d1 d2 ->
  snd (dispatch command d1 now args) = snd (dispatch command d2 now args) /\
  same_view now (fst (dispatch command d1 now args))
            (fst (dispatch command d2 now args)).
Proof.
  intros Hc H. unfold lazy_commands in Hc.
  repeat (apply elem_of_cons in Hc as [->|Hc]); [..|by apply elem_of_nil in Hc].
  - done.
  - unfold dispatch. cbn [String.eqb Ascii.eqb Bool.eqb]. cbv iota.
    unfold handleSet. destruct args as [|key [|value more]]; try done.
    cbn [fst snd]. split; [done|]. by apply same_view_Set.
  - unfold dispatch. cbn [String.eqb Ascii.eqb Bool.eqb]. cbv iota.
    unfold handleGet. destruct args as [|key [|? ?]]; try done.
    destruct (Get_same_view now d1 d2 key H) as [E Hv].
    destruct (Get d1 now key) as [d1' got1].
    destruct (Get d2 now key) as [d2' got2].
    cbn [fst snd] in E, Hv. subst got2. by destruct got1.
  - unfold dispatch. cbn [String.eqb Ascii.eqb Bool.eqb]. cbv iota.
    unfold handleExists, count_loop. destruct args as [|key keys]; [done|].
    destruct (count_Exists_same_view now (key :: keys) d1 d2 0 H) as [E Hv].
    destruct (foldl _ (d1, 0) (key :: keys)) as [d1' n1].
    destruct (foldl _ (d2, 0) (key :: keys)) as [d2' n2].
    cbn [fst snd] in *. by subst n2.
  - unfold dispatch. cbn [String.eqb Ascii.eqb Bool.eqb]. cbv iota.
    unfold handleTTL. destruct args as [|key [|? ?]]; try done.
    destruct (TTL_same_view now d1 d2 key H) as [E Hv].
    destruct (TTL d1 now key) as [d1' t1].
    destruct (TTL d2 now key) as [d2' t2].
    cbn [fst snd] in *. by subst t2.
  - unfold dispatch. cbn [String.eqb Ascii.eqb Bool.eqb]. cbv iota.
    cbn [fst snd]. split; [|done].
    unfold handleHGet. destruct args as [|key [|field [|? ?]]]; try done.
    by rewrite (HGet_same_view now d1 d2 key field H).
  - unfold dispatch. cbn [String.eqb Ascii.eqb Bool.eqb]. cbv iota.
    unfold handleIncr. destruct args as [|key [|? ?]]; try done.
    apply (counter_same_view now d1 d2 key 1 H).
  - unfold dispatch. cbn [String.eqb Ascii.eqb Bool.eqb]. cbv iota.
    unfold handleDecr. destruct args as [|key [|? ?]]; try done.
    apply (counter_same_view now d1 d2 key (-1) H).
Qed.

(** X29.  Whether the sweeper has run makes no difference to PING, SET,
    GET, EXISTS, TTL, HGET, INCR and DECR: on the database as it is and on
    the database after [cleanupExpired] they give the same reply, and the
    two databases they leave still differ only in expired keys that are
    stored.  (DEL, EXPIRE, HSET and HDEL are not in the list: they do tell
    an expired key that is still stored from an absent one.) *)
Theorem sweep_is_invisible_to_lazy_commands (d : Database) (now : Z)
        (command : string) (args : list string) :
  command ∈ lazy_commands ->
  same_view now (cleanupExpired d now) d /\
  snd (dispatch command (cleanupExpired d now) now args)
  = snd (dispatch command d now args) /\
  same_view now (fst (dispatch command (cleanupExpired d now) now args))
            (fst (dispatch command d now args)).
Proof.
  intros Hc.
  assert (same_view now (cleanupExpired d now) d) as H.
  { intros k. destruct (cleanupExpired_lookup d now k) as [Hd He].
    unfold view at 1.
    assert (isExpired (cleanupExpired d now) now k = false) as ->.
    { unfold isExpired at 1. rewrite He.
      destruct (isExpired d now k) eqn:Hx; [done|].
      unfold isExpired in Hx. by destruct (expiry d !! k). }
    rewrite Hd, He. unfold view. by destruct (isExpired d now k). }
  split; [done|]. by apply dispatch_same_view.
Qed.

Lemma sweep_is_invisible_to_lazy_commands_witness :
  snd (dispatch "GET" (cleanupExpired db_stale 7) 7 ["k"]%string)
  = snd (dispatch "GET" db_stale 7 ["k"]%string).
Proof.
  apply (sweep_is_invisible_to_lazy_commands db_stale 7 "GET" ["k"]%string).
  unfold lazy_commands. set_solver.
Defined.

(** ** A record that is too long for the scanner *)

Lemma scan_lines_prefix (commands : list string) (tail : string) :
  Forall one_line commands ->
  scan_lines (concat_strings (map (fun c => c +:+ lf) commands) +:+ tail) []
  = (commands ++ fst (scan_lines tail []), snd (scan_lines tail [])).
Proof.
  induction commands as [|c cs IH]; intros Hl.
  { cbn [map concat_strings app]. change (EmptyString +:+ tail) with tail.
    by destruct (scan_lines tail []). }
  apply Forall_cons in Hl as [(Hlf & Hcr & Hlen) Hl].
  cbn [map concat_strings]. rewrite !append_assoc.
  change (lf +:+ concat_strings (map (fun c => c +:+ lf) cs) +:+ tail)
    with (String LF (concat_strings (map (fun c => c +:+ lf) cs) +:+ tail)).
  rewrite scan_one_line; [|done|cbn [length]; lia].
  rewrite IH by done. cbn [fst snd]. by rewrite dropCR_line.
Qed.

Lemma scan_too_long (long : string) :
  forall rev_line rest,
    Forall (fun c => c <> LF) (list_ascii_of_string long) ->
    Z.of_nat (length rev_line) < MaxScanTokenSize ->
    MaxScanTokenSize <= Z.of_nat (length rev_line + String.length long) ->
    scan_lines (long +:+ rest) rev_line = ([], Some ErrTooLong).
Proof.
  induction long as [|c long IH]; intros rev_line rest Hlf Hlt Hge.
  { cbn [String.length] in Hge. lia. }
  cbn [list_ascii_of_string] in Hlf. apply Forall_cons in Hlf as [Hc Hlf].
  rewrite append_cons. cbn [scan_lines].
  destruct (Ascii.eqb_spec c LF) as [->|_]; [done|].
  destruct (Z.leb_spec MaxScanTokenSize (Z.of_nat (S (length rev_line))))
    as [_|Hs]; [done|].
  apply IH; [done|cbn [length]; lia|].
  cbn [length String.length] in *. lia.
Qed.

(** X30.  One record that is too long ends the replay: when the log holds
    records of one line each, then a record of 65536 bytes or more, then
    any records, [LoadAOF] reports the records before the long one, returns
    the scanner's error for the long one, and reports none of the records
    written after it. *)
Theorem long_record_ends_the_replay (m : Manager) (files : Disk)
        (d : Database) (before after : list string) (long : string) :
  aofEnabled m = true -> appendonly_aof files = None ->
  Forall one_line before -> no_LF long ->
  MaxScanTokenSize <= Z.of_nat (String.length long) ->
  LoadAOF m (foldl (WriteAOF m) files (before ++ long :: after)) d
  = (d,
     map (fun command =>
            "Replaying command: " +:+ command +:+ String LF EmptyString)
         before,
     Some ErrTooLong).
Proof.
  intros Hon Hnew Hl Hlf Hlong. unfold LoadAOF. rewrite Hon. cbn [negb].
  rewrite WriteAOF_all, Hnew by (try done; by destruct before).
  cbn [default]. change (EmptyString +:+ ?x) with x.
  rewrite map_app. cbn [map].
  assert (forall l1 l2, concat_strings (l1 ++ l2)
                        = concat_strings l1 +:+ concat_strings l2) as Happ.
  { induction l1 as [|x l1 IH]; intros l2; [done|].
    cbn [app concat_strings]. by rewrite IH, append_assoc. }
  rewrite Happ. cbn [concat_strings]. rewrite scan_lines_prefix by done.
  rewrite !append_assoc.
  rewrite scan_too_long; [|done|done|cbn [length]; lia].
  cbn [fst snd]. by rewrite app_nil_r.
Qed.

Lemma long_record_ends_the_replay_witness :
  LoadAOF (mkManager true true)
          (foldl (WriteAOF (mkManager true true)) empty_disk
                 (["SET a 1"%string] ++ long_record :: ["DEL a"%string]))
          NewDatabase
  = (NewDatabase, ["Replaying command: SET a 1" +:+ lf], Some ErrTooLong).
Proof.
  apply (long_record_ends_the_replay (mkManager true true) empty_disk
           NewDatabase ["SET a 1"%string] ["DEL a"%string] long_record).
  - reflexivity.
  - reflexivity.
  - repeat constructor; by vm_compute.
  - unfold no_LF, long_record.
    rewrite Stdlib.Strings.String.list_ascii_of_string_of_list_ascii.
    apply List.Forall_forall. intros c Hc%repeat_spec. by subst.
  - by vm_compute.
Defined.

(** ** Log records, written and read back *)

Lemma write_records_map (m : Manager) (commands : list (string * list string)) :
  forall files,
    write_records m files commands
    = foldl (WriteAOF m) files (map record commands).
Proof.
  unfold write_records.
  induction commands as [|c cs IH]; intros files; [done|].
  cbn [foldl map]. apply IH.
Qed.

Lemma split_spaces_record (command : string * list string) :
  plain command ->
  split_spaces (record command) = fst command :: snd command.
Proof.
  intros (Hw & Ha & _). unfold record.
  apply split_spaces_cmdStr; [by apply write_verb_no_space|done].
Qed.

Lemma fields_inj (l1 l2 : list (string * list string)) :
  map (fun c => fst c :: snd c) l1 = map (fun c => fst c :: snd c) l2 ->
  l1 = l2.
Proof.
  revert l2. induction l1 as [|[c1 a1] l1 IH]; intros [|[c2 a2] l2] E;
    try done.
  cbn [map fst snd] in E. injection E as -> -> E. f_equal. by apply IH.
Qed.

Lemma decode_written (m : Manager) (files : Disk)
      (commands : list (string * list string)) :
  aofEnabled m = true -> appendonly_aof files = None ->
  commands <> [] -> Forall plain commands ->
  decode_log (write_records m files commands)
  = (map (fun c => fst c :: snd c) commands, None).
Proof.
  intros Hon Hnew Hne Hp. unfold decode_log.
  rewrite write_records_map, WriteAOF_all, Hnew; [|done|by destruct commands].
  cbn [default]. change (EmptyString +:+ ?x) with x. unfold id.
  rewrite scan_all_lines.
  2:{ apply List.Forall_map. eapply Forall_impl; [exact Hp|].
      by intros c (_ & _ & H). }
  f_equal. rewrite map_map. apply map_ext_Forall.
  eapply Forall_impl; [exact Hp|]. intros c Hc. by apply split_spaces_record.
Qed.

(** An argument with a line feed in it is read back as two records. *)
Lemma line_feed_splits_record :
  decode_log (write_records (mkManager true true) empty_disk
                [("SET"%string, ["k"%string; "a" +:+ lf +:+ "b"])])
  = ([["SET"; "k"; "a"]; ["b"]]%string, None).
Proof. reflexivity. Qed.

(** C6, amended.  On a server with the log enabled and no log file yet,
    after the records of any commands were written with [WriteAOF], each
    command with a write verb, with arguments that hold no space, and with
    a record that is one line (no line feed inside, no carriage return at
    the end, shorter than 65536 bytes), the scanner of [LoadAOF] reads the
    file without an error and its lines, split at their spaces, are exactly
    the verbs and argument lists of the commands, in their order.  So two
    such sequences of commands that leave the same log file are equal. *)
Theorem log_decodes_plain_commands (m : Manager) (files : Disk)
        (commands : list (string * list string)) :
  aofEnabled m = true -> appendonly_aof files = None ->
  commands <> [] -> Forall plain commands ->
  decode_log (write_records m files commands)
  = (map (fun c => fst c :: snd c) commands, None) /\
  forall commands',
    commands' <> [] -> Forall plain commands' ->
    appendonly_aof (write_records m files commands')
    = appendonly_aof (write_records m files commands) ->
    commands' = commands.
Proof.
  intros Hon Hnew Hne Hp. split; [by apply decode_written|].
  intros commands' Hne' Hp' Heq.
  pose proof (decode_written m files commands Hon Hnew Hne Hp) as E.
  pose proof (decode_written m files commands' Hon Hnew Hne' Hp') as E'.
  unfold decode_log in E, E'. rewrite Heq in E'. rewrite E in E'.
  injection E' as E'. symmetry. by apply fields_inj.
Qed.

Lemma log_decodes_plain_commands_witness :
  decode_log (write_records (mkManager true true) empty_disk
                [("SET", ["a"; "1"]); ("HSET", ["h"; "f"; "v"])]%string)
  = ([["SET"; "a"; "1"]; ["HSET"; "h"; "f"; "v"]]%string, None).
Proof.
  apply (log_decodes_plain_commands (mkManager true true) empty_disk
           [("SET", ["a"; "1"]); ("HSET", ["h"; "f"; "v"])]%string).
  - reflexivity.
  - reflexivity.
  - done.
  - repeat constructor; try (by vm_compute).
Defined.
